(** * baybe.constraints: conditions and constraints over candidate tables

    A shallow embedding of [baybe/constraints.py].  A pandas [DataFrame] is a
    list of column labels together with a list of rows, every row carrying its
    index label; a [Series] is the list of its values.  Python exceptions are
    the [Raise] branch of [result].  Floats are exact rationals ([Qc]); NaN and
    [None] cells are the single value [Missing]. *)

From stdpp Require Import base decidable option numbers list strings gmap sorting.
From Stdlib Require Import QArith Qcanon Qcabs.

Close Scope Qc_scope.
Close Scope Q_scope.

(** ** Exceptions *)

Inductive exn :=
| KeyError
| IndexError
| TypeError
| ValueError
| StrictValidationError
| NotAllowed (element : string) (allowed : list string).

Inductive result (A : Type) :=
| Ok (a : A)
| Raise (e : exn).
Arguments Ok {A} a.
Arguments Raise {A} e.

Global Instance exn_eq_dec : EqDecision exn.
Proof. solve_decision. Defined.

Global Instance result_ret : MRet result := λ A a, Ok a.
Global Instance result_bind : MBind result := λ A B f m,
  match m with Ok a => f a | Raise e => Raise e end.
Global Instance result_fmap : FMap result := λ A B f m,
  match m with Ok a => Ok (f a) | Raise e => Raise e end.

(** [d[k]] on a dict or [l[k]] on a list: the lookup or the given exception. *)
Definition lookup_or {A} (e : exn) (o : option A) : result A :=
  match o with Some a => Ok a | None => Raise e end.

(** ** Cell values *)

(** Genuine data values of a candidate table. *)
Inductive value :=
| Num (q : Qc)
| Str (s : string)
| Missing.

Global Instance value_eq_dec : EqDecision value.
Proof. solve_decision. Defined.
Global Instance value_inhabited : Inhabited value := populate Missing.

(** Modelled from the spec: the class [Dummy] is imported from [baybe.utils]
    and defined outside [constraints.py].  It is a placeholder without
    [__eq__], so an instance "compares equal only to itself": every evaluation
    of the expression [Dummy()] creates a new object.  [Dummy k] is the object
    created in iteration [k] of the censoring loop.  [Tuple2] is the pair built
    by [zip]. *)
Inductive cell :=
| Val (v : value)
| Dummy (k : nat)
| Tuple2 (a b : cell).

Global Instance cell_eq_dec : EqDecision cell.
Proof. solve_decision. Defined.
Global Instance cell_inhabited : Inhabited cell := populate (Val Missing).

(** ** Data frames *)

Definition rowid := Z.

(** A frame lists its column labels; a row is its index label with the cells
    by column label.  A label without a cell reads as the missing value. *)
Record DataFrame (A : Type) := mkDataFrame {
  columns : list string;
  rows : list (rowid * gmap string A)
}.
Arguments mkDataFrame {A} columns rows.
Arguments columns {A} _.
Arguments rows {A} _.

(** Selection by a boolean mask, as in [data.index[mask]] and
    [data.loc[mask]]: the entries whose mask bit is set, in order. *)
Definition loc_mask {X} (xs : list X) (mask : list bool) : list X :=
  (filter (λ xm, xm.2 = true) (zip xs mask)).*1.

Definition index_mask (idx : list rowid) (mask : list bool) : list rowid :=
  loc_mask idx mask.

(** A [for] loop whose body may raise. *)
Fixpoint for_each {S X} (body : S → X → result S) (s : S) (l : list X) : result S :=
  match l with
  | [] => Ok s
  | x :: l' => s' ← body s x; for_each body s' l'
  end.

Section Frame.
Context {A : Type} `{!Inhabited A}.

(** [data.index] *)
Definition index (data : DataFrame A) : list rowid := (rows data).*1.

(** The cells of a row under the given labels, in their order. *)
Definition cells (names : list string) (r : gmap string A) : list A :=
  (λ n, r !!! n) <$> names.

(** The rows of a frame as [apply(..., axis=1)] sees them. *)
Definition row_values (data : DataFrame A) : list (list A) :=
  (λ r, cells (columns data) r.2) <$> rows data.

(** [data[name]]: one column as a series. *)
Definition getitem (data : DataFrame A) (name : string) : result (list A) :=
  if decide (name ∈ columns data)
  then Ok ((λ r, r.2 !!! name) <$> rows data)
  else Raise KeyError.

(** [data[names]]: the sub-frame of the listed columns. *)
Definition getitems (data : DataFrame A) (names : list string) : result (DataFrame A) :=
  if decide (names ⊆ columns data)
  then Ok (mkDataFrame names (rows data))
  else Raise KeyError.

(** [data.columns.drop(labels)]: every label must be present. *)
Definition columns_drop (cols : list string) (labels : list string) : result (list string) :=
  if decide (labels ⊆ cols)
  then Ok (filter (λ c, c ∉ labels) cols)
  else Raise KeyError.

(** [data.drop(index=labels)] *)
Definition drop_index (data : DataFrame A) (labels : list rowid) : result (DataFrame A) :=
  if decide (labels ⊆ index data)
  then Ok (mkDataFrame (columns data) (filter (λ r, r.1 ∉ labels) (rows data)))
  else Raise KeyError.

(** [data.loc[mask, names] = v] *)
Definition set_cells (names : list string) (v : A) (r : gmap string A) : gmap string A :=
  foldr (λ n r', <[n := v]> r') r names.

Definition loc_setitem (data : DataFrame A) (mask : list bool) (names : list string) (v : A)
  : result (DataFrame A) :=
  if decide (names ⊆ columns data)
  then Ok (mkDataFrame (columns data)
             (zip_with (λ (m : bool) r, if m then (r.1, set_cells names v r.2) else r)
                mask (rows data)))
  else Raise KeyError.

(** [data[name] = series]; a new label becomes the last column. *)
Definition setitem (data : DataFrame A) (name : string) (series : list A) : DataFrame A :=
  mkDataFrame
    (if decide (name ∈ columns data) then columns data else columns data ++ [name])
    (zip_with (λ r x, (r.1, <[name := x]> r.2)) (rows data) series).
End Frame.

(** [DataFrame.duplicated(keep="first")] over row signatures compared by
    [eqb]: a row is marked when an earlier row has an equal signature. *)
Fixpoint duplicated_from {S} (eqb : S → S → bool) (seen : list S) (sigs : list S) : list bool :=
  match sigs with
  | [] => []
  | s :: sigs' => existsb (eqb s) seen :: duplicated_from eqb (seen ++ [s]) sigs'
  end.

Definition duplicated {S} (eqb : S → S → bool) (sigs : list S) : list bool :=
  duplicated_from eqb [] sigs.

(** Equality of two [frozenset]s given by their elements. *)
Definition frozenset_eqb {A} `{EqDecision A} (a b : list A) : bool :=
  bool_decide (a ⊆ b ∧ b ⊆ a).

(** [Index.union]: the other operand when one is empty or both are equal,
    else the sorted distinct labels of both. *)
Definition Index_union (a b : list rowid) : list rowid :=
  if decide (b = [] ∨ a = b) then a
  else if decide (a = []) then b
  else merge_sort Z.le (remove_dups (a ++ b)).

(** [DataFrame.nunique(axis=1)] of one row: distinct values, missing ones
    not counted ([dropna=True]). *)
Definition nunique (r : list value) : nat :=
  length (remove_dups (filter (λ v, v ≠ Missing) r)).

(** ** Conditions *)

(** [numpy.isclose(x, y, rtol, atol)] on scalars; NaN is close to nothing. *)
Definition np_isclose (x : value) (y rtol atol : Qc) : bool :=
  match x with
  | Num a => bool_decide (Qcabs (a - y) <= atol + rtol * Qcabs y)%Qc
  | _ => false
  end.

(** The counterpart to [numpy.isclose]. *)
Definition _is_not_close (x : value) (y rtol atol : Qc) : bool :=
  negb (np_isclose x y rtol atol).

(** [operator.lt] and friends; every comparison with NaN is false. *)
Definition ops_lt (x : value) (y : Qc) : bool :=
  match x with Num a => bool_decide (a < y)%Qc | _ => false end.
Definition ops_le (x : value) (y : Qc) : bool :=
  match x with Num a => bool_decide (a <= y)%Qc | _ => false end.
Definition ops_gt (x : value) (y : Qc) : bool :=
  match x with Num a => bool_decide (y < a)%Qc | _ => false end.
Definition ops_ge (x : value) (y : Qc) : bool :=
  match x with Num a => bool_decide (y <= a)%Qc | _ => false end.

(** The two shapes of callables stored in [_threshold_operators]:
    a plain binary comparison, or [rpartial(f, rtol=0.0)] for an
    [isclose]-like [f] that still accepts the keyword [atol]. *)
Inductive threshold_operator :=
| Compare (f : value → Qc → bool)
| Rtol0 (f : value → Qc → Qc → Qc → bool).

Definition _threshold_operators : gmap string threshold_operator :=
  list_to_map [
    ("<", Compare ops_lt);
    ("<=", Compare ops_le);
    ("=", Rtol0 np_isclose);
    ("==", Rtol0 np_isclose);
    ("!=", Rtol0 _is_not_close);
    (">", Compare ops_gt);
    (">=", Compare ops_ge)
  ].

Definition _valid_tolerance_operators : list string := ["="; "=="; "!="].

Definition _valid_logic_combiners : gmap string (bool → bool → bool) :=
  list_to_map [("AND", andb); ("OR", orb); ("XOR", xorb)].

(** [dtype.kind in "iufb"]: a numeric series holds numbers and NaN only. *)
Definition is_numeric (v : value) : bool :=
  match v with Str _ => false | _ => true end.

Module ThresholdCondition.
Record t := mk {
  threshold : Qc;
  operator : string;
  tolerance : option Qc
}.

Definition type : string := "THRESHOLD".

(** Default value for the tolerance. *)
Definition tolerance_default (op : string) : option Qc :=
  if decide (op ∈ _valid_tolerance_operators) then Some (Q2Qc (1 # 100000000)%Q) else None.

(** Validates the threshold condition tolerance. *)
Definition tolerance_validation (op : string) (tol : option Qc) : result unit :=
  if decide ((op ∉ _valid_tolerance_operators) ∧ (tol ≠ None))
  then Raise StrictValidationError else Ok ().

(** The generated [__init__]; [tol = None] is an omitted argument. *)
Definition init (thr : Qc) (op : string) (tol : option (option Qc)) : result t :=
  let tol' := default (tolerance_default op) tol in
  if decide (is_Some (_threshold_operators !! op))
  then (_ ← tolerance_validation op tol'; Ok (mk thr op tol'))
  else Raise ValueError.

(** [func], the elementwise test built with [rpartial]. *)
Definition func (self : t) (op : threshold_operator) (x : value) : result bool :=
  if decide (operator self ∈ _valid_tolerance_operators) then
    match op, tolerance self with
    | Rtol0 f, Some atol => Ok (f x (threshold self) 0%Qc atol)
    | _, _ => Raise TypeError
    end
  else
    match op with
    | Compare f => Ok (f x (threshold self))
    | Rtol0 f => Ok (f x (threshold self) 0%Qc (Q2Qc (1 # 100000000)%Q))
    end.

Definition evaluate (self : t) (data : list value) : result (list bool) :=
  if negb (forallb is_numeric data) then Raise StrictValidationError
  else
    op ← lookup_or KeyError (_threshold_operators !! operator self);
    mapM (func self op) data.
End ThresholdCondition.

Module SubSelectionCondition.
Record t := mk { selection : list string }.

Definition type : string := "SUBSELECTION".

(** [data.isin(self.selection)] *)
Definition evaluate (self : t) (data : list value) : result (list bool) :=
  Ok ((λ v, match v with
            | Str s => bool_decide (s ∈ selection self)
            | _ => false
            end) <$> data).
End SubSelectionCondition.

Inductive Condition :=
| Threshold (c : ThresholdCondition.t)
| SubSelection (c : SubSelectionCondition.t).

Definition Condition_evaluate (c : Condition) (data : list value) : result (list bool) :=
  match c with
  | Threshold c => ThresholdCondition.evaluate c data
  | SubSelection c => SubSelectionCondition.evaluate c data
  end.

(** ** Constraints *)

(** Validates the parameter list. *)
Definition validate_params (params : list string) : result unit :=
  if decide (length params ≠ length (remove_dups params))
  then Raise StrictValidationError else Ok ().

(** [functools.reduce] without an initial value. *)
Definition reduce {A} (f : A → A → A) (l : list A) : result A :=
  match l with
  | [] => Raise TypeError
  | x :: l' => Ok (foldl f x l')
  end.

Definition enumerate {A} (l : list A) : list (nat * A) := imap pair l.

Module ExcludeConstraint.
Record t := mk {
  parameters : list string;
  conditions : list Condition;
  combiner : string
}.

Definition type : string := "EXCLUDE".

(** The generated [__init__]: the validators of [parameters], [conditions]
    ([min_len(1)]) and [combiner] ([in_]) run in this order. *)
Definition init (params : list string) (conds : list Condition) (comb : option string)
  : result t :=
  let comb' := default "AND" comb in
  _ ← validate_params params;
  if decide (length conds < 1)%nat then Raise ValueError
  else if decide (is_Some (_valid_logic_combiners !! comb')) then Ok (mk params conds comb')
  else Raise ValueError.

Definition get_invalid (self : t) (data : DataFrame value) : result (list rowid) :=
  satisfied ← mapM (λ kc : nat * Condition,
                      name ← lookup_or IndexError (parameters self !! kc.1);
                      col ← getitem data name;
                      Condition_evaluate kc.2 col)
                   (enumerate (conditions self));
  comb ← lookup_or KeyError (_valid_logic_combiners !! combiner self);
  res ← reduce (zip_with comb) satisfied;
  Ok (index_mask (index data) res).
End ExcludeConstraint.

(** [DataFrame.sum(axis=1)] and [DataFrame.prod(axis=1)] on one row: missing
    cells are skipped, a string cell cannot be combined with numbers. *)
Fixpoint row_reduce (op : Qc → Qc → Qc) (unit : Qc) (r : list value) : result Qc :=
  match r with
  | [] => Ok unit
  | Num q :: r' => op q <$> row_reduce op unit r'
  | Missing :: r' => row_reduce op unit r'
  | Str _ :: _ => Raise TypeError
  end.

Module SumConstraint.
Record t := mk {
  parameters : list string;
  condition : ThresholdCondition.t
}.

Definition type : string := "SUM".

Definition init (params : list string) (cond : ThresholdCondition.t) : result t :=
  _ ← validate_params params; Ok (mk params cond).

Definition get_invalid (self : t) (data : DataFrame value) : result (list rowid) :=
  sub ← getitems data (parameters self);
  evaluate_data ← mapM (λ r, Num <$> row_reduce Qcplus 0%Qc r) (row_values sub);
  mask ← ThresholdCondition.evaluate (condition self) evaluate_data;
  Ok (index_mask (index data) (negb <$> mask)).
End SumConstraint.

Module ProductConstraint.
Record t := mk {
  parameters : list string;
  condition : ThresholdCondition.t
}.

Definition type : string := "PRODUCT".

Definition init (params : list string) (cond : ThresholdCondition.t) : result t :=
  _ ← validate_params params; Ok (mk params cond).

Definition get_invalid (self : t) (data : DataFrame value) : result (list rowid) :=
  sub ← getitems data (parameters self);
  evaluate_data ← mapM (λ r, Num <$> row_reduce Qcmult 1%Qc r) (row_values sub);
  mask ← ThresholdCondition.evaluate (condition self) evaluate_data;
  Ok (index_mask (index data) (negb <$> mask)).
End ProductConstraint.

Module NoLabelDuplicatesConstraint.
Record t := mk { parameters : list string }.

Definition type : string := "NO_LABEL_DUPLICATES".

Definition init (params : list string) : result t :=
  _ ← validate_params params; Ok (mk params).

Definition get_invalid (self : t) (data : DataFrame value) : result (list rowid) :=
  sub ← getitems data (parameters self);
  let mask_bad :=
    (λ r, bool_decide (nunique r ≠ length (parameters self))) <$> row_values sub in
  Ok (index_mask (index data) mask_bad).
End NoLabelDuplicatesConstraint.

Module LinkedParametersConstraint.
Record t := mk { parameters : list string }.

Definition type : string := "LINKED_PARAMETERS".

Definition init (params : list string) : result t :=
  _ ← validate_params params; Ok (mk params).

Definition get_invalid (self : t) (data : DataFrame value) : result (list rowid) :=
  sub ← getitems data (parameters self);
  let mask_bad := (λ r, bool_decide (nunique r ≠ 1%nat)) <$> row_values sub in
  Ok (index_mask (index data) mask_bad).
End LinkedParametersConstraint.

Module CustomConstraint.
(** The validator sees one row of [data[self.parameters]]: the cells
    labelled by their columns. *)
Record t := mk {
  parameters : list string;
  validator : list (string * value) → bool
}.

Definition type : string := "CUSTOM".

Definition init (params : list string) (v : list (string * value) → bool) : result t :=
  _ ← validate_params params; Ok (mk params v).

Definition get_invalid (self : t) (data : DataFrame value) : result (list rowid) :=
  sub ← getitems data (parameters self);
  let mask_bad := (λ r, negb (validator self (zip (columns sub) r))) <$> row_values sub in
  Ok (index_mask (index data) mask_bad).
End CustomConstraint.

(** The instance attributes [permutation_invariant] that have been assigned
    so far, by object identity.  An object without an entry still reads the
    class attribute. *)
Abbreviation heap := (gmap nat bool).

Module DependenciesConstraint.
(** [permutation_invariant = False] carries no annotation, so it is a class
    attribute and no field of the generated [__init__], [__eq__] or
    [__repr__]; [oid] is the identity of the object. *)
Record t := mk {
  oid : nat;
  parameters : list string;
  conditions : list Condition;
  affected_parameters : list (list string)
}.

Definition type : string := "DEPENDENCIES".

Definition permutation_invariant (h : heap) (self : t) : bool :=
  default false (h !! oid self).

(** Ensure each set of affected parameters has exactly one condition. *)
Definition affected_parameters_validator (conds : list Condition) (v : list (list string))
  : result unit :=
  if decide (length conds ≠ length v) then Raise StrictValidationError else Ok ().

Definition init (o : nat) (params : list string) (conds : list Condition)
    (affected : list (list string)) : result t :=
  _ ← validate_params params;
  _ ← affected_parameters_validator conds affected;
  Ok (mk o params conds affected).

(** The two frames alive in [get_invalid]: the argument and its copy. *)
Record frames := mkFrames {
  data : DataFrame value;
  censored_data : DataFrame cell
}.

(** [data.copy()] *)
Definition copy (d : DataFrame value) : DataFrame cell :=
  mkDataFrame (columns d) ((λ r : rowid * gmap string value, (r.1, Val <$> r.2)) <$> rows d).

(** Body of the first loop: mark entries where the dependency condition is
    negative with a dummy value. *)
Definition censor (self : t) (fr : frames) (k_ : nat * string) : result frames :=
  let k := k_.1 in
  cond ← lookup_or IndexError (conditions self !! k);
  param ← lookup_or IndexError (parameters self !! k);
  col ← getitem (data fr) param;
  mask ← Condition_evaluate cond col;
  affected ← lookup_or IndexError (affected_parameters self !! k);
  censored ← loc_setitem (censored_data fr) (negb <$> mask) affected (Dummy k);
  Ok (mkFrames (data fr) censored).

(** Body of the inner second loop: pair each value of an affected
    parameter with the value of the parameter it depends on. *)
Definition rekey (param : string) (fr : frames) (affected_param : string) : result frames :=
  a ← getitem (censored_data fr) affected_param;
  p ← getitem (censored_data fr) param;
  Ok (mkFrames (data fr) (setitem (censored_data fr) affected_param (zip_with Tuple2 a p))).

Definition rekey_group (self : t) (fr : frames) (k_param : nat * string) : result frames :=
  affected ← lookup_or IndexError (affected_parameters self !! k_param.1);
  for_each (rekey k_param.2) fr affected.

(** Row signatures of [df_eval]: the other columns, and the affected
    columns collapsed by [frozenset] or [tuple]. *)
Definition signature_eqb (permutation_invariant : bool) (s1 s2 : list cell * list cell) : bool :=
  bool_decide (s1.1 = s2.1) &&
  (if permutation_invariant then frozenset_eqb s1.2 s2.2 else bool_decide (s1.2 = s2.2)).

(** The body of [get_invalid], returning the final frames as well. *)
Definition run (permutation_invariant : bool) (self : t) (data0 : DataFrame value)
  : result (frames * list rowid) :=
  let fr0 := mkFrames data0 (copy data0) in
  fr1 ← for_each (censor self) fr0 (enumerate (parameters self));
  fr2 ← for_each (rekey_group self) fr1 (enumerate (parameters self));
  let all_affected_params := concat (affected_parameters self) in
  cols ← columns_drop (columns (data fr2)) all_affected_params;
  other_params ← columns_drop cols (parameters self);
  others ← getitems (censored_data fr2) other_params;
  affected ← getitems (censored_data fr2) all_affected_params;
  let df_eval := zip (row_values others) (row_values affected) in
  let inds_bad :=
    index_mask (index (data fr2)) (duplicated (signature_eqb permutation_invariant) df_eval) in
  Ok (fr2, inds_bad).

Definition get_invalid (self : t) (data0 : DataFrame value) (h : heap) : result (list rowid) :=
  snd <$> run (permutation_invariant h self) self data0.
End DependenciesConstraint.

Module PermutationInvarianceConstraint.
Record t := mk {
  parameters : list string;
  dependencies : option DependenciesConstraint.t
}.

Definition type : string := "PERMUTATION_INVARIANCE".

Definition init (params : list string) (deps : option DependenciesConstraint.t) : result t :=
  _ ← validate_params params; Ok (mk params deps).

Definition signature_eqb (s1 s2 : list value * list value) : bool :=
  bool_decide (s1.1 = s2.1) && frozenset_eqb s1.2 s2.2.

(** The part of [get_invalid] before the dependencies are looked at:
    [inds_duplicate_labels.union(inds_duplicate_permutations)]. *)
Definition inds_invalid (self : t) (data : DataFrame value) : result (list rowid) :=
  nld ← NoLabelDuplicatesConstraint.init (parameters self);
  dup ← NoLabelDuplicatesConstraint.get_invalid nld data;
  let mask_duplicate_labels := (λ i, bool_decide (i ∈ dup)) <$> index data in
  other_params ← columns_drop (columns data) (parameters self);
  others ← getitems data other_params;
  sets ← getitems data (parameters self);
  let df_eval :=
    loc_mask (zip (index data) (zip (row_values others) (row_values sets)))
             (negb <$> mask_duplicate_labels) in
  let mask_duplicate_permutations := duplicated signature_eqb df_eval.*2 in
  let inds_duplicate_labels := index_mask (index data) mask_duplicate_labels in
  let inds_duplicate_permutations := index_mask df_eval.*1 mask_duplicate_permutations in
  Ok (Index_union inds_duplicate_labels inds_duplicate_permutations).

Definition get_invalid (self : t) (data : DataFrame value) (h : heap)
  : result (list rowid) * heap :=
  match inds_invalid self data with
  | Raise e => (Raise e, h)
  | Ok inds =>
      match dependencies self with
      | None => (Ok inds, h)
      | Some deps =>
          let h' := <[DependenciesConstraint.oid deps := true]> h in
          (dropped ← drop_index data inds;
           adjusted ← DependenciesConstraint.get_invalid deps dropped h';
           Ok (Index_union inds adjusted), h')
      end
  end.
End PermutationInvarianceConstraint.

(** The concrete constraint classes. *)
Inductive Constraint :=
| Custom (c : CustomConstraint.t)
| Exclude (c : ExcludeConstraint.t)
| NoLabelDuplicates (c : NoLabelDuplicatesConstraint.t)
| LinkedParameters (c : LinkedParametersConstraint.t)
| Sum (c : SumConstraint.t)
| Product (c : ProductConstraint.t)
| PermutationInvariance (c : PermutationInvarianceConstraint.t)
| Dependencies (c : DependenciesConstraint.t).

(** [constraint.get_invalid(data)], dispatched on the class of the receiver;
    the heap of assigned flags is threaded through. *)
Definition get_invalid (c : Constraint) (data : DataFrame value) (h : heap)
  : result (list rowid) * heap :=
  match c with
  | Custom c => (CustomConstraint.get_invalid c data, h)
  | Exclude c => (ExcludeConstraint.get_invalid c data, h)
  | NoLabelDuplicates c => (NoLabelDuplicatesConstraint.get_invalid c data, h)
  | LinkedParameters c => (LinkedParametersConstraint.get_invalid c data, h)
  | Sum c => (SumConstraint.get_invalid c data, h)
  | Product c => (ProductConstraint.get_invalid c data, h)
  | PermutationInvariance c => PermutationInvarianceConstraint.get_invalid c data h
  | Dependencies c => (DependenciesConstraint.get_invalid c data h, h)
  end.

(** ** Sample tables *)

(** A frame from its column labels and, per row, the index label and the
    cells in column order. *)
Definition frame (cols : list string) (rs : list (rowid * list value)) : DataFrame value :=
  mkDataFrame cols ((λ r, (r.1, list_to_map (zip cols r.2))) <$> rs).

Definition q (n : Z) : value := Num (Q2Qc (inject_Z n)).

Definition sample_switch : DataFrame value :=
  frame ["switch"; "x"; "y"]
    [(0%Z, [Str "on"; q 1; q 2]);
     (1%Z, [Str "on"; q 2; q 1]);
     (2%Z, [Str "off"; q 1; q 2]);
     (3%Z, [Str "off"; q 3; q 4])].

Definition sample_labels : DataFrame value :=
  frame ["a"; "b"; "y"]
    [(0%Z, [Str "A"; Str "B"; q 5]);
     (1%Z, [Str "B"; Str "A"; q 5]);
     (2%Z, [Str "A"; Str "A"; q 5]);
     (3%Z, [Str "B"; Str "A"; q 6]);
     (4%Z, [Str "A"; Missing; q 5])].

Definition is_on : Condition := SubSelection (SubSelectionCondition.mk ["on"]).

Definition sample_deps : DependenciesConstraint.t :=
  DependenciesConstraint.mk 0 ["switch"] [is_on] [["x"; "y"]].

Definition sample_perm : PermutationInvarianceConstraint.t :=
  PermutationInvarianceConstraint.mk ["x"; "y"] (Some sample_deps).

Definition sample_exclude : ExcludeConstraint.t :=
  ExcludeConstraint.mk ["a"; "b"]
    [SubSelection (SubSelectionCondition.mk ["A"]);
     SubSelection (SubSelectionCondition.mk ["A"])] "XOR".

(** ** Row-wise reading of the algorithms *)




(** One element of the list comprehension in [ExcludeConstraint.get_invalid]. *)
Definition exclude_eval (params : list string) (data : DataFrame value)
    (kc : nat * Condition) : result (list bool) :=
  name ← lookup_or IndexError (params !! kc.1);
  col ← getitem data name;
  Condition_evaluate kc.2 col.

(** A condition on a single value. *)
Definition Condition_holds (c : Condition) (v : value) : bool :=
  match Condition_evaluate c [v] with
  | Ok [b] => b
  | _ => false
  end.

(** The labels of the rows whose signature repeats an earlier one. *)
Definition later_duplicates_from {X S} (eqb : S → S → bool) (sig : X → S)
    (ident : X → rowid) (seen : list S) (R : list X) : list rowid :=
  loc_mask (ident <$> R) (duplicated_from eqb seen (sig <$> R)).

Definition later_duplicates {X S} (eqb : S → S → bool) (sig : X → S)
    (ident : X → rowid) (R : list X) : list rowid :=
  loc_mask (ident <$> R) (duplicated eqb (sig <$> R)).

Module Deps.
Import DependenciesConstraint.

Definition column (data : DataFrame value) (p : string) : list value :=
  (λ r, r.2 !!! p) <$> rows data.

(** The frames in which every censored row is [F] of the data row. *)
Definition lift (data0 : DataFrame value) (F : gmap string value → gmap string cell) : frames :=
  mkFrames data0 (mkDataFrame (columns data0) ((λ r, (r.1, F r.2)) <$> rows data0)).

(** Iteration [k] of the first loop goes through. *)
Definition censor_ok (self : t) (data0 : DataFrame value) (k : nat) : Prop :=
  ∃ c p g m,
    conditions self !! k = Some c ∧ parameters self !! k = Some p ∧
    affected_parameters self !! k = Some g ∧
    p ∈ columns data0 ∧ Condition_evaluate c (column data0 p) = Ok m ∧
    g ⊆ columns data0.

(** Iteration [k] of the first loop, on one row. *)
Definition censor_row (self : t) (r0 : gmap string value) (acc : gmap string cell)
    (k_ : nat * string) : gmap string cell :=
  match conditions self !! k_.1, parameters self !! k_.1, affected_parameters self !! k_.1 with
  | Some c, Some p, Some g =>
      if Condition_holds c (r0 !!! p) then acc else set_cells g (Dummy k_.1) acc
  | _, _, _ => acc
  end.

(** The second loop, on one row. *)
Definition rekey_cell (p : string) (acc : gmap string cell) (a : string) : gmap string cell :=
  <[a := Tuple2 (acc !!! a) (acc !!! p)]> acc.

Definition rekey_row (self : t) (acc : gmap string cell) (kp : nat * string)
  : gmap string cell :=
  match affected_parameters self !! kp.1 with
  | Some g => foldl (rekey_cell kp.2) acc g
  | None => acc
  end.

Definition rekey_ok (self : t) (data0 : DataFrame value) (kp : nat * string) : Prop :=
  ∃ g, affected_parameters self !! kp.1 = Some g ∧
       Forall (λ a, a ∈ columns data0 ∧ kp.2 ∈ columns data0) g.


Definition censored (self : t) (r0 : gmap string value) : gmap string cell :=
  foldl (censor_row self r0) (Val <$> r0) (enumerate (parameters self)).


(** The final censored row of a data row. *)
Definition final_row (self : t) (r0 : gmap string value) : gmap string cell :=
  foldl (rekey_row self)
    (foldl (censor_row self r0) (Val <$> r0) (enumerate (parameters self)))
    (enumerate (parameters self)).

Definition other_params (self : t) (cols : list string) : list string :=
  filter (λ c, c ∉ parameters self)
    (filter (λ c, c ∉ concat (affected_parameters self)) cols).

Definition signatures (self : t) (cols : list string)
    (F : gmap string value → gmap string cell) (data0 : DataFrame value)
  : list (list cell * list cell) :=
  (λ r, (cells (other_params self cols) (F r.2),
         cells (concat (affected_parameters self)) (F r.2))) <$> rows data0.

(** The statements of [run] after the two loops. *)
Definition finish (pi : bool) (self : t) (fr2 : frames) : result (frames * list rowid) :=
  let all_affected_params := concat (affected_parameters self) in
  cols ← columns_drop (columns (data fr2)) all_affected_params;
  other_params ← columns_drop cols (parameters self);
  others ← getitems (censored_data fr2) other_params;
  affected ← getitems (censored_data fr2) all_affected_params;
  let df_eval := zip (row_values others) (row_values affected) in
  let inds_bad :=
    index_mask (index (data fr2)) (duplicated (signature_eqb pi) df_eval) in
  Ok (fr2, inds_bad).

(** [run] raises nothing. *)
Definition run_ok (self : t) (data0 : DataFrame value) : Prop :=
  Forall (λ kx, censor_ok self data0 kx.1) (enumerate (parameters self)) ∧
  Forall (rekey_ok self data0) (enumerate (parameters self)) ∧
  concat (affected_parameters self) ⊆ columns data0 ∧
  parameters self ⊆ filter (λ c, c ∉ concat (affected_parameters self)) (columns data0).


End Deps.

Module Perm.
Import PermutationInvarianceConstraint.

Definition label_duplicate (params : list string) (r : rowid * gmap string value) : Prop :=
  nunique (cells params r.2) ≠ length params.

(** Stage 1: the labels of the rows with label duplicates. *)
Definition stage1 (params : list string) (data : DataFrame value) : list rowid :=
  (filter (label_duplicate params) (rows data)).*1.

Definition others (params : list string) (data : DataFrame value) : list string :=
  filter (λ c, c ∉ params) (columns data).

Definition sig (params : list string) (data : DataFrame value)
    (r : rowid * gmap string value) : list value * list value :=
  (cells (others params data) r.2, cells params r.2).

(** The rows that stage 2 looks at. *)
Definition passed (params : list string) (data : DataFrame value)
  : list (rowid * gmap string value) :=
  filter (λ r, r.1 ∉ stage1 params data) (rows data).

Definition stage2 (params : list string) (data : DataFrame value) : list rowid :=
  later_duplicates signature_eqb (sig params data) fst (passed params data).

(** [inds_duplicate_labels] *)
Definition labelled (params : list string) (data : DataFrame value) : list rowid :=
  (filter (λ r, r.1 ∈ stage1 params data) (rows data)).*1.

(** The multiset reading of stage 2: among the rows that passed stage 1, an
    earlier row has the same other values and a permutation of the values
    of the parameters. *)
Definition repeats_earlier (params : list string) (data : DataFrame value) (i : rowid) : Prop :=
  ∃ R1 x R2, passed params data = R1 ++ x :: R2 ∧ x.1 = i ∧
    ∃ y, y ∈ R1 ∧
      cells (others params data) y.2 = cells (others params data) x.2 ∧
      cells params y.2 ≡ₚ cells params x.2.

(** The frame without the rows of the given labels. *)
Definition remaining (data : DataFrame value) (flagged : list rowid) : DataFrame value :=
  mkDataFrame (columns data) (filter (λ r, r.1 ∉ flagged) (rows data)).
End Perm.
(** ** Serialization *)

(** Unstructured data: what a mapping can hold. *)
Unset Elimination Schemes.
Inductive config :=
| CNone
| CNum (x : Qc)
| CStr (s : string)
| CList (l : list config)
| CDict (d : list (string * config))
| CCallable (f : list (string * value) → bool).
Set Elimination Schemes.

(** The registries filled by [__init_subclass__]: the [type] tags of the
    concrete classes, in definition order. *)
Definition Condition_SUBCLASSES : list string :=
  [ThresholdCondition.type; SubSelectionCondition.type].

Definition Constraint_SUBCLASSES : list string :=
  [ExcludeConstraint.type; SumConstraint.type; ProductConstraint.type;
   NoLabelDuplicatesConstraint.type; LinkedParametersConstraint.type;
   DependenciesConstraint.type; PermutationInvarianceConstraint.type;
   CustomConstraint.type].

(** Modelled from the spec: [check_if_in] is imported from [baybe.utils] and
    defined outside [constraints.py]; an unknown [type] "fails with a clear
    error listing valid options". *)
Definition check_if_in (element : string) (allowed : list string) : result unit :=
  if decide (element ∈ allowed) then Ok () else Raise (NotAllowed element allowed).

Fixpoint dict_get (d : list (string * config)) (k : string) : result config :=
  match d with
  | [] => Raise KeyError
  | (k', v) :: d' => if decide (k' = k) then Ok v else dict_get d' k
  end.

Definition as_str (c : config) : result string :=
  match c with CStr s => Ok s | _ => Raise TypeError end.
Definition as_num (c : config) : result Qc :=
  match c with CNum x => Ok x | _ => Raise TypeError end.
Definition as_opt_num (c : config) : result (option Qc) :=
  match c with CNum x => Ok (Some x) | CNone => Ok None | _ => Raise TypeError end.
Definition as_list (c : config) : result (list config) :=
  match c with CList l => Ok l | _ => Raise TypeError end.
Definition as_dict (c : config) : result (list (string * config)) :=
  match c with CDict d => Ok d | _ => Raise TypeError end.
Definition as_callable (c : config) : result (list (string * value) → bool) :=
  match c with CCallable f => Ok f | _ => Raise TypeError end.
Definition as_strs (c : config) : result (list string) :=
  l ← as_list c; mapM as_str l.
Definition as_strss (c : config) : result (list (list string)) :=
  l ← as_list c; mapM as_strs l.

Definition of_strs (l : list string) : config := CList (CStr <$> l).
Definition of_opt_num (o : option Qc) : config :=
  match o with Some x => CNum x | None => CNone end.

(** Modelled from the spec: the hooks [unstructure_base] and
    [get_base_unstructure_hook] are imported from [baybe.utils] and defined
    outside [constraints.py].  Serializing gives "a mapping containing all
    constructor-visible fields plus [type]"; deserializing builds the instance
    of the class registered under [type] from the field values, through its
    [__init__]. *)
Definition unstructure_threshold (c : ThresholdCondition.t) : config :=
  CDict [("type", CStr ThresholdCondition.type);
         ("threshold", CNum (ThresholdCondition.threshold c));
         ("operator", CStr (ThresholdCondition.operator c));
         ("tolerance", of_opt_num (ThresholdCondition.tolerance c))].

(** Modelled from the spec: [unstructure_base] on a condition. *)
Definition unstructure_condition (c : Condition) : config :=
  match c with
  | Threshold c => unstructure_threshold c
  | SubSelection c =>
      CDict [("type", CStr SubSelectionCondition.type);
             ("selection", of_strs (SubSelectionCondition.selection c))]
  end.

(** Modelled from the spec: the fields of a threshold condition, handed to
    its [__init__]. *)
Definition structure_threshold (d : list (string * config)) : result ThresholdCondition.t :=
  thr ← dict_get d "threshold" ≫= as_num;
  op ← dict_get d "operator" ≫= as_str;
  tol ← dict_get d "tolerance" ≫= as_opt_num;
  ThresholdCondition.init thr op (Some tol).

(** Modelled from the spec: the structure hook of [Condition], the
    counterpart of [unstructure_condition]; the [type] dispatch follows
    [Condition.create]. *)
Definition structure_condition (c : config) : result Condition :=
  d ← as_dict c;
  ty ← dict_get d "type" ≫= as_str;
  _ ← check_if_in ty Condition_SUBCLASSES;
  if decide (ty = ThresholdCondition.type) then Threshold <$> structure_threshold d
  else sel ← dict_get d "selection" ≫= as_strs;
       Ok (SubSelection (SubSelectionCondition.mk sel)).

Definition as_conditions (c : config) : result (list Condition) :=
  l ← as_list c; mapM structure_condition l.

Definition as_threshold (c : config) : result ThresholdCondition.t :=
  d ← as_dict c; structure_threshold d.

(** Modelled from the spec: [unstructure_base] on a dependencies constraint;
    [permutation_invariant] is no field and is left out. *)
Definition unstructure_dependencies (c : DependenciesConstraint.t) : config :=
  CDict [("type", CStr DependenciesConstraint.type);
         ("parameters", of_strs (DependenciesConstraint.parameters c));
         ("conditions", CList (unstructure_condition <$> DependenciesConstraint.conditions c));
         ("affected_parameters",
          CList (of_strs <$> DependenciesConstraint.affected_parameters c))].

(** Modelled from the spec: the fields of a dependencies constraint, handed
    to its [__init__]; [o] is the identity of the object that is created. *)
Definition structure_dependencies (o : nat) (d : list (string * config))
  : result DependenciesConstraint.t :=
  params ← dict_get d "parameters" ≫= as_strs;
  conds ← dict_get d "conditions" ≫= as_conditions;
  affected ← dict_get d "affected_parameters" ≫= as_strss;
  DependenciesConstraint.init o params conds affected.

(** Modelled from the spec: [unstructure_base] on a constraint. *)
Definition unstructure_base (c : Constraint) : config :=
  match c with
  | Custom c =>
      CDict [("type", CStr CustomConstraint.type);
             ("parameters", of_strs (CustomConstraint.parameters c));
             ("validator", CCallable (CustomConstraint.validator c))]
  | Exclude c =>
      CDict [("type", CStr ExcludeConstraint.type);
             ("parameters", of_strs (ExcludeConstraint.parameters c));
             ("conditions", CList (unstructure_condition <$> ExcludeConstraint.conditions c));
             ("combiner", CStr (ExcludeConstraint.combiner c))]
  | NoLabelDuplicates c =>
      CDict [("type", CStr NoLabelDuplicatesConstraint.type);
             ("parameters", of_strs (NoLabelDuplicatesConstraint.parameters c))]
  | LinkedParameters c =>
      CDict [("type", CStr LinkedParametersConstraint.type);
             ("parameters", of_strs (LinkedParametersConstraint.parameters c))]
  | Sum c =>
      CDict [("type", CStr SumConstraint.type);
             ("parameters", of_strs (SumConstraint.parameters c));
             ("condition", unstructure_threshold (SumConstraint.condition c))]
  | Product c =>
      CDict [("type", CStr ProductConstraint.type);
             ("parameters", of_strs (ProductConstraint.parameters c));
             ("condition", unstructure_threshold (ProductConstraint.condition c))]
  | PermutationInvariance c =>
      CDict [("type", CStr PermutationInvarianceConstraint.type);
             ("parameters", of_strs (PermutationInvarianceConstraint.parameters c));
             ("dependencies",
              match PermutationInvarianceConstraint.dependencies c with
              | Some deps => unstructure_dependencies deps
              | None => CNone
              end)]
  | Dependencies c => unstructure_dependencies c
  end.

(** Modelled from the spec: the structure hook of [Constraint]; the [type]
    dispatch follows [Constraint.create]. *)
Definition structure_base (o : nat) (c : config) : result Constraint :=
  d ← as_dict c;
  ty ← dict_get d "type" ≫= as_str;
  _ ← check_if_in ty Constraint_SUBCLASSES;
  if decide (ty = CustomConstraint.type) then
    params ← dict_get d "parameters" ≫= as_strs;
    v ← dict_get d "validator" ≫= as_callable;
    Custom <$> CustomConstraint.init params v
  else if decide (ty = ExcludeConstraint.type) then
    params ← dict_get d "parameters" ≫= as_strs;
    conds ← dict_get d "conditions" ≫= as_conditions;
    comb ← dict_get d "combiner" ≫= as_str;
    Exclude <$> ExcludeConstraint.init params conds (Some comb)
  else if decide (ty = NoLabelDuplicatesConstraint.type) then
    params ← dict_get d "parameters" ≫= as_strs;
    NoLabelDuplicates <$> NoLabelDuplicatesConstraint.init params
  else if decide (ty = LinkedParametersConstraint.type) then
    params ← dict_get d "parameters" ≫= as_strs;
    LinkedParameters <$> LinkedParametersConstraint.init params
  else if decide (ty = SumConstraint.type) then
    params ← dict_get d "parameters" ≫= as_strs;
    cond ← dict_get d "condition" ≫= as_threshold;
    Sum <$> SumConstraint.init params cond
  else if decide (ty = ProductConstraint.type) then
    params ← dict_get d "parameters" ≫= as_strs;
    cond ← dict_get d "condition" ≫= as_threshold;
    Product <$> ProductConstraint.init params cond
  else if decide (ty = PermutationInvarianceConstraint.type) then
    params ← dict_get d "parameters" ≫= as_strs;
    deps ← dict_get d "dependencies";
    deps' ← match deps with
            | CNone => Ok None
            | _ => Some <$> (d' ← as_dict deps; structure_dependencies o d')
            end;
    PermutationInvariance <$> PermutationInvarianceConstraint.init params deps'
  else Dependencies <$> structure_dependencies o d.

(** Instances as their [__init__] produces them. *)
Definition valid_threshold (c : ThresholdCondition.t) : Prop :=
  ThresholdCondition.init (ThresholdCondition.threshold c) (ThresholdCondition.operator c)
    (Some (ThresholdCondition.tolerance c)) = Ok c.

Definition valid_condition (c : Condition) : Prop :=
  match c with
  | Threshold c => valid_threshold c
  | SubSelection _ => True
  end.

Definition valid_dependencies (c : DependenciesConstraint.t) : Prop :=
  DependenciesConstraint.init (DependenciesConstraint.oid c)
    (DependenciesConstraint.parameters c) (DependenciesConstraint.conditions c)
    (DependenciesConstraint.affected_parameters c) = Ok c ∧
  Forall valid_condition (DependenciesConstraint.conditions c).

Definition valid_constraint (c : Constraint) : Prop :=
  match c with
  | Custom c =>
      CustomConstraint.init (CustomConstraint.parameters c) (CustomConstraint.validator c)
      = Ok c
  | Exclude c =>
      ExcludeConstraint.init (ExcludeConstraint.parameters c) (ExcludeConstraint.conditions c)
        (Some (ExcludeConstraint.combiner c)) = Ok c ∧
      Forall valid_condition (ExcludeConstraint.conditions c)
  | NoLabelDuplicates c =>
      NoLabelDuplicatesConstraint.init (NoLabelDuplicatesConstraint.parameters c) = Ok c
  | LinkedParameters c =>
      LinkedParametersConstraint.init (LinkedParametersConstraint.parameters c) = Ok c
  | Sum c =>
      SumConstraint.init (SumConstraint.parameters c) (SumConstraint.condition c) = Ok c ∧
      valid_threshold (SumConstraint.condition c)
  | Product c =>
      ProductConstraint.init (ProductConstraint.parameters c) (ProductConstraint.condition c)
      = Ok c ∧
      valid_threshold (ProductConstraint.condition c)
  | PermutationInvariance c =>
      PermutationInvarianceConstraint.init (PermutationInvarianceConstraint.parameters c)
        (PermutationInvarianceConstraint.dependencies c) = Ok c ∧
      from_option valid_dependencies True (PermutationInvarianceConstraint.dependencies c)
  | Dependencies c => valid_dependencies c
  end.

(** The generated [__eq__] compares the fields; the identity of a
    dependencies object is not one of them. *)
Definition forget_oid (c : DependenciesConstraint.t) : DependenciesConstraint.t :=
  DependenciesConstraint.mk 0 (DependenciesConstraint.parameters c)
    (DependenciesConstraint.conditions c) (DependenciesConstraint.affected_parameters c).

Definition fields (c : Constraint) : Constraint :=
  match c with
  | PermutationInvariance c =>
      PermutationInvariance
        (PermutationInvarianceConstraint.mk (PermutationInvarianceConstraint.parameters c)
           (forget_oid <$> PermutationInvarianceConstraint.dependencies c))
  | Dependencies c => Dependencies (forget_oid c)
  | _ => c
  end.

(** ** Class attributes and the order of evaluation *)

(** The order in which the classes are listed for evaluation, by type tag. *)
Definition _constraints_order : list string :=
  ["CUSTOM"; "EXCLUDE"; "NO_LABEL_DUPLICATES"; "LINKED_PARAMETERS"; "SUM"; "PRODUCT";
   "PERMUTATION_INVARIANCE"; "DEPENDENCIES"].

(** [constraint.type], the class variable of the receiver's class. *)
Definition Constraint_type (c : Constraint) : string :=
  match c with
  | Custom _ => CustomConstraint.type
  | Exclude _ => ExcludeConstraint.type
  | NoLabelDuplicates _ => NoLabelDuplicatesConstraint.type
  | LinkedParameters _ => LinkedParametersConstraint.type
  | Sum _ => SumConstraint.type
  | Product _ => ProductConstraint.type
  | PermutationInvariance _ => PermutationInvarianceConstraint.type
  | Dependencies _ => DependenciesConstraint.type
  end.

(** [constraint.parameters], the field of the base class. *)
Definition Constraint_parameters (c : Constraint) : list string :=
  match c with
  | Custom c => CustomConstraint.parameters c
  | Exclude c => ExcludeConstraint.parameters c
  | NoLabelDuplicates c => NoLabelDuplicatesConstraint.parameters c
  | LinkedParameters c => LinkedParametersConstraint.parameters c
  | Sum c => SumConstraint.parameters c
  | Product c => ProductConstraint.parameters c
  | PermutationInvariance c => PermutationInvarianceConstraint.parameters c
  | Dependencies c => DependenciesConstraint.parameters c
  end.

(** ** Row-wise reading of sums, products and thresholds *)

(** The numbers among the cells of a row; the other cells of a row that can
    be summed are missing values. *)
Definition numbers (r : list value) : list Qc :=
  omap (λ v, match v with Num x => Some x | _ => None end) r.

(** The sum and the product of a row, missing cells skipped. *)
Definition row_total (r : list value) : Qc := foldr Qcplus 0%Qc (numbers r).
Definition row_product (r : list value) : Qc := foldr Qcmult 1%Qc (numbers r).

(** A threshold condition whose operator is known and which has a tolerance
    when its operator takes one. *)
Definition evaluable (c : ThresholdCondition.t) : Prop :=
  is_Some (_threshold_operators !! ThresholdCondition.operator c) ∧
  (ThresholdCondition.operator c ∈ _valid_tolerance_operators →
   is_Some (ThresholdCondition.tolerance c)).

(** Two tables with the same index that agree on the columns [P]: the same
    ones are present, with the same cells. *)
Definition same_on (P : list string) (d1 d2 : DataFrame value) : Prop :=
  index d1 = index d2 ∧
  (∀ p, p ∈ P → (p ∈ columns d1 ↔ p ∈ columns d2)) ∧
  Forall2 (λ r1 r2 : rowid * gmap string value, ∀ p, p ∈ P → r1.2 !!! p = r2.2 !!! p)
    (rows d1) (rows d2).


(** The results of the conditions of an exclusion constraint on one row, and
    their combination. *)
Definition exclude_results (params : list string) (conds : list Condition)
    (r : gmap string value) : list bool :=
  (λ kc : nat * Condition, Condition_holds kc.2 (r !!! (params !!! kc.1))) <$> enumerate conds.

Definition exclude_row (self : ExcludeConstraint.t) (r : gmap string value) : bool :=
  match _valid_logic_combiners !! ExcludeConstraint.combiner self,
        exclude_results (ExcludeConstraint.parameters self) (ExcludeConstraint.conditions self) r
  with
  | Some comb, b :: bs => foldl comb b bs
  | _, _ => false
  end.

(** The verdict on one row of the classes that build their mask row by row:
    [true] when the row is invalid. *)
Definition row_invalid (c : Constraint) (r : gmap string value) : bool :=
  match c with
  | Custom c =>
      negb (CustomConstraint.validator c
              (zip (CustomConstraint.parameters c) (cells (CustomConstraint.parameters c) r)))
  | Exclude c => exclude_row c r
  | NoLabelDuplicates c =>
      bool_decide (nunique (cells (NoLabelDuplicatesConstraint.parameters c) r)
                   ≠ length (NoLabelDuplicatesConstraint.parameters c))
  | LinkedParameters c =>
      bool_decide (nunique (cells (LinkedParametersConstraint.parameters c) r) ≠ 1%nat)
  | Sum c =>
      negb (Condition_holds (Threshold (SumConstraint.condition c))
              (Num (row_total (cells (SumConstraint.parameters c) r))))
  | Product c =>
      negb (Condition_holds (Threshold (ProductConstraint.condition c))
              (Num (row_product (cells (ProductConstraint.parameters c) r))))
  | PermutationInvariance _ | Dependencies _ => false
  end.

(** ** Further sample tables *)

(** A numeric table with a missing cell. *)
Definition sample_numbers : DataFrame value :=
  frame ["x"; "y"; "z"]
    [(0%Z, [q 1; q 2; q 3]);
     (1%Z, [q 2; q 2; q 0]);
     (2%Z, [q 5; Missing; q 1])].

(** [ThresholdCondition(threshold=n, operator="<=")] *)
Definition at_most (n : Z) : ThresholdCondition.t :=
  ThresholdCondition.mk (Q2Qc (inject_Z n)) "<=" None.

Definition sample_sum : SumConstraint.t := SumConstraint.mk ["x"; "y"] (at_most 4).


(** [sample_labels] with other values in the column that is no parameter. *)
Definition sample_labels_other : DataFrame value :=
  frame ["a"; "b"; "y"]
    [(0%Z, [Str "A"; Str "B"; q 7]);
     (1%Z, [Str "B"; Str "A"; q 8]);
     (2%Z, [Str "A"; Str "A"; Missing]);
     (3%Z, [Str "B"; Str "A"; Str "z"]);
     (4%Z, [Str "A"; Missing; q 5])].

(** * The exception monad *)

Lemma bind_Ok {A B} (m : result A) (f : A → result B) b :
  m ≫= f = Ok b ↔ ∃ a, m = Ok a ∧ f a = Ok b.
Proof.
  destruct m as [a|e]; simpl; split.
  - eauto.
  - by intros (? & [= ->] & ?).
  - done.
  - by intros (? & ? & ?).
Qed.

Lemma fmap_Ok {A B} (m : result A) (f : A → B) b :
  f <$> m = Ok b ↔ ∃ a, m = Ok a ∧ b = f a.
Proof.
  destruct m as [a|e]; simpl; split.
  - intros [= <-]. eauto.
  - by intros (? & [= ->] & ->).
  - done.
  - by intros (? & ? & ?).
Qed.

Lemma mapM_Ok {A B} (f : A → result B) l k :
  mapM f l = Ok k ↔ Forall2 (λ x y, f x = Ok y) l k.
Proof.
  revert k. induction l as [|x l IH]; intros k; simpl.
  - split; [intros [= <-]; constructor | by inversion 1].
  - split.
    + intros (y & Hy & Hk)%bind_Ok. apply bind_Ok in Hk as (k' & Hk' & [= <-]).
      constructor; [done | by apply IH].
    + inversion 1 as [|? y ? k' Hy Hk']; subst.
      rewrite Hy. simpl. apply IH in Hk'. by rewrite Hk'.
Qed.

Lemma mapM_Ok_fmap {A B} (f : A → result B) (g : A → B) l :
  (∀ x, x ∈ l → f x = Ok (g x)) → mapM f l = Ok (g <$> l).
Proof.
  intros H. apply mapM_Ok. induction l; constructor.
  - apply H. left.
  - apply IHl. intros. apply H. by right.
Qed.

(** * Threshold conditions *)


Lemma threshold_operators_lookup :
  (_threshold_operators !! "<" = Some (Compare ops_lt)) ∧
  (_threshold_operators !! "<=" = Some (Compare ops_le)) ∧
  (_threshold_operators !! "=" = Some (Rtol0 np_isclose)) ∧
  (_threshold_operators !! "==" = Some (Rtol0 np_isclose)) ∧
  (_threshold_operators !! "!=" = Some (Rtol0 _is_not_close)) ∧
  (_threshold_operators !! ">" = Some (Compare ops_gt)) ∧
  (_threshold_operators !! ">=" = Some (Compare ops_ge)).
Proof. repeat split; reflexivity. Qed.

(** * Boolean masks and distinct counts *)

Section masks.
Context {X Y : Type}.

Lemma loc_mask_cons (x : X) xs (b : bool) mask :
  loc_mask (x :: xs) (b :: mask) = if b then x :: loc_mask xs mask else loc_mask xs mask.
Proof.
  unfold loc_mask. simpl. rewrite filter_cons. simpl.
  destruct b; by case_decide.
Qed.

Lemma loc_mask_subseteq (xs : list X) mask : loc_mask xs mask ⊆ xs.
Proof.
  revert mask. induction xs as [|x xs IH]; intros [|b mask]; try done.
  - apply list_subseteq_nil.
  - rewrite loc_mask_cons. destruct b.
    + intros y [->|Hy]%elem_of_cons; [left | right; by eapply IH].
    + intros y Hy. right. by eapply IH.
Qed.

Lemma loc_mask_fmap (g : Y → X) (f : Y → bool) (l : list Y) :
  loc_mask (g <$> l) (f <$> l) = g <$> filter (λ y, f y = true) l.
Proof.
  induction l as [|y l IH]; [done|].
  rewrite !fmap_cons, loc_mask_cons, filter_cons, IH.
  destruct (f y); by case_decide.
Qed.

Lemma loc_mask_bool_decide (g : Y → X) (P : Y → Prop) `{!∀ y, Decision (P y)} (l : list Y) :
  loc_mask (g <$> l) ((λ y, bool_decide (P y)) <$> l) = g <$> filter P l.
Proof.
  rewrite loc_mask_fmap. f_equal. apply list_filter_iff. intros y.
  apply bool_decide_eq_true.
Qed.
End masks.

Lemma length_remove_dups_le {A} `{EqDecision A} (l : list A) :
  (length (remove_dups l) ≤ length l)%nat.
Proof. induction l as [|x l IH]; simpl; [done|]. case_decide; simpl; lia. Qed.

Lemma remove_dups_constant {A} `{EqDecision A} (v : A) (l : list A) :
  l ≠ [] → (∀ x, x ∈ l → x = v) → remove_dups l = [v].
Proof.
  induction l as [|x l IH]; [done|]. intros _ Hall. simpl.
  assert (x = v) as -> by (apply Hall; left).
  case_decide as Hd.
  - apply IH; [by intros -> ; apply not_elem_of_nil in Hd|].
    intros z Hz. apply Hall. by right.
  - destruct l as [|y l]; [done|]. exfalso. apply Hd.
    assert (y = v) as -> by (apply Hall; right; left). left.
Qed.

Lemma nunique_missing (r : list value) :
  Missing ∈ r → (nunique r < length r)%nat.
Proof.
  intros H. unfold nunique.
  eapply Nat.le_lt_trans; [apply length_remove_dups_le|].
  eapply length_filter_lt; [done|]. intros Hm. by apply Hm.
Qed.

Lemma nunique_single (v : value) (r : list value) :
  v ≠ Missing → v ∈ r → (∀ c, c ∈ r → c = Missing ∨ c = v) → nunique r = 1%nat.
Proof.
  intros Hv Hin Hall. unfold nunique.
  rewrite (remove_dups_constant v); [done| |].
  - intros Hnil. assert (v ∈ filter (λ c, c ≠ Missing) r) as Hf
      by (by apply list_elem_of_filter).
    rewrite Hnil in Hf. by apply not_elem_of_nil in Hf.
  - intros x [Hx1 Hx2]%list_elem_of_filter. by destruct (Hall x Hx2).
Qed.

Lemma NoLabelDuplicates_get_invalid_rows (params : list string) (data : DataFrame value) :
  params ⊆ columns data →
  NoLabelDuplicatesConstraint.get_invalid (NoLabelDuplicatesConstraint.mk params) data
  = Ok (filter (λ r, nunique (cells params r.2) ≠ length params) (rows data)).*1.
Proof.
  intros Hsub. unfold NoLabelDuplicatesConstraint.get_invalid, getitems. simpl.
  rewrite decide_True by done. simpl. f_equal.
  unfold index_mask, row_values, index. simpl.
  rewrite <- list_fmap_compose.
  apply (loc_mask_bool_decide fst (λ r : rowid * gmap string value,
    nunique (cells params r.2) ≠ length params)).
Qed.

Lemma LinkedParameters_get_invalid_rows (params : list string) (data : DataFrame value) :
  params ⊆ columns data →
  LinkedParametersConstraint.get_invalid (LinkedParametersConstraint.mk params) data
  = Ok (filter (λ r, nunique (cells params r.2) ≠ 1%nat) (rows data)).*1.
Proof.
  intros Hsub. unfold LinkedParametersConstraint.get_invalid, getitems. simpl.
  rewrite decide_True by done. simpl. f_equal.
  unfold index_mask, row_values, index. simpl.
  rewrite <- list_fmap_compose.
  apply (loc_mask_bool_decide fst (λ r : rowid * gmap string value,
    nunique (cells params r.2) ≠ 1%nat)).
Qed.

(** C10: missing values are not counted by [nunique].  The label-duplicate
    constraint returns the labels of the rows whose count of distinct
    non-missing values differs from the number of parameters, the linking
    constraint those whose count differs from one; so a row with a missing
    value among its parameter cells is always flagged by the first (its count
    stays below the number of columns), and a row whose parameter cells hold
    one value [v] besides missing ones is not flagged by the second. *)
Theorem missing_values_not_counted (params : list string) (data : DataFrame value) :
  params ⊆ columns data →
  let flagged_nld :=
    filter (λ r, nunique (cells params r.2) ≠ length params) (rows data) in
  let flagged_linked :=
    filter (λ r, nunique (cells params r.2) ≠ 1%nat) (rows data) in
  (NoLabelDuplicatesConstraint.get_invalid (NoLabelDuplicatesConstraint.mk params) data
   = Ok flagged_nld.*1) ∧
  (LinkedParametersConstraint.get_invalid (LinkedParametersConstraint.mk params) data
   = Ok flagged_linked.*1) ∧
  (∀ r, r ∈ rows data → Missing ∈ cells params r.2 →
        (nunique (cells params r.2) < length params)%nat ∧ r ∈ flagged_nld) ∧
  (∀ r (v : value),
     r ∈ rows data → v ≠ Missing → v ∈ cells params r.2 →
     (∀ c, c ∈ cells params r.2 → c = Missing ∨ c = v) →
     nunique (cells params r.2) = 1%nat ∧ r ∉ flagged_linked).
Proof.
  intros Hsub flagged_nld flagged_linked.
  split; [by apply NoLabelDuplicates_get_invalid_rows|].
  split; [by apply LinkedParameters_get_invalid_rows|]. split.
  - intros r Hr Hmiss. apply nunique_missing in Hmiss.
    unfold cells in Hmiss at 2. rewrite length_fmap in Hmiss.
    split; [done|]. apply list_elem_of_filter. split; [lia | done].
  - intros r v Hr Hv Hin Hall.
    pose proof (nunique_single v _ Hv Hin Hall) as Hone.
    split; [done|]. intros [Hne _]%list_elem_of_filter. done.
Qed.

(** * Exclude *)

Lemma mapM_ext_in {A B} (f g : A → result B) l :
  (∀ x, x ∈ l → f x = g x) → mapM f l = mapM g l.
Proof.
  induction l as [|x l IH]; intros H; simpl; [done|].
  rewrite (H x) by left. rewrite IH; [done|]. intros. apply H. by right.
Qed.

Lemma mapM_Raise_at {A B} (f : A → result B) l1 x l2 ys e :
  Forall2 (λ x y, f x = Ok y) l1 ys → f x = Raise e → mapM f (l1 ++ x :: l2) = Raise e.
Proof.
  intros H Hx. induction H as [|a y l1 ys Ha _ IH]; simpl.
  - by rewrite Hx.
  - by rewrite Ha, IH.
Qed.

Lemma mapM_Raise_elem {A B} (f : A → result B) l x e :
  x ∈ l → f x = Raise e → ∃ e', mapM f l = Raise e'.
Proof.
  intros Hx He. induction l as [|a l IH]; [by apply elem_of_nil in Hx|].
  simpl. destruct (f a) as [y|e1] eqn:Ha; [|by eexists].
  apply elem_of_cons in Hx as [->|Hx]; [congruence|].
  destruct (IH Hx) as [e' ->]. by eexists.
Qed.





Lemma foldl_andb b bs : foldl andb b bs = forallb id (b :: bs).
Proof.
  revert b. induction bs as [|c bs IH]; intros b; simpl.
  - by rewrite andb_true_r.
  - rewrite IH. simpl. unfold id. by rewrite andb_assoc.
Qed.

Lemma foldl_orb b bs : foldl orb b bs = existsb id (b :: bs).
Proof.
  revert b. induction bs as [|c bs IH]; intros b; simpl.
  - by rewrite orb_false_r.
  - rewrite IH. simpl. unfold id. by rewrite orb_assoc.
Qed.




Lemma logic_combiners_lookup :
  (_valid_logic_combiners !! "AND" = Some andb) ∧
  (_valid_logic_combiners !! "OR" = Some orb) ∧
  (_valid_logic_combiners !! "XOR" = Some xorb).
Proof. repeat split; reflexivity. Qed.



Lemma remove_dups_NoDup_id {A} `{EqDecision A} (l : list A) :
  NoDup l → remove_dups l = l.
Proof.
  induction 1 as [|x l Hx _ IH]; simpl; [done|].
  case_decide; [done | by rewrite IH].
Qed.

Lemma length_remove_dups_NoDup {A} `{EqDecision A} (l : list A) :
  length l = length (remove_dups l) ↔ NoDup l.
Proof.
  split.
  - induction l as [|x l IH]; simpl; [constructor|].
    case_decide as Hx; simpl.
    + pose proof (length_remove_dups_le l). lia.
    + intros [= Hl]. constructor; [done | by apply IH].
  - intros H. by rewrite remove_dups_NoDup_id.
Qed.

Lemma validate_params_cases params :
  (NoDup params ∧ validate_params params = Ok ()) ∨
  (¬ NoDup params ∧ validate_params params = Raise StrictValidationError).
Proof.
  unfold validate_params. case_decide as H.
  - right. split; [|done]. by rewrite <- length_remove_dups_NoDup.
  - left. split; [|done]. apply length_remove_dups_NoDup.
    destruct (decide (length params = length (remove_dups params))); done.
Qed.

Lemma logic_combiner_valid comb :
  is_Some (_valid_logic_combiners !! comb) ↔ comb ∈ ["AND"; "OR"; "XOR"].
Proof.
  unfold _valid_logic_combiners. rewrite <- elem_of_dom.
  rewrite dom_list_to_map_L. simpl. set_solver.
Qed.

Lemma exclude_init params conds comb :
  ExcludeConstraint.init params conds (Some comb) = Ok (ExcludeConstraint.mk params conds comb)
  ↔ NoDup params ∧ conds ≠ [] ∧ comb ∈ ["AND"; "OR"; "XOR"].
Proof.
  unfold ExcludeConstraint.init. simpl.
  destruct (validate_params_cases params) as [[Hnd ->]|[Hnd ->]]; simpl;
    [|split; [done | by intros [? _]]].
  rewrite <- logic_combiner_valid.
  destruct conds as [|c conds]; simpl.
  - split; [done | by intros (_ & ? & _)].
  - case_decide.
    + split; [by intros _ | done].
    + split; [done | by intros (_ & _ & ?)].
Qed.

Lemma enumerate_lookup {A} (l : list A) k x :
  enumerate l !! k = Some x ↔ ∃ a, l !! k = Some a ∧ x = (k, a).
Proof.
  unfold enumerate. rewrite list_lookup_imap.
  destruct (l !! k) as [a|]; simpl.
  - split; [intros [= <-]; eauto | by intros (a' & [= <-] & ->)].
  - split; [done | by intros (? & ? & _)].
Qed.

Lemma elem_of_enumerate {A} (l : list A) k a :
  (k, a) ∈ enumerate l ↔ l !! k = Some a.
Proof.
  rewrite list_elem_of_lookup. split.
  - intros (i & Hi). apply enumerate_lookup in Hi as (b & Hb & [= -> ->]). done.
  - intros H. exists k. apply enumerate_lookup. eauto.
Qed.

Lemma exclude_get_invalid_unfold self data :
  ExcludeConstraint.get_invalid self data =
  (satisfied ← mapM (exclude_eval (ExcludeConstraint.parameters self) data)
                 (enumerate (ExcludeConstraint.conditions self));
   comb ← lookup_or KeyError (_valid_logic_combiners !! ExcludeConstraint.combiner self);
   res ← reduce (zip_with comb) satisfied;
   Ok (index_mask (index data) res)).
Proof. done. Qed.

(** C9: the lengths of [conditions] and [parameters] are unrelated at
    construction, which succeeds exactly when the parameters are unique, there
    is a condition and the combiner is known.  Only the first
    [len(conditions)] parameters are read: two parameter lists that agree
    there give the same result.  With more conditions than parameters the
    call raises on every table, and it raises [IndexError] whenever the
    conditions before the missing parameter evaluate. *)
Theorem exclude_length_mismatch (params : list string) (conds : list Condition)
    (comb : string) :
  (ExcludeConstraint.init params conds (Some comb) = Ok (ExcludeConstraint.mk params conds comb)
   ↔ NoDup params ∧ conds ≠ [] ∧ comb ∈ ["AND"; "OR"; "XOR"]) ∧
  (∀ (params' : list string) (data : DataFrame value),
     take (length conds) params' = take (length conds) params →
     ExcludeConstraint.get_invalid (ExcludeConstraint.mk params' conds comb) data
     = ExcludeConstraint.get_invalid (ExcludeConstraint.mk params conds comb) data) ∧
  ((length params < length conds)%nat →
   ∀ data : DataFrame value,
     (∃ e, ExcludeConstraint.get_invalid (ExcludeConstraint.mk params conds comb) data
           = Raise e) ∧
     ((∀ k name c, params !! k = Some name → conds !! k = Some c →
                   ∃ col m, getitem data name = Ok col ∧ Condition_evaluate c col = Ok m) →
      ExcludeConstraint.get_invalid (ExcludeConstraint.mk params conds comb) data
      = Raise IndexError)).
Proof.
  split; [apply exclude_init|]. split.
  - intros params' data Htake. rewrite !exclude_get_invalid_unfold. simpl.
    f_equal. apply mapM_ext_in. intros [k c] Hkc%elem_of_enumerate.
    unfold exclude_eval. simpl.
    apply lookup_lt_Some in Hkc.
    by rewrite <- (lookup_take_lt params' (length conds)),
               <- (lookup_take_lt params (length conds)), Htake by done.
  - intros Hlen data.
    destruct (lookup_lt_is_Some_2 conds (length params) Hlen) as [c Hc].
    assert (exclude_eval params data (length params, c) = Raise IndexError) as Hbad.
    { unfold exclude_eval. simpl. by rewrite lookup_ge_None_2. }
    assert ((length params, c) ∈ enumerate conds) as Hin by by apply elem_of_enumerate.
    rewrite exclude_get_invalid_unfold. simpl. split.
    + destruct (mapM_Raise_elem _ _ _ _ Hin Hbad) as [e ->]. by eexists.
    + intros Hpre.
      assert (enumerate conds !! length params = Some (length params, c)) as Hk
        by (apply enumerate_lookup; eauto).
      rewrite <- (take_drop_middle _ _ _ Hk).
      assert (∃ ys, Forall2 (λ x y, exclude_eval params data x = Ok y)
                      (take (length params) (enumerate conds)) ys) as [ys Hys].
      { assert (∀ l : list (nat * Condition),
                  (∀ x, x ∈ l → ∃ y, exclude_eval params data x = Ok y) →
                  ∃ ys, Forall2 (λ x y, exclude_eval params data x = Ok y) l ys) as Hall.
        { induction l as [|x l IH]; intros Hl.
          - exists []. constructor.
          - destruct (Hl x) as [y Hy]; [left|].
            destruct IH as [ys Hys]; [intros; apply Hl; by right|].
            exists (y :: ys). by constructor. }
        apply Hall. intros [k c'] Hx.
        apply list_elem_of_lookup in Hx as [i Hi].
        apply lookup_take_Some in Hi as [Hi Hlt].
        apply enumerate_lookup in Hi as (a & Ha & Heq). injection Heq as -> ->.
        destruct (lookup_lt_is_Some_2 params i Hlt) as [name Hname].
        destruct (Hpre i name a Hname Ha) as (col & m & Hcol & Hm).
        exists m. unfold exclude_eval. simpl. by rewrite Hname; simpl; rewrite Hcol. }
      by rewrite (mapM_Raise_at _ _ _ _ ys IndexError Hys Hbad).
Qed.

(** * Conditions are elementwise *)

Lemma Forall2_elem_l {A B} (P : A → B → Prop) l k x :
  Forall2 P l k → x ∈ l → ∃ y, P x y.
Proof.
  intros H Hx. apply list_elem_of_lookup in Hx as [i Hi].
  destruct (Forall2_lookup_l _ _ _ _ _ H Hi) as (y & _ & Hy). eauto.
Qed.

Lemma Condition_evaluate_sub c col m col' :
  Condition_evaluate c col = Ok m → col' ⊆ col →
  Condition_evaluate c col' = Ok (Condition_holds c <$> col').
Proof.
  destruct c as [c|c]; simpl; [|done].
  unfold ThresholdCondition.evaluate.
  destruct (forallb is_numeric col) eqn:Hnum; [|done]. simpl.
  intros (op & Hop & H)%bind_Ok Hsub. apply mapM_Ok in H.
  assert (forallb is_numeric col' = true) as ->.
  { apply forallb_forall. intros x Hx%list_elem_of_In.
    eapply forallb_forall in Hnum; [done|]. apply list_elem_of_In. by apply Hsub. }
  simpl. rewrite Hop. simpl. apply mapM_Ok_fmap. intros x Hx.
  assert (is_numeric x = true) as Hxn.
  { eapply forallb_forall in Hnum; [done|]. apply list_elem_of_In. by apply Hsub. }
  destruct (Forall2_elem_l _ _ _ x H (Hsub _ Hx)) as [b Hb].
  rewrite Hb. f_equal. unfold Condition_holds. simpl.
  unfold ThresholdCondition.evaluate. simpl. rewrite Hxn. simpl.
  rewrite Hop. simpl. by rewrite Hb.
Qed.

Lemma Condition_evaluate_elementwise c col m :
  Condition_evaluate c col = Ok m → m = Condition_holds c <$> col.
Proof.
  intros H. pose proof (Condition_evaluate_sub c col m col H) as H'.
  rewrite H in H'. by injection H' as ->.
Qed.

(** * Dependencies, row by row *)

Lemma zip_with_fmap_same {A B C D} (f : A → B → C) (g : D → A) (h : D → B) (l : list D) :
  zip_with f (g <$> l) (h <$> l) = (λ x, f (g x) (h x)) <$> l.
Proof. by rewrite zip_with_fmap_l, zip_with_fmap_r, zip_with_diag. Qed.

Module DepsFacts.
Import DependenciesConstraint Deps.

Lemma censor_step self data0 F k x fr' :
  censor self (lift data0 F) (k, x) = Ok fr' ↔
  censor_ok self data0 k ∧ fr' = lift data0 (λ r0, censor_row self r0 (F r0) (k, x)).
Proof.
  unfold censor, censor_ok, censor_row. simpl.
  destruct (conditions self !! k) as [c|]; simpl;
    [|split; [done|by intros [(?&?&?&?&?&?) _]]].
  destruct (parameters self !! k) as [p|]; simpl;
    [|split; [done|by intros [(?&?&?&?&?&?&?) _]]].
  unfold getitem at 1. simpl. fold (column data0 p).
  destruct (decide (p ∈ columns data0)) as [Hp|Hp]; simpl;
    [|split; [done|intros [(?&?&?&?&?&?&?&?&?&?) _]; by simplify_eq]].
  destruct (Condition_evaluate c (column data0 p)) as [m|e] eqn:Hm; simpl;
    [|split; [done|intros [(?&?&?&?&?&?&?&?&?&?) _]; simplify_eq; congruence]].
  destruct (affected_parameters self !! k) as [g|]; simpl;
    [|split; [done|by intros [(?&?&?&?&?&?&?&?) _]]].
  unfold loc_setitem. simpl.
  destruct (decide (g ⊆ columns data0)) as [Hg|Hg]; simpl;
    [|split; [done|intros [(?&?&?&?&?&?&?&?&?&?) _]; by simplify_eq]].
  pose proof (Condition_evaluate_elementwise _ _ _ Hm) as ->.
  assert (zip_with (λ (m : bool) (r : rowid * gmap string cell),
              if m then (r.1, set_cells g (Dummy k) r.2) else r)
            (negb <$> (Condition_holds c <$> column data0 p))
            ((λ r, (r.1, F r.2)) <$> rows data0)
          = (λ r, (r.1, if Condition_holds c (r.2 !!! p) then F r.2
                        else set_cells g (Dummy k) (F r.2))) <$> rows data0) as ->.
  { unfold column. rewrite <- !list_fmap_compose.
    rewrite zip_with_fmap_l, zip_with_fmap_r, zip_with_diag.
    apply list_fmap_ext. intros _ r _. simpl. by destruct (Condition_holds _ _). }
  unfold lift. split.
  - intros [= <-]. split; [|done]. by exists c, p, g, (Condition_holds c <$> column data0 p).
  - by intros [_ ->].
Qed.

Lemma censor_loop self data0 l F fr' :
  for_each (censor self) (lift data0 F) l = Ok fr' ↔
  Forall (λ kx, censor_ok self data0 kx.1) l ∧
  fr' = lift data0 (λ r0, foldl (censor_row self r0) (F r0) l).
Proof.
  revert F. induction l as [|[k x] l IH]; intros F; simpl.
  - split; [intros [= <-]; by split | by intros [_ ->]].
  - rewrite bind_Ok. split.
    + intros (s & Hs & Hl). apply censor_step in Hs as [Hk ->].
      apply IH in Hl as [Hl ->]. split; [by constructor | done].
    + intros [Hkl ->]. apply Forall_cons in Hkl as [Hk Hl].
      eexists. split; [by apply censor_step|]. by apply IH.
Qed.

Lemma rekey_step p data0 F a fr' :
  rekey p (lift data0 F) a = Ok fr' ↔
  (a ∈ columns data0 ∧ p ∈ columns data0) ∧
  fr' = lift data0 (λ r0, rekey_cell p (F r0) a).
Proof.
  unfold rekey, getitem, setitem. simpl.
  destruct (decide (a ∈ columns data0)) as [Ha|Ha]; simpl; [|split; [done|tauto]].
  destruct (decide (p ∈ columns data0)) as [Hp|Hp]; simpl; [|split; [done|tauto]].
  assert (zip_with (λ (r : rowid * gmap string cell) x, (r.1, <[a:=x]> r.2))
            ((λ r, (r.1, F r.2)) <$> rows data0)
            (zip_with Tuple2
               ((λ r : rowid * gmap string cell, r.2 !!! a) <$>
                  ((λ r, (r.1, F r.2)) <$> rows data0))
               ((λ r : rowid * gmap string cell, r.2 !!! p) <$>
                  ((λ r, (r.1, F r.2)) <$> rows data0)))
          = (λ r, (r.1, rekey_cell p (F r.2) a)) <$> rows data0) as ->.
  { rewrite <- !list_fmap_compose.
    rewrite (zip_with_fmap_same Tuple2). by rewrite zip_with_fmap_same. }
  unfold lift. split; [intros [= <-]; by split | by intros [_ ->]].
Qed.

Lemma rekey_inner_loop p data0 g F fr' :
  for_each (rekey p) (lift data0 F) g = Ok fr' ↔
  Forall (λ a, a ∈ columns data0 ∧ p ∈ columns data0) g ∧
  fr' = lift data0 (λ r0, foldl (rekey_cell p) (F r0) g).
Proof.
  revert F. induction g as [|a g IH]; intros F; simpl.
  - split; [intros [= <-]; by split | by intros [_ ->]].
  - rewrite bind_Ok. split.
    + intros (s & Hs & Hl). apply rekey_step in Hs as [Hk ->].
      apply IH in Hl as [Hl ->]. split; [by constructor | done].
    + intros [Hkl ->]. apply Forall_cons in Hkl as [Hk Hl].
      eexists. split; [by apply rekey_step|]. by apply IH.
Qed.

Lemma rekey_group_step self data0 F kp fr' :
  rekey_group self (lift data0 F) kp = Ok fr' ↔
  rekey_ok self data0 kp ∧ fr' = lift data0 (λ r0, rekey_row self (F r0) kp).
Proof.
  unfold rekey_group, rekey_ok, rekey_row.
  destruct (affected_parameters self !! kp.1) as [g|]; simpl.
  - rewrite rekey_inner_loop. split.
    + intros [Hg ->]. split; [by exists g | done].
    + intros [(g' & [= <-] & Hg) ->]. done.
  - split; [done | by intros [(g' & ? & _) _]].
Qed.

Lemma rekey_loop self data0 l F fr' :
  for_each (rekey_group self) (lift data0 F) l = Ok fr' ↔
  Forall (rekey_ok self data0) l ∧
  fr' = lift data0 (λ r0, foldl (rekey_row self) (F r0) l).
Proof.
  revert F. induction l as [|kp l IH]; intros F; simpl.
  - split; [intros [= <-]; by split | by intros [_ ->]].
  - rewrite bind_Ok. split.
    + intros (s & Hs & Hl). apply rekey_group_step in Hs as [Hk ->].
      apply IH in Hl as [Hl ->]. split; [by constructor | done].
    + intros [Hkl ->]. apply Forall_cons in Hkl as [Hk Hl].
      eexists. split; [by apply rekey_group_step|]. by apply IH.
Qed.

Lemma run_unfold pi self data0 :
  run pi self data0 =
  (fr1 ← for_each (censor self) (mkFrames data0 (copy data0)) (enumerate (parameters self));
   fr2 ← for_each (rekey_group self) fr1 (enumerate (parameters self));
   finish pi self fr2).
Proof. done. Qed.

Lemma finish_lift pi self data0 F res :
  finish pi self (lift data0 F) = Ok res ↔
  (concat (affected_parameters self) ⊆ columns data0 ∧
   parameters self
     ⊆ filter (λ c, c ∉ concat (affected_parameters self)) (columns data0)) ∧
  res = (lift data0 F,
         index_mask (index data0)
           (duplicated (signature_eqb pi) (signatures self (columns data0) F data0))).
Proof.
  unfold finish, columns_drop. cbn [data censored_data lift columns].
  destruct (decide (concat (affected_parameters self) ⊆ columns data0)) as [Ha|Ha];
    [|split; [done | tauto]].
  cbn [mbind result_bind].
  destruct (decide (parameters self ⊆ _)) as [Hp|Hp]; [|split; [done | tauto]].
  cbn [mbind result_bind]. unfold getitems. cbn [columns rows].
  assert (filter (λ c, c ∉ parameters self)
            (filter (λ c, c ∉ concat (affected_parameters self)) (columns data0))
          ⊆ columns data0) as Ho.
  { intros c Hc. apply list_elem_of_filter in Hc as [_ Hc].
    by apply list_elem_of_filter in Hc as [_ Hc]. }
  rewrite (decide_True _ _ Ho), (decide_True _ _ Ha). cbn [mbind result_bind].
  unfold row_values, signatures, other_params. cbn [columns rows].
  rewrite <- !list_fmap_compose, zip_with_fmap_same.
  split; [intros [= <-]; by split | by intros [_ ->]].
Qed.

Lemma copy_lift data0 : mkFrames data0 (copy data0) = lift data0 (fmap Val).
Proof. done. Qed.

Theorem run_rowwise pi self data0 res :
  run pi self data0 = Ok res ↔
  run_ok self data0 ∧
  res = (lift data0 (final_row self),
         index_mask (index data0)
           (duplicated (signature_eqb pi)
              (signatures self (columns data0) (final_row self) data0))).
Proof.
  rewrite run_unfold, copy_lift. unfold run_ok. rewrite bind_Ok. split.
  - intros (fr1 & H1 & H). apply censor_loop in H1 as [Hc ->].
    apply bind_Ok in H as (fr2 & H2 & H). apply rekey_loop in H2 as [Hr ->].
    apply finish_lift in H as [[Ha Hp] ->]. done.
  - intros [(Hc & Hr & Ha & Hp) ->].
    eexists. split; [by apply censor_loop|].
    apply bind_Ok. eexists. split; [by apply rekey_loop|].
    by apply finish_lift.
Qed.
End DepsFacts.

(** * Duplicates *)

Section duplicates.
Context {X S : Type} (eqb : S → S → bool) (sig : X → S) (ident : X → rowid).

Lemma later_duplicates_from_cons seen x R :
  later_duplicates_from eqb sig ident seen (x :: R) =
  if existsb (eqb (sig x)) seen
  then ident x :: later_duplicates_from eqb sig ident (seen ++ [sig x]) R
  else later_duplicates_from eqb sig ident (seen ++ [sig x]) R.
Proof. unfold later_duplicates_from. simpl. by rewrite loc_mask_cons. Qed.

Lemma existsb_mono (f : S → bool) (l k : list S) :
  l ⊆ k → existsb f l = true → existsb f k = true.
Proof.
  intros Hsub (x & Hx & Hf)%existsb_exists. apply existsb_exists.
  exists x. split; [|done]. apply list_elem_of_In, Hsub. by apply list_elem_of_In.
Qed.

Lemma elem_of_later_duplicates_from seen R i :
  i ∈ later_duplicates_from eqb sig ident seen R ↔
  ∃ R1 x R2, R = R1 ++ x :: R2 ∧ ident x = i ∧
             ∃ s, s ∈ seen ++ (sig <$> R1) ∧ eqb (sig x) s = true.
Proof.
  revert seen. induction R as [|x R IH]; intros seen.
  - unfold later_duplicates_from. simpl. split.
    + by intros ?%elem_of_nil.
    + intros (R1 & y & R2 & HR & _). by destruct R1.
  - rewrite later_duplicates_from_cons.
    assert (i ∈ later_duplicates_from eqb sig ident (seen ++ [sig x]) R ↔
            ∃ R1 y R2, x :: R = (x :: R1) ++ y :: R2 ∧ ident y = i ∧
              ∃ s, s ∈ seen ++ (sig <$> (x :: R1)) ∧ eqb (sig y) s = true) as Htl.
    { rewrite IH. simpl. setoid_rewrite <- (assoc_L (++) seen [sig x]). simpl.
      split; intros (R1 & y & R2 & HR & Hy); exists R1, y, R2.
      - by subst.
      - split; [congruence | tauto]. }
    assert (existsb (eqb (sig x)) seen = true ↔
            ∃ s, s ∈ seen ++ (sig <$> []) ∧ eqb (sig x) s = true) as Hhd.
    { rewrite existsb_exists. simpl. rewrite app_nil_r.
      by setoid_rewrite list_elem_of_In. }
    split.
    + destruct (existsb _ seen) eqn:He.
      * intros [->|Hi]%elem_of_cons.
        -- exists [], x, R. split; [done|]. split; [done|]. by apply Hhd.
        -- apply Htl in Hi as (R1 & y & R2 & HR & Hy). by exists (x :: R1), y, R2.
      * intros Hi. apply Htl in Hi as (R1 & y & R2 & HR & Hy). by exists (x :: R1), y, R2.
    + intros (R1 & y & R2 & HR & Hy & Hs). destruct R1 as [|x' R1].
      * simpl in HR. injection HR as Hxy HR. subst y R2.
        apply Hhd in Hs. rewrite Hs. subst. left.
      * simpl in HR. injection HR as Hxy HR. subst x'.
        assert (i ∈ later_duplicates_from eqb sig ident (seen ++ [sig x]) R) as Hi.
        { apply Htl. exists R1, y, R2. by subst. }
        destruct (existsb _ seen); [by right | done].
Qed.

Lemma elem_of_later_duplicates R i :
  i ∈ later_duplicates eqb sig ident R ↔
  ∃ R1 x R2, R = R1 ++ x :: R2 ∧ ident x = i ∧
             ∃ y, y ∈ R1 ∧ eqb (sig x) (sig y) = true.
Proof.
  change (later_duplicates eqb sig ident R) with (later_duplicates_from eqb sig ident [] R).
  rewrite elem_of_later_duplicates_from. simpl.
  split; intros (R1 & x & R2 & HR & Hx & H); exists R1, x, R2;
    (split; [done|]); (split; [done|]).
  - destruct H as (s & Hs & He). apply list_elem_of_fmap in Hs as (y & -> & Hy). eauto.
  - destruct H as (y & Hy & He). exists (sig y). split; [|done].
    apply list_elem_of_fmap. eauto.
Qed.

(** Once the flagged rows are gone, nothing repeats. *)
Lemma later_duplicates_from_filter (keep : X → Prop) `{!∀ x, Decision (keep x)}
    seen seen' R :
  seen' ⊆ seen →
  (∀ x, x ∈ R → ident x ∈ later_duplicates_from eqb sig ident seen R → ¬ keep x) →
  later_duplicates_from eqb sig ident seen' (filter keep R) = [].
Proof.
  revert seen seen'. induction R as [|x R IH]; intros seen seen' Hsub Hflag; [done|].
  assert (later_duplicates_from eqb sig ident (seen ++ [sig x]) R ⊆ later_duplicates_from eqb sig ident seen (x :: R))
    as Htl.
  { rewrite later_duplicates_from_cons. destruct (existsb _ _); [|done].
    intros i Hi. by right. }
  assert (∀ y, y ∈ R → ident y ∈ later_duplicates_from eqb sig ident (seen ++ [sig x]) R → ¬ keep y)
    as Hflag'.
  { intros y Hy Hi. apply Hflag; [by right | by apply Htl]. }
  rewrite filter_cons. destruct (decide (keep x)) as [Hk|Hk].
  - rewrite later_duplicates_from_cons.
    destruct (existsb (eqb (sig x)) seen') eqn:He.
    + exfalso. apply (Hflag x); [left | | done].
      rewrite later_duplicates_from_cons.
      rewrite (existsb_mono _ _ _ Hsub He). left.
    + apply (IH (seen ++ [sig x])); [|done].
      intros s [Hs| ->%list_elem_of_singleton]%elem_of_app; apply elem_of_app;
        [left; by apply Hsub | right; left].
  - apply (IH (seen ++ [sig x])); [|done].
    intros s Hs. apply elem_of_app. left. by apply Hsub.
Qed.

Lemma later_duplicates_filter (keep : X → Prop) `{!∀ x, Decision (keep x)} R :
  (∀ x, x ∈ R → ident x ∈ later_duplicates eqb sig ident R → ¬ keep x) →
  later_duplicates eqb sig ident (filter keep R) = [].
Proof. intros Hflag. by apply (later_duplicates_from_filter keep [] []). Qed.

Lemma later_duplicates_subseteq R : later_duplicates eqb sig ident R ⊆ ident <$> R.
Proof. apply loc_mask_subseteq. Qed.
End duplicates.

(** * Permutation invariance, row by row *)

Lemma elem_of_Index_union a b i : i ∈ Index_union a b ↔ i ∈ a ∨ i ∈ b.
Proof.
  unfold Index_union. destruct (decide (b = [] ∨ a = b)) as [[->| ->]|_].
  - rewrite elem_of_nil. tauto.
  - tauto.
  - destruct (decide (a = [])) as [->|_].
    + rewrite elem_of_nil. tauto.
    + rewrite merge_sort_Permutation, elem_of_remove_dups, elem_of_app. tauto.
Qed.

Lemma zip_fmap_same {A B D} (g : D → A) (h : D → B) (l : list D) :
  zip (g <$> l) (h <$> l) = (λ x, (g x, h x)) <$> l.
Proof. apply zip_with_fmap_same. Qed.

Lemma loc_mask_fmap_prop {X Y} (g : Y → X) (f : Y → bool) (P : Y → Prop)
    `{!∀ y, Decision (P y)} (l : list Y) :
  (∀ y, f y = true ↔ P y) → loc_mask (g <$> l) (f <$> l) = g <$> filter P l.
Proof. intros Hiff. rewrite loc_mask_fmap. f_equal. by apply list_filter_iff. Qed.

Module PermFacts.
Import PermutationInvarianceConstraint Perm.

Lemma inds_invalid_Ok self data ids :
  inds_invalid self data = Ok ids ↔
  NoDup (parameters self) ∧ parameters self ⊆ columns data ∧
  ids = Index_union (labelled (parameters self) data) (stage2 (parameters self) data).
Proof.
  unfold inds_invalid, NoLabelDuplicatesConstraint.init.
  destruct (validate_params_cases (parameters self)) as [[Hnd ->]|[Hnd ->]];
    cbn [mbind result_bind]; [|split; [done | tauto]].
  destruct (decide (parameters self ⊆ columns data)) as [Hsub|Hsub].
  2:{ unfold NoLabelDuplicatesConstraint.get_invalid, getitems.
      cbn [NoLabelDuplicatesConstraint.parameters].
      rewrite decide_False by done. split; [done | tauto]. }
  rewrite NoLabelDuplicates_get_invalid_rows by done. cbn [mbind result_bind].
  unfold columns_drop. rewrite decide_True by done. cbn [mbind result_bind].
  unfold getitems. cbn [columns rows].
  assert (filter (λ c, c ∉ parameters self) (columns data) ⊆ columns data) as Ho
    by (intros c Hc; by apply list_elem_of_filter in Hc as [_ Hc]).
  rewrite (decide_True _ _ Ho), (decide_True _ _ Hsub). cbn [mbind result_bind].
  fold (stage1 (parameters self) data).
  unfold row_values, index, index_mask. cbn [columns rows].
  fold (others (parameters self) data).
  rewrite <- !list_fmap_compose.
  rewrite (zip_fmap_same (λ r : rowid * gmap string value,
             cells (others (parameters self) data) r.2)).
  rewrite (zip_fmap_same fst).
  change (λ x : rowid * gmap string value,
            (x.1, (cells (others (parameters self) data) x.2, cells (parameters self) x.2)))
    with (λ r, (r.1, sig (parameters self) data r)).
  change (filter (λ r : rowid * gmap string value,
                    nunique (cells (parameters self) r.2) ≠ length (parameters self))
            (rows data)).*1 with (stage1 (parameters self) data).
  rewrite (loc_mask_fmap_prop _ _ (λ r : rowid * gmap string value,
               r.1 ∈ stage1 (parameters self) data) (rows data))
    by (intros r; unfold compose; by rewrite bool_decide_eq_true).
  rewrite (loc_mask_fmap_prop _ _ (λ r : rowid * gmap string value,
               r.1 ∉ stage1 (parameters self) data) (rows data))
    by (intros r; unfold compose; by rewrite negb_true_iff, bool_decide_eq_false).
  fold (passed (parameters self) data).
  rewrite <- !list_fmap_compose.
  change (loc_mask (fst ∘ (λ r, (r.1, sig (parameters self) data r)) <$>
                      passed (parameters self) data)
            (duplicated signature_eqb
               (snd ∘ (λ r, (r.1, sig (parameters self) data r)) <$>
                  passed (parameters self) data)))
    with (stage2 (parameters self) data).
  fold (labelled (parameters self) data).
  split.
  - intros [= <-]. done.
  - intros (_ & _ & ->). done.
Qed.

Lemma filter_all {A} (P : A → Prop) `{!∀ x, Decision (P x)} (l : list A) :
  length (filter P l) = length l → filter P l = l.
Proof.
  induction l as [|x l IH]; [done|]. rewrite filter_cons.
  case_decide; simpl.
  - intros [= Hl]. by rewrite IH.
  - intros Hl. pose proof (length_filter P l). lia.
Qed.

Lemma nunique_full (r : list value) :
  nunique r = length r → NoDup r.
Proof.
  unfold nunique. intros Hn.
  pose proof (length_remove_dups_le (filter (λ v, v ≠ Missing) r)) as H1.
  pose proof (length_filter (λ v, v ≠ Missing) r) as H2.
  assert (filter (λ v, v ≠ Missing) r = r) as Hf by (apply filter_all; lia).
  rewrite Hf in Hn. by apply length_remove_dups_NoDup.
Qed.

Lemma passed_no_label_duplicate params data x :
  x ∈ passed params data → NoDup (cells params x.2).
Proof.
  intros [Hx Hin]%list_elem_of_filter.
  apply nunique_full. unfold cells at 2. rewrite length_fmap.
  destruct (decide (nunique (cells params x.2) = length params)) as [|Hne]; [done|].
  exfalso. apply Hx. unfold stage1. apply list_elem_of_fmap. exists x.
  split; [done|]. by apply list_elem_of_filter.
Qed.

Lemma frozenset_eqb_Permutation {A} `{EqDecision A} (a b : list A) :
  NoDup a → NoDup b → (frozenset_eqb a b = true ↔ a ≡ₚ b).
Proof.
  intros Ha Hb. unfold frozenset_eqb. rewrite bool_decide_eq_true. split.
  - intros [Hab Hba]. apply NoDup_Permutation; [done..|]. intros x. split; auto.
  - intros Hp. split; intros x Hx; [by rewrite <- Hp | by rewrite Hp].
Qed.

Lemma signature_eqb_multiset params data x y :
  x ∈ passed params data → y ∈ passed params data →
  signature_eqb (sig params data x) (sig params data y) = true ↔
  cells (others params data) y.2 = cells (others params data) x.2 ∧
  cells params y.2 ≡ₚ cells params x.2.
Proof.
  intros Hx%passed_no_label_duplicate Hy%passed_no_label_duplicate.
  unfold signature_eqb, sig. simpl.
  rewrite andb_true_iff, bool_decide_eq_true, frozenset_eqb_Permutation by done.
  split; intros [-> ->]; done.
Qed.

Lemma elem_of_stage2 params data i :
  i ∈ stage2 params data ↔ repeats_earlier params data i.
Proof.
  unfold stage2, repeats_earlier. rewrite elem_of_later_duplicates.
  split; intros (R1 & x & R2 & HR & Hi & y & Hy & H); exists R1, x, R2;
    (split; [done|]); (split; [done|]); exists y; (split; [done|]).
  - assert (x ∈ passed params data) as Hx
      by (rewrite HR; apply elem_of_app; right; left).
    assert (y ∈ passed params data) as Hy'
      by (rewrite HR; apply elem_of_app; by left).
    by apply signature_eqb_multiset in H.
  - assert (x ∈ passed params data) as Hx
      by (rewrite HR; apply elem_of_app; right; left).
    assert (y ∈ passed params data) as Hy'
      by (rewrite HR; apply elem_of_app; by left).
    by apply signature_eqb_multiset.
Qed.

Lemma elem_of_labelled params data i :
  i ∈ labelled params data ↔ i ∈ stage1 params data.
Proof.
  unfold labelled. rewrite list_elem_of_fmap. split.
  - intros (r & -> & [Hr _]%list_elem_of_filter). done.
  - intros Hi. pose proof Hi as Hi'. unfold stage1 in Hi'.
    apply list_elem_of_fmap in Hi' as (r & -> & [_ Hr]%list_elem_of_filter).
    exists r. split; [done|]. by apply list_elem_of_filter.
Qed.

Lemma drop_index_Ok (data : DataFrame value) labels :
  labels ⊆ index data → drop_index data labels = Ok (remaining data labels).
Proof. intros H. unfold drop_index. by rewrite decide_True. Qed.

Lemma remaining_ext data l1 l2 :
  (∀ i, i ∈ l1 ↔ i ∈ l2) → remaining data l1 = remaining data l2.
Proof.
  intros H. unfold remaining. f_equal. apply list_filter_iff. intros r. by rewrite H.
Qed.

Lemma stage1_index params data : stage1 params data ⊆ index data.
Proof.
  unfold stage1, index. intros i (r & -> & [_ Hr]%list_elem_of_filter)%list_elem_of_fmap.
  apply list_elem_of_fmap. eauto.
Qed.

Lemma stage2_index params data : stage2 params data ⊆ index data.
Proof.
  unfold stage2. intros i Hi%later_duplicates_subseteq.
  apply list_elem_of_fmap in Hi as (r & -> & [_ Hr]%list_elem_of_filter).
  apply list_elem_of_fmap. eauto.
Qed.
End PermFacts.

Lemma permutation_invariant_set (deps : DependenciesConstraint.t) (h : heap) :
  DependenciesConstraint.permutation_invariant
    (<[DependenciesConstraint.oid deps := true]> h) deps = true.
Proof. unfold DependenciesConstraint.permutation_invariant. by rewrite lookup_insert_eq. Qed.

Lemma PermutationInvariance_get_invalid_unfold self data h :
  NoDup (PermutationInvarianceConstraint.parameters self) →
  PermutationInvarianceConstraint.parameters self ⊆ columns data →
  let params := PermutationInvarianceConstraint.parameters self in
  let flagged := Index_union (Perm.labelled params data) (Perm.stage2 params data) in
  PermutationInvarianceConstraint.get_invalid self data h =
  match PermutationInvarianceConstraint.dependencies self with
  | None => (Ok flagged, h)
  | Some deps =>
      let h' := <[DependenciesConstraint.oid deps := true]> h in
      (adjusted ← snd <$> DependenciesConstraint.run true deps (Perm.remaining data flagged);
       Ok (Index_union flagged adjusted), h')
  end.
Proof.
  intros Hnd Hsub params flagged.
  unfold PermutationInvarianceConstraint.get_invalid.
  assert (PermutationInvarianceConstraint.inds_invalid self data = Ok flagged) as ->
    by by apply PermFacts.inds_invalid_Ok.
  destruct (PermutationInvarianceConstraint.dependencies self) as [deps|]; [|done].
  simpl. rewrite PermFacts.drop_index_Ok.
  - simpl. unfold DependenciesConstraint.get_invalid.
    by rewrite permutation_invariant_set.
  - intros i [Hi|Hi]%elem_of_Index_union.
    + apply PermFacts.stage1_index with params. by apply PermFacts.elem_of_labelled.
    + by apply PermFacts.stage2_index with params.
Qed.


(** * Idempotence *)

Lemma filter_none {A} (P : A → Prop) `{!∀ x, Decision (P x)} (l : list A) :
  (∀ x, x ∈ l → ¬ P x) → filter P l = [].
Proof.
  induction l as [|x l IH]; intros Hl; [done|].
  rewrite filter_cons, decide_False by (apply Hl; left).
  apply IH. intros y Hy. apply Hl. by right.
Qed.

Lemma filter_every {A} (P : A → Prop) `{!∀ x, Decision (P x)} (l : list A) :
  (∀ x, x ∈ l → P x) → filter P l = l.
Proof.
  induction l as [|x l IH]; intros Hl; [done|].
  rewrite filter_cons, decide_True by (apply Hl; left).
  f_equal. apply IH. intros y Hy. apply Hl. by right.
Qed.

Lemma index_mask_later_duplicates {X S} (eqb : S → S → bool) (sig : X → S)
    (R : list (rowid * X)) :
  index_mask R.*1 (duplicated eqb ((λ r, sig r.2) <$> R))
  = later_duplicates eqb (λ r, sig r.2) fst R.
Proof. done. Qed.

Module Idem.
Import Perm PermFacts.

Section second_run.
Context (params : list string) (data : DataFrame value) (ids : list rowid).
Hypothesis Hids1 : ∀ i, i ∈ stage1 params data → i ∈ ids.
Hypothesis Hids2 : ∀ i, i ∈ stage2 params data → i ∈ ids.

Lemma stage1_remaining : stage1 params (remaining data ids) = [].
Proof.
  unfold stage1, remaining. simpl. rewrite filter_none; [done|].
  intros r [Hr Hin]%list_elem_of_filter Hdup. apply Hr, Hids1.
  unfold stage1. apply list_elem_of_fmap. exists r. split; [done|].
  by apply list_elem_of_filter.
Qed.

Lemma labelled_remaining : labelled params (remaining data ids) = [].
Proof.
  unfold labelled. rewrite stage1_remaining. rewrite filter_none; [done|].
  intros r _ Hr. by apply elem_of_nil in Hr.
Qed.

Lemma passed_remaining :
  passed params (remaining data ids) = filter (λ r, r.1 ∉ ids) (passed params data).
Proof.
  unfold passed. rewrite stage1_remaining. simpl.
  rewrite filter_every by (intros r _; apply not_elem_of_nil).
  rewrite list_filter_filter. apply list_filter_iff. intros r.
  split; [|tauto]. intros Hr. split; [done|]. intros Hi. by apply Hr, Hids1.
Qed.

Lemma stage2_remaining : stage2 params (remaining data ids) = [].
Proof.
  unfold stage2. rewrite passed_remaining.
  change (sig params (remaining data ids)) with (sig params data).
  apply later_duplicates_filter. intros r _ Hr Hkeep. by apply Hkeep, Hids2.
Qed.
End second_run.

Lemma column_filter (data : DataFrame value) (keep : rowid * gmap string value → Prop)
    `{!∀ r, Decision (keep r)} p :
  Deps.column (mkDataFrame (columns data) (filter keep (rows data))) p
  ⊆ Deps.column data p.
Proof.
  unfold Deps.column. simpl. intros v (r & -> & [_ Hr]%list_elem_of_filter)%list_elem_of_fmap.
  apply list_elem_of_fmap. eauto.
Qed.

Lemma run_ok_filter self (data : DataFrame value) (keep : rowid * gmap string value → Prop)
    `{!∀ r, Decision (keep r)} :
  Deps.run_ok self data →
  Deps.run_ok self (mkDataFrame (columns data) (filter keep (rows data))).
Proof.
  intros (Hc & Hr & Ha & Hp). split; [|done].
  eapply Forall_impl; [exact Hc|]. intros [k x] (c & p & g & m & ? & ? & ? & ? & Hm & ?).
  exists c, p, g. eexists. repeat split; try done.
  eapply Condition_evaluate_sub; [exact Hm|]. apply column_filter.
Qed.

Lemma run_filter_flagged self (data : DataFrame value) fr D (ids : list rowid) :
  DependenciesConstraint.run true self data = Ok (fr, D) →
  (∀ i, i ∈ D → i ∈ ids) →
  ∃ fr', DependenciesConstraint.run true self (remaining data ids) = Ok (fr', []).
Proof.
  intros [Hok [= -> ->]]%DepsFacts.run_rowwise Hids.
  eexists. apply DepsFacts.run_rowwise. split.
  - by apply run_ok_filter.
  - f_equal. unfold Deps.signatures, index, remaining. simpl.
    rewrite (index_mask_later_duplicates (DependenciesConstraint.signature_eqb true)
               (λ r, (cells (Deps.other_params self (columns data)) (Deps.final_row self r),
                      cells (concat (DependenciesConstraint.affected_parameters self))
                        (Deps.final_row self r)))).
    symmetry. apply later_duplicates_filter. intros r _ Hr Hkeep. by apply Hkeep, Hids.
Qed.
End Idem.

(** C8: idempotence.  When a call returns [ids], dropping the rows labelled
    [ids] succeeds and the same constraint flags nothing on what remains. *)
Theorem permutation_invariance_idempotent
    (self : PermutationInvarianceConstraint.t) (data : DataFrame value)
    (h h' : heap) (ids : list rowid) :
  PermutationInvarianceConstraint.get_invalid self data h = (Ok ids, h') →
  drop_index data ids = Ok (Perm.remaining data ids) ∧
  PermutationInvarianceConstraint.get_invalid self (Perm.remaining data ids) h' = (Ok [], h').
Proof.
  intros Hrun.
  destruct (PermutationInvarianceConstraint.inds_invalid self data) as [flagged|e] eqn:Hinv.
  2:{ unfold PermutationInvarianceConstraint.get_invalid in Hrun. by rewrite Hinv in Hrun. }
  apply PermFacts.inds_invalid_Ok in Hinv as (Hnd & Hsub & ->).
  set (params := PermutationInvarianceConstraint.parameters self) in *.
  rewrite PermutationInvariance_get_invalid_unfold in Hrun by done. fold params in Hrun.
  rewrite PermutationInvariance_get_invalid_unfold by done. fold params.
  assert (∀ ids', (∀ i, i ∈ Perm.stage1 params data → i ∈ ids') →
                  (∀ i, i ∈ Perm.stage2 params data → i ∈ ids') →
                  Index_union (Perm.labelled params (Perm.remaining data ids'))
                    (Perm.stage2 params (Perm.remaining data ids')) = []) as Hnil.
  { intros ids' H1 H2.
    by rewrite Idem.labelled_remaining, Idem.stage2_remaining. }
  destruct (PermutationInvarianceConstraint.dependencies self) as [deps|].
  - cbn zeta in Hrun.
    destruct (DependenciesConstraint.run true deps _) as [[fr D]|e] eqn:Hdeps; [|done].
    simpl in Hrun. injection Hrun as <- <-.
    set (flagged := Index_union (Perm.labelled params data) (Perm.stage2 params data)) in *.
    assert (∀ i, i ∈ Perm.stage1 params data → i ∈ Index_union flagged D) as H1.
    { intros i Hi. apply elem_of_Index_union. left. apply elem_of_Index_union. left.
      by apply PermFacts.elem_of_labelled. }
    assert (∀ i, i ∈ Perm.stage2 params data → i ∈ Index_union flagged D) as H2.
    { intros i Hi. apply elem_of_Index_union. left. apply elem_of_Index_union. by right. }
    split.
    { apply PermFacts.drop_index_Ok. intros i [Hi|Hi]%elem_of_Index_union.
      - apply elem_of_Index_union in Hi as [Hi|Hi].
        + apply PermFacts.stage1_index with params. by apply PermFacts.elem_of_labelled.
        + by apply PermFacts.stage2_index with params.
      - apply DepsFacts.run_rowwise in Hdeps as [_ [= _ ->]].
        apply loc_mask_subseteq in Hi. unfold index, Perm.remaining in Hi. simpl in Hi.
        apply list_elem_of_fmap in Hi as (r & -> & [_ Hr]%list_elem_of_filter).
        apply list_elem_of_fmap. eauto. }
    cbn zeta. rewrite insert_insert_eq. rewrite (Hnil _ H1 H2).
    destruct (Idem.run_filter_flagged deps (Perm.remaining data flagged) fr D
                (Index_union flagged D) Hdeps) as [fr' Hrun'].
    { intros i Hi. apply elem_of_Index_union. by right. }
    assert (Perm.remaining (Perm.remaining data (Index_union flagged D)) []
            = Perm.remaining (Perm.remaining data flagged) (Index_union flagged D)) as ->.
    { unfold Perm.remaining. simpl. f_equal.
      rewrite filter_every by (intros r _; apply not_elem_of_nil).
      rewrite list_filter_filter. apply list_filter_iff. intros r.
      split; [|tauto]. intros Hr. split; [done|]. intros Hi. apply Hr.
      apply elem_of_Index_union. by left. }
    by rewrite Hrun'.
  - injection Hrun as <- <-. split.
    { apply PermFacts.drop_index_Ok. intros i [Hi|Hi]%elem_of_Index_union.
      - apply PermFacts.stage1_index with params. by apply PermFacts.elem_of_labelled.
      - by apply PermFacts.stage2_index with params. }
    rewrite Hnil; [done| |].
    + intros i Hi. apply elem_of_Index_union. left. by apply PermFacts.elem_of_labelled.
    + intros i Hi. apply elem_of_Index_union. by right.
Qed.

(** * Frame and range of [get_invalid] *)







(** * The heap of assigned flags *)

Lemma PermutationInvariance_heap self data h :
  (PermutationInvarianceConstraint.get_invalid self data h).2 =
  match PermutationInvarianceConstraint.inds_invalid self data,
        PermutationInvarianceConstraint.dependencies self with
  | Ok _, Some deps => <[DependenciesConstraint.oid deps := true]> h
  | _, _ => h
  end.
Proof.
  unfold PermutationInvarianceConstraint.get_invalid.
  destruct (PermutationInvarianceConstraint.inds_invalid self data); [|done].
  by destruct (PermutationInvarianceConstraint.dependencies self).
Qed.

Lemma PermutationInvariance_result_heap_independent self data h1 h2 :
  (PermutationInvarianceConstraint.get_invalid self data h1).1 =
  (PermutationInvarianceConstraint.get_invalid self data h2).1.
Proof.
  unfold PermutationInvarianceConstraint.get_invalid.
  destruct (PermutationInvarianceConstraint.inds_invalid self data); [|done].
  destruct (PermutationInvarianceConstraint.dependencies self) as [deps|]; [|done].
  simpl. unfold DependenciesConstraint.get_invalid.
  by rewrite !permutation_invariant_set.
Qed.

(** * The signature of the dependencies constraint, cell by cell *)

Module DepsCells.
Import DependenciesConstraint Deps DepsFacts.







Section cells.
Context (self : t) (r0 : gmap string value).
Hypothesis Hnd : NoDup (concat (affected_parameters self)).
Hypothesis Hdisj : ∀ p, p ∈ parameters self → p ∉ concat (affected_parameters self).








End cells.


Section signature.
Context (self : t) (data0 : DataFrame value).
Hypothesis Hlen1 : length (parameters self) = length (conditions self).
Hypothesis Hlen2 : length (conditions self) = length (affected_parameters self).
Hypothesis Hnd : NoDup (concat (affected_parameters self)).
Hypothesis Hdisj : ∀ p, p ∈ parameters self → p ∉ concat (affected_parameters self).
Hypothesis Hps : parameters self ⊆ columns data0.
Hypothesis Hgs : concat (affected_parameters self) ⊆ columns data0.
Hypothesis Heval : ∀ k p c,
  parameters self !! k = Some p → conditions self !! k = Some c →
  ∃ m, Condition_evaluate c (column data0 p) = Ok m.



End signature.
End DepsCells.

(** * Serialization round trip *)

Lemma as_strs_of_strs l : as_strs (of_strs l) = Ok l.
Proof.
  unfold as_strs, of_strs. simpl. apply mapM_Ok.
  induction l; constructor; done.
Qed.

Lemma as_strss_of_strs ll : as_strss (CList (of_strs <$> ll)) = Ok ll.
Proof.
  unfold as_strss. simpl. apply mapM_Ok.
  induction ll; constructor; [apply as_strs_of_strs | done].
Qed.

Lemma as_opt_num_of_opt_num o : as_opt_num (of_opt_num o) = Ok o.
Proof. by destruct o. Qed.

Lemma structure_unstructure_threshold c :
  valid_threshold c → as_threshold (unstructure_threshold c) = Ok c.
Proof.
  intros Hc. unfold as_threshold, unstructure_threshold, structure_threshold. simpl.
  by rewrite as_opt_num_of_opt_num.
Qed.

Lemma structure_unstructure_condition c :
  valid_condition c → structure_condition (unstructure_condition c) = Ok c.
Proof.
  destruct c as [c|[sel]]; intros Hc.
  - unfold structure_condition. simpl.
    pose proof (structure_unstructure_threshold c Hc) as H.
    unfold as_threshold in H. simpl in H. by rewrite H.
  - unfold structure_condition. simpl. by rewrite as_strs_of_strs.
Qed.

Lemma as_conditions_unstructure conds :
  Forall valid_condition conds →
  as_conditions (CList (unstructure_condition <$> conds)) = Ok conds.
Proof.
  intros H. unfold as_conditions. simpl. apply mapM_Ok.
  induction H; constructor; [by apply structure_unstructure_condition | done].
Qed.

Lemma Dependencies_init_oid o o' params conds affected c :
  DependenciesConstraint.init o params conds affected = Ok c →
  DependenciesConstraint.init o' params conds affected
  = Ok (DependenciesConstraint.mk o' params conds affected) ∧
  c = DependenciesConstraint.mk o params conds affected.
Proof.
  unfold DependenciesConstraint.init.
  destruct (validate_params params); [|done]. simpl.
  destruct (DependenciesConstraint.affected_parameters_validator conds affected); [|done].
  simpl. by intros [= <-].
Qed.

Lemma structure_unstructure_dependencies o c :
  valid_dependencies c →
  ∃ c', (d ← as_dict (unstructure_dependencies c); structure_dependencies o d) = Ok c' ∧
        forget_oid c' = forget_oid c.
Proof.
  intros [Hinit Hconds]. unfold unstructure_dependencies, structure_dependencies. simpl.
  rewrite as_strs_of_strs, as_conditions_unstructure, as_strss_of_strs by done. simpl.
  destruct (Dependencies_init_oid _ o _ _ _ _ Hinit) as [-> Hc].
  eexists. split; [done|]. by rewrite Hc.
Qed.

(** C4: structuring the unstructured form of an instance built by its
    [__init__] gives an instance with the same fields, for the two conditions
    and the eight constraints; a mapping whose [type] is not registered is
    refused with the error that names the given tag and the registered
    ones. *)
Theorem serialization_round_trip :
  (∀ c : Condition,
     valid_condition c → structure_condition (unstructure_condition c) = Ok c) ∧
  (∀ (c : Constraint) (o : nat),
     valid_constraint c →
     ∃ c', structure_base o (unstructure_base c) = Ok c' ∧ fields c' = fields c) ∧
  (∀ d ty,
     dict_get d "type" = Ok (CStr ty) → ty ∉ Condition_SUBCLASSES →
     structure_condition (CDict d) = Raise (NotAllowed ty Condition_SUBCLASSES)) ∧
  (∀ o d ty,
     dict_get d "type" = Ok (CStr ty) → ty ∉ Constraint_SUBCLASSES →
     structure_base o (CDict d) = Raise (NotAllowed ty Constraint_SUBCLASSES)).
Proof.
  split; [apply structure_unstructure_condition|]. split; [|split].
  - intros [c|c|c|c|c|c|c|c] o Hc; simpl in Hc.
    + exists (Custom c). split; [|done]. unfold structure_base. simpl.
      rewrite as_strs_of_strs. simpl. by rewrite Hc.
    + destruct Hc as [Hc Hconds]. exists (Exclude c). split; [|done].
      unfold structure_base. simpl.
      rewrite as_strs_of_strs, as_conditions_unstructure by done. simpl. by rewrite Hc.
    + exists (NoLabelDuplicates c). split; [|done]. unfold structure_base. simpl.
      rewrite as_strs_of_strs. simpl. by rewrite Hc.
    + exists (LinkedParameters c). split; [|done]. unfold structure_base. simpl.
      rewrite as_strs_of_strs. simpl. by rewrite Hc.
    + destruct Hc as [Hc Hcond]. exists (Sum c). split; [|done].
      unfold structure_base. simpl.
      rewrite as_strs_of_strs, structure_unstructure_threshold by done. simpl. by rewrite Hc.
    + destruct Hc as [Hc Hcond]. exists (Product c). split; [|done].
      unfold structure_base. simpl.
      rewrite as_strs_of_strs, structure_unstructure_threshold by done. simpl. by rewrite Hc.
    + destruct Hc as [Hc Hdeps]. destruct c as [params [deps|]]; simpl in *.
      * destruct (structure_unstructure_dependencies o deps Hdeps) as (deps' & Hd & Heq).
        exists (PermutationInvariance (PermutationInvarianceConstraint.mk params (Some deps'))).
        split; [|simpl; unfold forget_oid in *; congruence].
        unfold structure_base. simpl. rewrite as_strs_of_strs. simpl.
        simpl in Hd. rewrite Hd. simpl.
        unfold PermutationInvarianceConstraint.init in *.
        by destruct (validate_params params) as [[]|].
      * exists (PermutationInvariance (PermutationInvarianceConstraint.mk params None)).
        split; [|done]. unfold structure_base. simpl. rewrite as_strs_of_strs. simpl.
        by rewrite Hc.
    + destruct (structure_unstructure_dependencies o c Hc) as (c' & Hd & Heq).
      exists (Dependencies c'). split; [|simpl; unfold forget_oid in *; congruence].
      unfold structure_base. simpl. simpl in Hd. by rewrite Hd.
  - intros d ty Hd Hty. unfold structure_condition. simpl.
    rewrite Hd. simpl. unfold check_if_in. by rewrite (decide_False _ _ Hty).
  - intros o d ty Hd Hty. unfold structure_base. simpl.
    rewrite Hd. simpl. unfold check_if_in. by rewrite (decide_False _ _ Hty).
Qed.

(** * The heap across calls *)

Lemma other_variants_keep_heap (c : Constraint) (data : DataFrame value) (h : heap) :
  (∀ p, c ≠ PermutationInvariance p) → (get_invalid c data h).2 = h.
Proof. destruct c; intros Hc; try done. by destruct (Hc c). Qed.

(** C3, as stated: no call of [get_invalid] assigns a field, the flag being
    wired before use.  It fails: on [sample_switch] the call of the
    permutation invariance constraint itself assigns the flag of the nested
    dependencies object (the heap was empty before), and the same
    dependencies object evaluated on its own gives [3] before that call and
    [1; 3] after it. *)
Lemma flag_assigned_inside_get_invalid :
  let c := PermutationInvariance sample_perm in
  let h' := (get_invalid c sample_switch ∅).2 in
  h' !! DependenciesConstraint.oid sample_deps = Some true ∧
  h' ≠ ∅ ∧
  (get_invalid (Dependencies sample_deps) sample_switch ∅).1 = Ok [3%Z] ∧
  (get_invalid (Dependencies sample_deps) sample_switch h').1 = Ok [1%Z; 3%Z].
Proof.
  cbv zeta. split; [by vm_compute|]. split; [|split; by vm_compute].
  intros Heq. apply (f_equal (λ m : heap, m !! 0%nat)) in Heq. by vm_compute in Heq.
Qed.

(** C3, amended: the only state that [get_invalid] touches is the
    [permutation_invariant] flag of a dependencies object nested in a
    permutation invariance constraint.  The flag is assigned inside every call
    of the outer constraint that gets past the label and permutation stages,
    not at construction; every other call leaves the heap as it is; once the
    flag is set a further call changes nothing; and the result of the outer
    constraint never depends on the heap it starts from. *)
Theorem flag_assignment_is_per_call :
  (∀ (c : Constraint) (data : DataFrame value) (h : heap),
     (∀ p, c ≠ PermutationInvariance p) → (get_invalid c data h).2 = h) ∧
  (∀ (p : PermutationInvarianceConstraint.t) (data : DataFrame value) (h : heap),
     (get_invalid (PermutationInvariance p) data h).2 =
     match PermutationInvarianceConstraint.inds_invalid p data,
           PermutationInvarianceConstraint.dependencies p with
     | Ok _, Some deps => <[DependenciesConstraint.oid deps := true]> h
     | _, _ => h
     end) ∧
  (∀ (p : PermutationInvarianceConstraint.t) (deps : DependenciesConstraint.t)
     (data : DataFrame value) (h : heap),
     PermutationInvarianceConstraint.dependencies p = Some deps →
     h !! DependenciesConstraint.oid deps = Some true →
     (get_invalid (PermutationInvariance p) data h).2 = h) ∧
  (∀ (p : PermutationInvarianceConstraint.t) (data : DataFrame value) (h1 h2 : heap),
     (get_invalid (PermutationInvariance p) data h1).1 =
     (get_invalid (PermutationInvariance p) data h2).1).
Proof.
  split; [apply other_variants_keep_heap|]. split; [|split].
  - intros p data h. apply PermutationInvariance_heap.
  - intros p deps data h Hdeps Hflag. simpl. rewrite PermutationInvariance_heap, Hdeps.
    destruct (PermutationInvarianceConstraint.inds_invalid p data); [|done].
    by apply insert_id.
  - intros p data h1 h2. apply PermutationInvariance_result_heap_independent.
Qed.

(** * Instances on the sample tables *)

Ltac by_compute := apply (bool_decide_unpack _); vm_compute; exact I.

Lemma flag_assignment_is_per_call_witness :
  PermutationInvarianceConstraint.dependencies sample_perm = Some sample_deps ∧
  ({[0%nat := true]} : heap) !! DependenciesConstraint.oid sample_deps = Some true ∧
  (get_invalid (PermutationInvariance sample_perm) sample_switch {[0%nat := true]}).2
  = {[0%nat := true]}.
Proof.
  split; [reflexivity|]. split; [reflexivity|].
  apply (proj1 (proj2 (proj2 flag_assignment_is_per_call)) sample_perm sample_deps);
    reflexivity.
Defined.



Lemma serialization_round_trip_witness :
  valid_constraint (Exclude sample_exclude) ∧
  ∃ c', structure_base 0 (unstructure_base (Exclude sample_exclude)) = Ok c' ∧
        fields c' = fields (Exclude sample_exclude).
Proof.
  assert (valid_constraint (Exclude sample_exclude)) as Hvalid.
  { split; [reflexivity|]. by repeat constructor. }
  split; [exact Hvalid|].
  exact (proj1 (proj2 serialization_round_trip) (Exclude sample_exclude) 0%nat Hvalid).
Defined.



Lemma permutation_invariance_idempotent_witness :
  PermutationInvarianceConstraint.get_invalid sample_perm sample_switch ∅
    = (Ok [1%Z; 3%Z], {[0%nat := true]}) ∧
  drop_index sample_switch [1%Z; 3%Z] = Ok (Perm.remaining sample_switch [1%Z; 3%Z]) ∧
  PermutationInvarianceConstraint.get_invalid sample_perm
    (Perm.remaining sample_switch [1%Z; 3%Z]) {[0%nat := true]}
  = (Ok [], {[0%nat := true]}).
Proof.
  assert (PermutationInvarianceConstraint.get_invalid sample_perm sample_switch ∅
          = (Ok [1%Z; 3%Z], {[0%nat := true]})) as Hrun by (vm_compute; reflexivity).
  split; [exact Hrun|].
  exact (permutation_invariance_idempotent sample_perm sample_switch _ _ _ Hrun).
Defined.

Lemma exclude_length_mismatch_witness :
  (length ["a"] < length (ExcludeConstraint.conditions sample_exclude))%nat ∧
  (∀ k name c,
     ["a"] !! k = Some name → ExcludeConstraint.conditions sample_exclude !! k = Some c →
     ∃ col m, getitem sample_labels name = Ok col ∧ Condition_evaluate c col = Ok m) ∧
  ExcludeConstraint.get_invalid
    (ExcludeConstraint.mk ["a"] (ExcludeConstraint.conditions sample_exclude) "XOR")
    sample_labels = Raise IndexError.
Proof.
  assert (length ["a"] < length (ExcludeConstraint.conditions sample_exclude))%nat as Hlen
    by (simpl; lia).
  assert (∀ k name c,
            ["a"] !! k = Some name →
            ExcludeConstraint.conditions sample_exclude !! k = Some c →
            ∃ col m, getitem sample_labels name = Ok col ∧ Condition_evaluate c col = Ok m)
    as Hpre.
  { intros [|k] name c Hn Hc; [|done].
    injection Hn as <-. injection Hc as <-. eexists _, _. split; reflexivity. }
  split; [exact Hlen|]. split; [exact Hpre|].
  exact (proj2 (proj2 (proj2 (exclude_length_mismatch ["a"]
           (ExcludeConstraint.conditions sample_exclude) "XOR")) Hlen sample_labels) Hpre).
Defined.

Lemma missing_values_not_counted_witness :
  ["a"; "b"] ⊆ columns sample_labels ∧
  NoLabelDuplicatesConstraint.get_invalid (NoLabelDuplicatesConstraint.mk ["a"; "b"])
    sample_labels
  = Ok (filter (λ r, nunique (cells ["a"; "b"] r.2) ≠ length ["a"; "b"])
          (rows sample_labels)).*1.
Proof.
  assert (["a"; "b"] ⊆ columns sample_labels) as Hsub by by_compute.
  split; [exact Hsub|].
  exact (proj1 (missing_values_not_counted ["a"; "b"] sample_labels Hsub)).
Defined.

(** * Construction and evaluation of threshold conditions *)

Lemma threshold_operator_valid op :
  is_Some (_threshold_operators !! op) ↔ op ∈ ["<"; "<="; "="; "=="; "!="; ">"; ">="].
Proof.
  unfold _threshold_operators. rewrite <- elem_of_dom.
  rewrite dom_list_to_map_L. simpl. set_solver.
Qed.

(** X1: the generated [__init__] of a threshold condition.  An operator that
    is no key of [_threshold_operators] is refused with [ValueError], whatever
    the tolerance.  With [=], [==] or [!=] every tolerance is accepted: an
    omitted one becomes 1e-8, an explicit [None] stays [None].  With one of
    the four comparisons an omitted or [None] tolerance gives the object with
    tolerance [None], and a number is refused with [StrictValidationError]. *)
Theorem threshold_init_cases (thr : Qc) (op : string) (tol : option (option Qc)) :
  ThresholdCondition.init thr op tol =
  if decide (op ∈ ["<"; "<="; "="; "=="; "!="; ">"; ">="]) then
    if decide (op ∈ ["="; "=="; "!="]) then
      Ok (ThresholdCondition.mk thr op (default (Some (Q2Qc (1 # 100000000)%Q)) tol))
    else
      match tol with
      | Some (Some _) => Raise StrictValidationError
      | _ => Ok (ThresholdCondition.mk thr op None)
      end
  else Raise ValueError.
Proof.
  unfold ThresholdCondition.init, ThresholdCondition.tolerance_validation,
    ThresholdCondition.tolerance_default, _valid_tolerance_operators.
  destruct (decide (op ∈ ["<"; "<="; "="; "=="; "!="; ">"; ">="])) as [Hop|Hop].
  - rewrite decide_True by by apply threshold_operator_valid.
    destruct (decide (op ∈ ["="; "=="; "!="])) as [Ht|Ht].
    + destruct tol as [tol|]; simpl.
      * by rewrite decide_False by tauto.
      * by rewrite decide_False by tauto.
    + destruct tol as [[t|]|]; simpl.
      * by rewrite decide_True by done.
      * by rewrite decide_False by tauto.
      * by rewrite decide_False by tauto.
  - rewrite decide_False; [done|]. by rewrite threshold_operator_valid.
Qed.

Lemma mapM_Ok_negb {A} (f : A → result bool) l :
  mapM (λ x, negb <$> f x) l = (λ m : list bool, negb <$> m) <$> mapM f l.
Proof.
  induction l as [|x l IH]; simpl; [done|].
  destruct (f x) as [b|e]; simpl; [|done].
  rewrite IH. by destruct (mapM f l).
Qed.

(** X2: [=] and [==] are the same test and [!=] is its negation, on every
    series: the same exception when one is raised, the negated mask
    otherwise. *)
Theorem threshold_equality_operators (thr : Qc) (tol : option Qc) (data : list value) :
  ThresholdCondition.evaluate (ThresholdCondition.mk thr "=" tol) data
  = ThresholdCondition.evaluate (ThresholdCondition.mk thr "==" tol) data ∧
  ThresholdCondition.evaluate (ThresholdCondition.mk thr "!=" tol) data
  = (λ m : list bool, negb <$> m)
      <$> ThresholdCondition.evaluate (ThresholdCondition.mk thr "==" tol) data.
Proof.
  destruct threshold_operators_lookup as (_ & _ & Heq1 & Heq & Hne & _ & _).
  unfold ThresholdCondition.evaluate.
  cbn [ThresholdCondition.operator].
  rewrite Heq1, Heq, Hne. split; [done|].
  destruct (negb (forallb is_numeric data)); [done|]. simpl.
  rewrite <- mapM_Ok_negb. apply mapM_ext_in. intros x _.
  unfold ThresholdCondition.func. simpl.
  by destruct tol.
Qed.

Lemma threshold_func_Ok (self : ThresholdCondition.t) op :
  evaluable self →
  _threshold_operators !! ThresholdCondition.operator self = Some op →
  ∃ g : value → bool, ∀ x, ThresholdCondition.func self op x = Ok (g x).
Proof.
  intros [Hop Htol] Hlook. unfold ThresholdCondition.func.
  destruct (decide (ThresholdCondition.operator self ∈ _valid_tolerance_operators)) as [Hin|Hin].
  - destruct (Htol Hin) as [atol Ha]. rewrite Ha.
    destruct op as [f|f].
    + exfalso. unfold _valid_tolerance_operators in Hin.
      destruct threshold_operators_lookup as (_ & _ & Heq1 & Heq & Hne & _ & _).
      repeat (apply elem_of_cons in Hin as [Hin|Hin]);
        [..|by apply elem_of_nil in Hin]; rewrite Hin in Hlook; congruence.
    + by eexists (λ x, f x _ _ atol).
  - destruct op as [f|f]; by eexists (λ x, _).
Qed.

Lemma threshold_evaluate_numeric (self : ThresholdCondition.t) (data : list value) :
  evaluable self → forallb is_numeric data = true →
  ThresholdCondition.evaluate self data = Ok (Condition_holds (Threshold self) <$> data).
Proof.
  intros Hev Hnum. pose proof Hev as [[op Hop] _].
  destruct (threshold_func_Ok self op Hev Hop) as [g Hg].
  unfold ThresholdCondition.evaluate. rewrite Hnum, Hop. simpl.
  apply mapM_Ok_fmap. intros x Hx. rewrite Hg.
  unfold Condition_holds. simpl. unfold ThresholdCondition.evaluate.
  assert (is_numeric x = true) as Hxn.
  { eapply forallb_forall in Hnum; [done|]. by apply list_elem_of_In. }
  simpl. rewrite Hxn, Hop. simpl. by rewrite Hg.
Qed.



Lemma threshold_missing_value (self : ThresholdCondition.t) :
  evaluable self →
  ThresholdCondition.evaluate self [Missing]
  = Ok [bool_decide (ThresholdCondition.operator self = "!=")].
Proof.
  intros Hev. rewrite threshold_evaluate_numeric by done. simpl. do 2 f_equal.
  destruct Hev as [Hop Htol]. unfold Condition_holds. simpl.
  unfold ThresholdCondition.evaluate, ThresholdCondition.func. simpl.
  destruct threshold_operators_lookup as (Hlt & Hle & Heq1 & Heq & Hne & Hgt & Hge).
  apply threshold_operator_valid in Hop. unfold _valid_tolerance_operators in *.
  repeat (apply elem_of_cons in Hop as [Hop|Hop]);
    [..|by apply elem_of_nil in Hop]; rewrite Hop in *;
    rewrite ?Hlt, ?Hle, ?Heq1, ?Heq, ?Hne, ?Hgt, ?Hge; simpl;
    try done;
    (destruct Htol as [atol ->]; [set_solver|]); done.
Qed.

(** A threshold condition that evaluates on some value is evaluable. *)
Lemma threshold_evaluates_evaluable (self : ThresholdCondition.t) (x : value) m :
  ThresholdCondition.evaluate self [x] = Ok m → evaluable self.
Proof.
  unfold ThresholdCondition.evaluate. destruct (negb _); [done|].
  intros (op & Hop & Hm)%bind_Ok.
  destruct (_threshold_operators !! ThresholdCondition.operator self) as [op'|] eqn:Hlook;
    [|done].
  injection Hop as ->. split; [by eexists|]. intros Hin.
  simpl in Hm. unfold ThresholdCondition.func in Hm.
  rewrite decide_True in Hm by done.
  destruct (ThresholdCondition.tolerance self); [by eexists|].
  by destruct op.
Qed.

(** X4: a missing value satisfies no condition but [!=].  Wherever a
    condition evaluates on a series, the result at a position that holds a
    missing value is false for a sub-selection and for the operators [<],
    [<=], [=], [==], [>], [>=], and true for [!=]. *)
Theorem missing_value_satisfies_only_inequality (c : Condition) (data : list value)
    (m : list bool) (j : nat) :
  Condition_evaluate c data = Ok m → data !! j = Some Missing →
  m !! j = Some match c with
                | Threshold t => bool_decide (ThresholdCondition.operator t = "!=")
                | SubSelection _ => false
                end.
Proof.
  intros Hm Hj.
  assert ([Missing] ⊆ data) as Hsub.
  { intros v ->%list_elem_of_singleton. by eapply list_elem_of_lookup_2. }
  pose proof (Condition_evaluate_sub c data m [Missing] Hm Hsub) as H1.
  rewrite (Condition_evaluate_elementwise c data m Hm), list_lookup_fmap, Hj. simpl.
  f_equal. destruct c as [t|s]; [|done].
  simpl in H1. pose proof (threshold_evaluates_evaluable _ _ _ H1) as Hev.
  rewrite (threshold_missing_value t Hev) in H1. by injection H1.
Qed.

(** * Sums and products of rows *)



Lemma getitems_Ok (data : DataFrame value) names :
  names ⊆ columns data → getitems data names = Ok (mkDataFrame names (rows data)).
Proof. intros H. unfold getitems. by rewrite decide_True. Qed.

Lemma getitems_KeyError (data : DataFrame value) names :
  ¬ names ⊆ columns data → getitems data names = Raise KeyError.
Proof. intros H. unfold getitems. by rewrite decide_False. Qed.

Lemma index_mask_rows (data : DataFrame value) (bad : rowid * gmap string value → bool) :
  index_mask (index data) (bad <$> rows data)
  = (filter (λ r, bad r = true) (rows data)).*1.
Proof. unfold index_mask, index. apply loc_mask_fmap. Qed.







(** * Distinct labels and linked values *)

Lemma nunique_eq_length (r : list value) :
  nunique r = length r ↔ (Missing ∉ r) ∧ NoDup r.
Proof.
  split.
  - intros H. split; [|by apply PermFacts.nunique_full].
    intros Hm%nunique_missing. lia.
  - intros [Hm Hnd]. unfold nunique.
    rewrite filter_every by (intros x Hx ->; done).
    by rewrite remove_dups_NoDup_id.
Qed.

Lemma nunique_eq_1 (r : list value) :
  nunique r = 1%nat ↔
  ∃ v, v ≠ Missing ∧ v ∈ r ∧ ∀ c, c ∈ r → c = Missing ∨ c = v.
Proof.
  split.
  - unfold nunique. intros H.
    destruct (remove_dups (filter (λ v, v ≠ Missing) r)) as [|v [|? ?]] eqn:Hd; try done.
    assert (∀ c, c ∈ r → c ≠ Missing → c = v) as Hall.
    { intros c Hc Hne.
      assert (c ∈ remove_dups (filter (λ v, v ≠ Missing) r)) as Hin
        by (apply elem_of_remove_dups, list_elem_of_filter; done).
      rewrite Hd in Hin. by apply list_elem_of_singleton in Hin. }
    assert (v ∈ filter (λ v, v ≠ Missing) r) as [Hv Hin]%list_elem_of_filter
      by (apply elem_of_remove_dups; rewrite Hd; left).
    exists v. split; [done|]. split; [done|].
    intros c Hc. destruct (decide (c = Missing)); [by left | right; by apply Hall].
  - intros (v & Hv & Hin & Hall). by apply (nunique_single v).
Qed.

(** X7: the label-duplicate constraint raises [KeyError] when a parameter
    is no column of the table, and otherwise returns, in table order, the
    labels of the rows in which a parameter cell is missing or two parameter
    cells hold the same value. *)
Theorem no_label_duplicates_rows (params : list string) (data : DataFrame value) :
  NoLabelDuplicatesConstraint.get_invalid (NoLabelDuplicatesConstraint.mk params) data =
  if decide (params ⊆ columns data)
  then Ok (filter (λ r, Missing ∈ cells params r.2 ∨ ¬ NoDup (cells params r.2))
             (rows data)).*1
  else Raise KeyError.
Proof.
  case_decide as Hsub.
  - rewrite NoLabelDuplicates_get_invalid_rows by done. do 2 f_equal.
    apply list_filter_iff. intros r.
    replace (length params) with (length (cells params r.2))
      by (unfold cells; by rewrite length_fmap).
    rewrite nunique_eq_length.
    destruct (decide (Missing ∈ cells params r.2)); [tauto|].
    destruct (decide (NoDup (cells params r.2))); tauto.
  - unfold NoLabelDuplicatesConstraint.get_invalid. simpl.
    by rewrite getitems_KeyError.
Qed.

(** X8: the linking constraint flags a row exactly when its parameter cells
    do not hold one common value besides missing cells; in particular a row
    whose parameter cells are all missing is flagged. *)
Theorem linked_parameters_rows (params : list string) (data : DataFrame value) :
  params ⊆ columns data →
  ∃ ids,
    LinkedParametersConstraint.get_invalid (LinkedParametersConstraint.mk params) data
      = Ok ids ∧
    (∀ i, i ∈ ids ↔
          ∃ r, r ∈ rows data ∧ r.1 = i ∧
               ¬ ∃ v, v ≠ Missing ∧ v ∈ cells params r.2 ∧
                      ∀ c, c ∈ cells params r.2 → c = Missing ∨ c = v) ∧
    (∀ r, r ∈ rows data → (∀ c, c ∈ cells params r.2 → c = Missing) → r.1 ∈ ids).
Proof.
  intros Hsub. eexists. split; [by apply LinkedParameters_get_invalid_rows|].
  assert (∀ i, i ∈ (filter (λ r, nunique (cells params r.2) ≠ 1%nat) (rows data)).*1 ↔
            ∃ r, r ∈ rows data ∧ r.1 = i ∧
              ¬ ∃ v, v ≠ Missing ∧ v ∈ cells params r.2 ∧
                     ∀ c, c ∈ cells params r.2 → c = Missing ∨ c = v) as Hiff.
  { intros i. rewrite list_elem_of_fmap. split.
    - intros (r & -> & [Hr Hin]%list_elem_of_filter). exists r.
      split; [done|]. split; [done|]. by rewrite <- nunique_eq_1.
    - intros (r & Hin & <- & Hr). exists r. split; [done|].
      apply list_elem_of_filter. split; [|done]. by rewrite nunique_eq_1. }
  split; [done|].
  intros r Hr Hall. apply Hiff. exists r. split; [done|]. split; [done|].
  intros (v & Hv & Hin & _). by apply Hv, Hall.
Qed.

(** X9: with a single parameter the label-duplicate and the linking
    constraint return the same labels; with two or more parameters every row
    of the table is flagged by at least one of the two, so no row is valid
    for both. *)
Theorem label_duplicates_versus_linking (params : list string) (data : DataFrame value)
    (a b : list rowid) :
  NoLabelDuplicatesConstraint.get_invalid (NoLabelDuplicatesConstraint.mk params) data = Ok a →
  LinkedParametersConstraint.get_invalid (LinkedParametersConstraint.mk params) data = Ok b →
  (length params = 1%nat → a = b) ∧
  ((2 ≤ length params)%nat → ∀ i, i ∈ index data → i ∈ a ∨ i ∈ b).
Proof.
  intros Ha Hb.
  assert (params ⊆ columns data) as Hsub.
  { destruct (decide (params ⊆ columns data)) as [|Hn]; [done|].
    unfold NoLabelDuplicatesConstraint.get_invalid in Ha. simpl in Ha.
    by rewrite getitems_KeyError in Ha. }
  rewrite NoLabelDuplicates_get_invalid_rows in Ha by done.
  rewrite LinkedParameters_get_invalid_rows in Hb by done.
  injection Ha as <-. injection Hb as <-. split.
  - by intros ->.
  - intros Hlen i (r & -> & Hr)%list_elem_of_fmap.
    destruct (decide (nunique (cells params r.2) = 1%nat)) as [H1|H1].
    + left. apply list_elem_of_fmap. exists r. split; [done|].
      apply list_elem_of_filter. split; [lia | done].
    + right. apply list_elem_of_fmap. exists r. split; [done|].
      by apply list_elem_of_filter.
Qed.

(** X10: the empty parameter list.  The label-duplicate constraint flags
    nothing and the linking constraint flags every row, on every table. *)
Theorem empty_parameter_list (data : DataFrame value) :
  NoLabelDuplicatesConstraint.get_invalid (NoLabelDuplicatesConstraint.mk []) data = Ok [] ∧
  LinkedParametersConstraint.get_invalid (LinkedParametersConstraint.mk []) data
    = Ok (index data).
Proof.
  split.
  - rewrite NoLabelDuplicates_get_invalid_rows by apply list_subseteq_nil.
    rewrite filter_none; [done|]. intros r _ H. by apply H.
  - rewrite LinkedParameters_get_invalid_rows by apply list_subseteq_nil.
    rewrite filter_every; [done|]. by intros r _.
Qed.

(** * Row by row: the classes that build a mask *)

Lemma foldl_zip_with_fmap {X K} (comb : bool → bool → bool) (g0 : X → bool)
    (g : K → X → bool) (ks : list K) (l : list X) :
  foldl (zip_with comb) (g0 <$> l) ((λ k, g k <$> l) <$> ks)
  = (λ x, foldl comb (g0 x) ((λ k, g k x) <$> ks)) <$> l.
Proof.
  revert g0. induction ks as [|k ks IH]; intros g0; simpl; [done|].
  rewrite zip_with_fmap_same. apply (IH (λ x, comb (g0 x) (g k x))).
Qed.

Lemma getitem_Ok_column (data : DataFrame value) name col :
  getitem data name = Ok col ↔ name ∈ columns data ∧ col = Deps.column data name.
Proof.
  unfold getitem, Deps.column. case_decide.
  - split; [intros [= <-]; done | by intros [_ ->]].
  - split; [done | tauto].
Qed.

(** One element of the list comprehension, on a table with the columns of
    [data] and some of its rows. *)
Lemma exclude_eval_sub params (data data' : DataFrame value) kc m :
  exclude_eval params data kc = Ok m →
  columns data' = columns data → rows data' ⊆ rows data →
  exclude_eval params data' kc
  = Ok ((λ r : rowid * gmap string value,
           Condition_holds kc.2 (r.2 !!! (params !!! kc.1))) <$> rows data').
Proof.
  unfold exclude_eval. intros H Hcols Hrows.
  destruct (params !! kc.1) as [name|] eqn:Hname; [|done]. simpl in *.
  rewrite (list_lookup_total_correct _ _ _ Hname).
  apply bind_Ok in H as (col & [Hin ->]%getitem_Ok_column & Hm).
  assert (getitem data' name = Ok (Deps.column data' name)) as ->
    by (apply getitem_Ok_column; by rewrite Hcols).
  simpl. erewrite Condition_evaluate_sub; [|exact Hm|].
  - unfold Deps.column. by rewrite <- list_fmap_compose.
  - unfold Deps.column. intros v (r & -> & Hr)%list_elem_of_fmap.
    apply list_elem_of_fmap. eauto.
Qed.

Lemma Exclude_get_invalid_sub self (data data' : DataFrame value) ids :
  ExcludeConstraint.get_invalid self data = Ok ids →
  columns data' = columns data → rows data' ⊆ rows data →
  ExcludeConstraint.get_invalid self data'
  = Ok (filter (λ r, exclude_row self r.2 = true) (rows data')).*1.
Proof.
  rewrite !exclude_get_invalid_unfold. intros H Hcols Hrows.
  apply bind_Ok in H as (satisfied & Hsat & H).
  apply bind_Ok in H as (comb & Hcomb & H).
  apply bind_Ok in H as (res & Hres & _).
  destruct (_valid_logic_combiners !! ExcludeConstraint.combiner self) as [comb'|] eqn:Hc;
    [|done].
  injection Hcomb as ->.
  rewrite (mapM_Ok_fmap _ (λ kc, (λ r : rowid * gmap string value,
             Condition_holds kc.2 (r.2 !!! (ExcludeConstraint.parameters self !!! kc.1)))
             <$> rows data')).
  2:{ intros kc Hkc. apply mapM_Ok in Hsat.
      destruct (Forall2_elem_l _ _ _ kc Hsat Hkc) as [m Hm].
      by eapply exclude_eval_sub. }
  simpl.
  assert (enumerate (ExcludeConstraint.conditions self) ≠ []) as Hne.
  { intros Hnil. rewrite Hnil in Hsat. simpl in Hsat. injection Hsat as <-. done. }
  rewrite <- index_mask_rows.
  unfold exclude_row, exclude_results. rewrite Hc.
  destruct (enumerate (ExcludeConstraint.conditions self)) as [|kc0 kcs]; [done|].
  simpl. do 2 f_equal.
  exact (foldl_zip_with_fmap comb
    (λ r : rowid * gmap string value,
       Condition_holds kc0.2 (r.2 !!! (ExcludeConstraint.parameters self !!! kc0.1)))
    (λ kc (r : rowid * gmap string value),
       Condition_holds kc.2 (r.2 !!! (ExcludeConstraint.parameters self !!! kc.1)))
    kcs (rows data')).
Qed.

Lemma row_reduce_Ok (op : Qc → Qc → Qc) (unit : Qc) (r : list value) x :
  row_reduce op unit r = Ok x → x = foldr op unit (numbers r).
Proof.
  revert x. induction r as [|[y|s|] r IH]; simpl; intros x H.
  - by injection H as <-.
  - apply fmap_Ok in H as (x' & Hx' & ->). by rewrite (IH x').
  - done.
  - by apply IH.
Qed.

Lemma mapM_Ok_sub {A B} (f : A → result B) (g : A → B) l k l' :
  mapM f l = Ok k → (∀ x y, f x = Ok y → y = g x) → l' ⊆ l →
  mapM f l' = Ok (g <$> l').
Proof.
  intros H Hg Hsub. apply mapM_Ok_fmap. intros x Hx.
  apply mapM_Ok in H. destruct (Forall2_elem_l _ _ _ x H (Hsub _ Hx)) as [y Hy].
  by rewrite Hy, (Hg x y).
Qed.

Lemma getitems_Ok_inv (data : DataFrame value) names sub :
  getitems data names = Ok sub → names ⊆ columns data ∧ sub = mkDataFrame names (rows data).
Proof. unfold getitems. case_decide; [|done]. by intros [= <-]. Qed.

Lemma fmap_subseteq {A B} (f : A → B) (l k : list A) : l ⊆ k → f <$> l ⊆ f <$> k.
Proof.
  intros H y (x & -> & Hx)%list_elem_of_fmap. apply list_elem_of_fmap. eauto.
Qed.

Lemma Threshold_evaluate_sub cond col m col' :
  ThresholdCondition.evaluate cond col = Ok m → col' ⊆ col →
  ThresholdCondition.evaluate cond col' = Ok (Condition_holds (Threshold cond) <$> col').
Proof. apply (Condition_evaluate_sub (Threshold cond)). Qed.

Ltac reduce_rows_sub op unit cond params data' Hrun Hcols Hrows :=
  apply bind_Ok in Hrun as (sub & [Hsub ->]%getitems_Ok_inv & Hrun);
  apply bind_Ok in Hrun as (ev & Hev & Hrun);
  apply bind_Ok in Hrun as (mask & Hmask & _);
  rewrite getitems_Ok by (by rewrite Hcols);
  unfold row_values in *; simpl in *;
  assert (∀ (r : list value) y, Num <$> row_reduce op unit r = Ok y →
            y = Num (foldr op unit (numbers r))) as Hg
    by (intros r y (x & ->%row_reduce_Ok & ->)%fmap_Ok; done);
  pose proof (mapM_Ok_sub _ _ _ _ _ Hev Hg (reflexivity _)) as Hev';
  rewrite Hev in Hev'; injection Hev' as ->;
  rewrite (mapM_Ok_sub _ _ _ _ ((λ r, cells params r.2) <$> rows data') Hev Hg)
    by (by apply fmap_subseteq);
  simpl;
  rewrite (Threshold_evaluate_sub cond _ _
             ((λ r, Num (foldr op unit (numbers r))) <$>
                ((λ r, cells params r.2) <$> rows data')) Hmask)
    by (by do 2 apply fmap_subseteq);
  simpl; rewrite <- !list_fmap_compose.

Lemma row_wise_sub (c : Constraint) (data data' : DataFrame value) (h : heap) ids :
  Constraint_type c ∉ ["PERMUTATION_INVARIANCE"; "DEPENDENCIES"] →
  (get_invalid c data h).1 = Ok ids →
  columns data' = columns data → rows data' ⊆ rows data →
  (get_invalid c data' h).1 = Ok (filter (λ r, row_invalid c r.2 = true) (rows data')).*1.
Proof.
  intros Hty Hrun Hcols Hrows. destruct c as [c|c|c|c|c|c|c|c]; simpl in *.
  - unfold CustomConstraint.get_invalid in *.
    apply bind_Ok in Hrun as (sub & [Hsub ->]%getitems_Ok_inv & _).
    rewrite getitems_Ok by (by rewrite Hcols). simpl.
    unfold row_values. simpl. rewrite <- list_fmap_compose. f_equal.
    apply (index_mask_rows data' (λ r, negb (CustomConstraint.validator c
             (zip (CustomConstraint.parameters c) (cells (CustomConstraint.parameters c) r.2))))).
  - by eapply Exclude_get_invalid_sub.
  - unfold NoLabelDuplicatesConstraint.get_invalid in *.
    apply bind_Ok in Hrun as (sub & [Hsub ->]%getitems_Ok_inv & _).
    rewrite getitems_Ok by (by rewrite Hcols). simpl.
    unfold row_values. simpl. rewrite <- list_fmap_compose. f_equal.
    apply (index_mask_rows data' (λ r, bool_decide
             (nunique (cells (NoLabelDuplicatesConstraint.parameters c) r.2)
              ≠ length (NoLabelDuplicatesConstraint.parameters c)))).
  - unfold LinkedParametersConstraint.get_invalid in *.
    apply bind_Ok in Hrun as (sub & [Hsub ->]%getitems_Ok_inv & _).
    rewrite getitems_Ok by (by rewrite Hcols). simpl.
    unfold row_values. simpl. rewrite <- list_fmap_compose. f_equal.
    apply (index_mask_rows data' (λ r, bool_decide
             (nunique (cells (LinkedParametersConstraint.parameters c) r.2) ≠ 1%nat))).
  - unfold SumConstraint.get_invalid in *.
    reduce_rows_sub Qcplus 0%Qc (SumConstraint.condition c) (SumConstraint.parameters c)
      data' Hrun Hcols Hrows.
    f_equal.
    apply (index_mask_rows data' (λ r, negb (Condition_holds
             (Threshold (SumConstraint.condition c))
             (Num (row_total (cells (SumConstraint.parameters c) r.2)))))).
  - unfold ProductConstraint.get_invalid in *.
    reduce_rows_sub Qcmult 1%Qc (ProductConstraint.condition c)
      (ProductConstraint.parameters c) data' Hrun Hcols Hrows.
    f_equal.
    apply (index_mask_rows data' (λ r, negb (Condition_holds
             (Threshold (ProductConstraint.condition c))
             (Num (row_product (cells (ProductConstraint.parameters c) r.2)))))).
  - exfalso. apply Hty. set_solver.
  - exfalso. apply Hty. set_solver.
Qed.



Lemma loc_mask_sublist {X} (xs : list X) mask : loc_mask xs mask `sublist_of` xs.
Proof.
  revert mask. induction xs as [|x xs IH]; intros [|b mask]; try done.
  - apply sublist_nil_l.
  - rewrite loc_mask_cons. destruct b; [by apply sublist_skip | by apply sublist_cons].
Qed.

Lemma Dependencies_run_filter_flagged pi self (data : DataFrame value) fr D
    (ids : list rowid) :
  DependenciesConstraint.run pi self data = Ok (fr, D) →
  (∀ i, i ∈ D → i ∈ ids) →
  ∃ fr', DependenciesConstraint.run pi self (Perm.remaining data ids) = Ok (fr', []).
Proof.
  intros [Hok [= -> ->]]%DepsFacts.run_rowwise Hids.
  eexists. apply DepsFacts.run_rowwise. split.
  - by apply Idem.run_ok_filter.
  - f_equal. unfold Deps.signatures, index, Perm.remaining. simpl.
    rewrite (index_mask_later_duplicates (DependenciesConstraint.signature_eqb pi)
               (λ r, (cells (Deps.other_params self (columns data)) (Deps.final_row self r),
                      cells (concat (DependenciesConstraint.affected_parameters self))
                        (Deps.final_row self r)))).
    symmetry. apply later_duplicates_filter. intros r _ Hr Hkeep. by apply Hkeep, Hids.
Qed.

Lemma not_duplicate_based (c : Constraint) :
  Constraint_type c ≠ "PERMUTATION_INVARIANCE" → Constraint_type c ≠ "DEPENDENCIES" →
  Constraint_type c ∉ ["PERMUTATION_INVARIANCE"; "DEPENDENCIES"].
Proof.
  intros H1 H2 H. apply elem_of_cons in H as [?|H]; [done|].
  apply elem_of_cons in H as [?|H]; [done|]. by apply elem_of_nil in H.
Qed.

Lemma mask_classes_sublist (c : Constraint) (data : DataFrame value) (h : heap) ids :
  Constraint_type c ≠ "PERMUTATION_INVARIANCE" →
  (get_invalid c data h).1 = Ok ids → ids `sublist_of` index data.
Proof.
  intros Hty Hrun.
  destruct (decide (Constraint_type c = "DEPENDENCIES")) as [Hd|Hd].
  - destruct c; try done. simpl in Hrun.
    unfold DependenciesConstraint.get_invalid in Hrun.
    apply fmap_Ok in Hrun as ([fr ids'] & Hrun & ->).
    apply DepsFacts.run_rowwise in Hrun as [_ [= _ ->]]. apply loc_mask_sublist.
  - assert (Constraint_type c ∉ ["PERMUTATION_INVARIANCE"; "DEPENDENCIES"]) as Hty'
      by by apply not_duplicate_based.
    pose proof (row_wise_sub c data data h ids Hty' Hrun eq_refl (reflexivity _)) as H.
    rewrite Hrun in H. injection H as ->.
    unfold index. apply fmap_sublist, sublist_filter.
Qed.

(** X12: every class but the permutation invariance constraint returns the
    labels in the order of the table, each row at most once: the result is a
    sublist of the index, and has no repetition when the index has none. *)
Theorem labels_come_in_table_order (c : Constraint) (data : DataFrame value)
    (h : heap) (ids : list rowid) :
  Constraint_type c ≠ "PERMUTATION_INVARIANCE" →
  (get_invalid c data h).1 = Ok ids →
  ids `sublist_of` index data ∧ (NoDup (index data) → NoDup ids).
Proof.
  intros Hty Hrun. pose proof (mask_classes_sublist c data h ids Hty Hrun) as Hsub.
  split; [done|]. intros Hnd. by eapply sublist_NoDup.
Qed.

(** X13: idempotence of the seven classes besides the permutation
    invariance constraint.  When a call returns [ids] and rows remain,
    dropping the rows labelled [ids] succeeds and the same constraint flags
    nothing on the remaining table; no flag is assigned. *)
Theorem other_classes_idempotent (c : Constraint) (data : DataFrame value)
    (h h' : heap) (ids : list rowid) :
  Constraint_type c ≠ "PERMUTATION_INVARIANCE" →
  get_invalid c data h = (Ok ids, h') →
  rows (Perm.remaining data ids) ≠ [] →
  drop_index data ids = Ok (Perm.remaining data ids) ∧
  get_invalid c (Perm.remaining data ids) h' = (Ok [], h').
Proof.
  intros Hty Hrun _.
  assert ((get_invalid c data h).1 = Ok ids) as Hrun1 by by rewrite Hrun.
  assert (h' = h) as ->.
  { rewrite <- (other_variants_keep_heap c data h); [by rewrite Hrun|].
    intros p ->. done. }
  split.
  { apply PermFacts.drop_index_Ok. apply sublist_subseteq.
    by eapply mask_classes_sublist. }
  rewrite (surjective_pairing (get_invalid _ _ _)).
  rewrite other_variants_keep_heap by (intros p ->; done). f_equal.
  destruct (decide (Constraint_type c = "DEPENDENCIES")) as [Hd|Hd].
  - destruct c; try done. simpl in *.
    unfold DependenciesConstraint.get_invalid in *.
    apply fmap_Ok in Hrun1 as ([fr ids'] & Hrun1 & ->). simpl.
    destruct (Dependencies_run_filter_flagged _ _ _ _ _ ids' Hrun1) as [fr' ->]; done.
  - assert (Constraint_type c ∉ ["PERMUTATION_INVARIANCE"; "DEPENDENCIES"]) as Hty'
      by by apply not_duplicate_based.
    pose proof (row_wise_sub c data data h ids Hty' Hrun1 eq_refl (reflexivity _)) as H.
    rewrite Hrun1 in H. injection H as Hids.
    rewrite (row_wise_sub c data (Perm.remaining data ids) h ids Hty' Hrun1 eq_refl).
    2:{ intros r [_ Hr]%list_elem_of_filter. done. }
    rewrite filter_none; [done|].
    intros r [Hr Hin]%list_elem_of_filter Hbad. apply Hr. rewrite Hids.
    apply list_elem_of_fmap. exists r. split; [done|]. by apply list_elem_of_filter.
Qed.

(** * Missing columns, and the columns that are read *)

(** X14: a parameter that is no column of the table.  The custom,
    label-duplicate, linking, sum, product and permutation invariance
    constraints, their parameters being unique, raise [KeyError] and assign
    no flag. *)
Theorem missing_column_raises_KeyError (c : Constraint) (data : DataFrame value) (h : heap) :
  Constraint_type c ∉ ["EXCLUDE"; "DEPENDENCIES"] →
  NoDup (Constraint_parameters c) →
  ¬ Constraint_parameters c ⊆ columns data →
  get_invalid c data h = (Raise KeyError, h).
Proof.
  intros Hty Hnd Hsub. destruct c as [c|c|c|c|c|c|c|c]; simpl in *.
  - unfold CustomConstraint.get_invalid. by rewrite getitems_KeyError.
  - exfalso. apply Hty. left.
  - unfold NoLabelDuplicatesConstraint.get_invalid. by rewrite getitems_KeyError.
  - unfold LinkedParametersConstraint.get_invalid. by rewrite getitems_KeyError.
  - unfold SumConstraint.get_invalid. by rewrite getitems_KeyError.
  - unfold ProductConstraint.get_invalid. by rewrite getitems_KeyError.
  - unfold PermutationInvarianceConstraint.get_invalid,
      PermutationInvarianceConstraint.inds_invalid, NoLabelDuplicatesConstraint.init.
    destruct (validate_params_cases (PermutationInvarianceConstraint.parameters c))
      as [[_ ->]|[Hn _]]; [|done].
    simpl. unfold NoLabelDuplicatesConstraint.get_invalid. simpl.
    by rewrite getitems_KeyError.
  - exfalso. apply Hty. right. left.
Qed.

Lemma same_on_cells P (d1 d2 : DataFrame value) Q :
  same_on P d1 d2 → Q ⊆ P →
  (λ r : rowid * gmap string value, cells Q r.2) <$> rows d1
  = (λ r : rowid * gmap string value, cells Q r.2) <$> rows d2.
Proof.
  intros (_ & _ & Hrows) HQ.
  induction Hrows as [|r1 r2 l1 l2 Hr _ IH]; [done|].
  rewrite !fmap_cons, IH. f_equal.
  apply list_fmap_ext. intros _ p Hp%list_elem_of_lookup_2. by apply Hr, HQ.
Qed.

Lemma same_on_subseteq P (d1 d2 : DataFrame value) :
  same_on P d1 d2 → (P ⊆ columns d1 ↔ P ⊆ columns d2).
Proof.
  intros (_ & Hc & _). split; intros H p Hp; apply (Hc p Hp); by apply H.
Qed.

Lemma same_on_getitems P (d1 d2 : DataFrame value) :
  same_on P d1 d2 →
  row_values <$> getitems d1 P = row_values <$> getitems d2 P.
Proof.
  intros Hs. pose proof (same_on_subseteq _ _ _ Hs) as Hsub.
  unfold getitems. destruct (decide (P ⊆ columns d1)) as [H1|H1].
  - rewrite (decide_True _ _ (proj1 Hsub H1)). simpl. f_equal.
    unfold row_values. simpl. by apply (same_on_cells P).
  - rewrite decide_False by (intros H2; by apply H1, Hsub). done.
Qed.

Lemma same_on_getitem P (d1 d2 : DataFrame value) p :
  same_on P d1 d2 → p ∈ P → getitem d1 p = getitem d2 p.
Proof.
  intros (_ & Hc & Hrows) Hp. unfold getitem.
  destruct (decide (p ∈ columns d1)) as [H1|H1].
  - rewrite decide_True by by apply (Hc p Hp). f_equal.
    induction Hrows as [|r1 r2 l1 l2 Hr _ IH]; [done|].
    rewrite !fmap_cons, IH. f_equal. by apply Hr.
  - rewrite decide_False; [done|]. intros H2. by apply H1, (Hc p Hp).
Qed.

Ltac same_on_frame Hs :=
  let Hsub := fresh "Hsub" in
  let H1 := fresh "H1" in
  pose proof (same_on_subseteq _ _ _ Hs) as Hsub;
  pose proof Hs as (-> & _ & _);
  unfold getitems;
  match goal with
  | |- context [decide (?P ⊆ columns ?d1)] =>
      destruct (decide (P ⊆ columns d1)) as [H1|H1];
      [rewrite (decide_True _ _ (proj1 Hsub H1))
      |rewrite decide_False by (intros H2; by apply H1, Hsub); done]
  end;
  simpl; unfold row_values; simpl;
  rewrite (same_on_cells _ _ _ _ Hs (reflexivity _)).

(** X15: the six row-wise classes read nothing but their parameter columns:
    two tables with the same index that agree on these columns, in presence
    and in cells, give the same result, exceptions included. *)
Theorem row_wise_constraints_read_their_parameters (c : Constraint)
    (d1 d2 : DataFrame value) (h : heap) :
  Constraint_type c ∉ ["PERMUTATION_INVARIANCE"; "DEPENDENCIES"] →
  same_on (Constraint_parameters c) d1 d2 →
  get_invalid c d1 h = get_invalid c d2 h.
Proof.
  intros Hty Hs. destruct c as [c|c|c|c|c|c|c|c]; simpl in *; f_equal.
  - unfold CustomConstraint.get_invalid. by same_on_frame Hs.
  - rewrite !exclude_get_invalid_unfold. pose proof Hs as (-> & _ & _).
    f_equal. apply mapM_ext_in. intros [k cond] Hk. unfold exclude_eval. simpl.
    destruct (ExcludeConstraint.parameters c !! k) as [name|] eqn:Hname; [|done]. simpl.
    rewrite (same_on_getitem _ _ _ name Hs); [done|]. by eapply list_elem_of_lookup_2.
  - unfold NoLabelDuplicatesConstraint.get_invalid. by same_on_frame Hs.
  - unfold LinkedParametersConstraint.get_invalid. by same_on_frame Hs.
  - unfold SumConstraint.get_invalid. by same_on_frame Hs.
  - unfold ProductConstraint.get_invalid. by same_on_frame Hs.
  - exfalso. apply Hty. left.
  - exfalso. apply Hty. right. left.
Qed.

(** * Dependencies: construction, lengths and the first row *)

Lemma for_each_ext_in {S X} (f g : S → X → result S) (s : S) (l : list X) :
  (∀ s x, x ∈ l → f s x = g s x) → for_each f s l = for_each g s l.
Proof.
  revert s. induction l as [|x l IH]; intros s H; simpl; [done|].
  rewrite (H s x) by left. destruct (g s x) as [s'|e]; simpl; [|done].
  apply IH. intros s'' y Hy. apply H. by right.
Qed.

Lemma Dependencies_init_cases o params conds affected :
  DependenciesConstraint.init o params conds affected =
  if decide (NoDup params ∧ length conds = length affected)
  then Ok (DependenciesConstraint.mk o params conds affected)
  else Raise StrictValidationError.
Proof.
  unfold DependenciesConstraint.init, DependenciesConstraint.affected_parameters_validator.
  destruct (validate_params_cases params) as [[Hnd ->]|[Hnd ->]]; simpl.
  - destruct (decide (length conds ≠ length affected)) as [Hl|Hl]; simpl.
    + by rewrite decide_False by tauto.
    + rewrite decide_True; [done|]. split; [done|].
      destruct (decide (length conds = length affected)); done.
  - by rewrite decide_False by tauto.
Qed.

Lemma Dependencies_run_raises pi self (data : DataFrame value) :
  (length (DependenciesConstraint.conditions self)
   < length (DependenciesConstraint.parameters self))%nat →
  ∃ e, DependenciesConstraint.run pi self data = Raise e.
Proof.
  intros Hlen.
  destruct (DependenciesConstraint.run pi self data) as [res|e] eqn:Hrun; [|by eexists].
  exfalso. apply DepsFacts.run_rowwise in Hrun as [(Hc & _) _].
  destruct (lookup_lt_is_Some_2 (DependenciesConstraint.parameters self)
              (length (DependenciesConstraint.conditions self)) Hlen) as [p Hp].
  rewrite Forall_forall in Hc.
  destruct (Hc (length (DependenciesConstraint.conditions self), p))
    as (c & _ & _ & _ & Hcond & _).
  { by apply elem_of_enumerate. }
  simpl in Hcond. apply lookup_lt_Some in Hcond. lia.
Qed.

(** X16: lengths in the dependencies constraint.  Construction checks only
    that the parameters are unique and that there are as many conditions as
    groups of affected parameters, raising [StrictValidationError] otherwise.
    With fewer conditions than parameters every call raises, on every table.
    Conditions beyond the number of parameters are never evaluated: dropping
    them changes no result. *)
Theorem dependencies_length_mismatch (o : nat) (params : list string)
    (conds : list Condition) (affected : list (list string)) :
  (DependenciesConstraint.init o params conds affected =
   if decide (NoDup params ∧ length conds = length affected)
   then Ok (DependenciesConstraint.mk o params conds affected)
   else Raise StrictValidationError) ∧
  ((length conds < length params)%nat →
   ∀ (data : DataFrame value) (h : heap),
     ∃ e, DependenciesConstraint.get_invalid
            (DependenciesConstraint.mk o params conds affected) data h = Raise e) ∧
  (∀ (data : DataFrame value) (h : heap),
     DependenciesConstraint.get_invalid
       (DependenciesConstraint.mk o params (take (length params) conds) affected) data h
     = DependenciesConstraint.get_invalid
         (DependenciesConstraint.mk o params conds affected) data h).
Proof.
  split; [apply Dependencies_init_cases|]. split.
  - intros Hlen data h. unfold DependenciesConstraint.get_invalid.
    destruct (Dependencies_run_raises
                (DependenciesConstraint.permutation_invariant h
                   (DependenciesConstraint.mk o params conds affected))
                (DependenciesConstraint.mk o params conds affected) data Hlen) as [e ->].
    by eexists.
  - intros data h. unfold DependenciesConstraint.get_invalid.
    unfold DependenciesConstraint.permutation_invariant. simpl. f_equal.
    unfold DependenciesConstraint.run. simpl.
    rewrite (for_each_ext_in
               (DependenciesConstraint.censor
                  (DependenciesConstraint.mk o params (take (length params) conds) affected))
               (DependenciesConstraint.censor
                  (DependenciesConstraint.mk o params conds affected))); [done|].
    intros fr [k p] Hk%elem_of_enumerate. unfold DependenciesConstraint.censor. simpl.
    apply lookup_lt_Some in Hk. by rewrite lookup_take_lt.
Qed.

(** X17: the dependencies constraint never flags the first row.  On a
    uniquely indexed table the label of the first row is not among the
    returned ones, so that row remains. *)
Theorem dependencies_keep_the_first_row (self : DependenciesConstraint.t)
    (data : DataFrame value) (h : heap) (ids : list rowid)
    (r : rowid * gmap string value) (rest : list (rowid * gmap string value)) :
  DependenciesConstraint.get_invalid self data h = Ok ids →
  rows data = r :: rest → NoDup (index data) →
  (r.1 ∉ ids) ∧ r ∈ rows (Perm.remaining data ids).
Proof.
  intros Hrun Hrows Hnd. unfold DependenciesConstraint.get_invalid in Hrun.
  apply fmap_Ok in Hrun as ([fr ids'] & Hrun & ->).
  apply DepsFacts.run_rowwise in Hrun as [_ [= _ ->]]. simpl.
  assert (r.1 ∉ index_mask (index data)
            (duplicated (DependenciesConstraint.signature_eqb
                           (DependenciesConstraint.permutation_invariant h self))
               (Deps.signatures self (columns data) (Deps.final_row self) data))) as Hnot.
  { unfold index, Deps.signatures in *. rewrite Hrows in *. simpl in *.
    unfold index_mask, duplicated. simpl. rewrite loc_mask_cons.
    apply NoDup_cons in Hnd as [Hr _]. intros Hin. apply Hr.
    by eapply loc_mask_subseteq. }
  split; [done|]. unfold Perm.remaining. simpl. apply list_elem_of_filter.
  split; [done|]. rewrite Hrows. left.
Qed.

(** * The registry and the order of the constraint classes *)

(** X18: [_constraints_order] and the registry of constraint classes hold
    the same type tags, each once, and every constraint has its tag in both.
    The two classes whose verdict on a row depends on other rows come last in
    the order, after every row-wise class. *)
Theorem constraints_order_covers_the_registry :
  (∀ c : Constraint, Constraint_type c ∈ _constraints_order ∧
                     Constraint_type c ∈ Constraint_SUBCLASSES) ∧
  Constraint_SUBCLASSES ≡ₚ _constraints_order ∧
  NoDup _constraints_order ∧
  ∃ front, _constraints_order = front ++ ["PERMUTATION_INVARIANCE"; "DEPENDENCIES"] ∧
           ∀ c : Constraint,
             Constraint_type c ∈ front ↔
             Constraint_type c ∉ ["PERMUTATION_INVARIANCE"; "DEPENDENCIES"].
Proof.
  split; [|split; [|split]].
  - intros c. split; destruct c; by apply (bool_decide_unpack _).
  - apply NoDup_Permutation.
    + by apply (bool_decide_unpack _).
    + by apply (bool_decide_unpack _).
    + intros x. split; intros H.
      * unfold Constraint_SUBCLASSES in H.
        repeat (apply elem_of_cons in H as [->|H]; [by apply (bool_decide_unpack _)|]).
        by apply elem_of_nil in H.
      * unfold _constraints_order in H.
        repeat (apply elem_of_cons in H as [->|H]; [by apply (bool_decide_unpack _)|]).
        by apply elem_of_nil in H.
  - by apply (bool_decide_unpack _).
  - exists ["CUSTOM"; "EXCLUDE"; "NO_LABEL_DUPLICATES"; "LINKED_PARAMETERS"; "SUM"; "PRODUCT"].
    split; [done|]. intros c.
    destruct c; simpl; split; intros H; try (by apply (bool_decide_unpack _));
      exfalso; revert H; by apply (bool_decide_unpack _).
Qed.

(** * The order of the parameters *)

Lemma remove_dups_Permutation {A} `{EqDecision A} (l k : list A) :
  l ≡ₚ k → remove_dups l ≡ₚ remove_dups k.
Proof.
  intros H. apply NoDup_Permutation; [apply NoDup_remove_dups..|].
  intros x. by rewrite !elem_of_remove_dups, H.
Qed.

Lemma nunique_Permutation (r r' : list value) : r ≡ₚ r' → nunique r = nunique r'.
Proof.
  intros H. unfold nunique. apply Permutation_length, remove_dups_Permutation.
  by rewrite H.
Qed.

Lemma cells_Permutation (params params' : list string) (r : gmap string value) :
  params ≡ₚ params' → cells params r ≡ₚ cells params' r.
Proof. intros H. unfold cells. by rewrite H. Qed.

Lemma frozenset_eqb_proper {A} `{EqDecision A} (a a' b b' : list A) :
  a ≡ₚ a' → b ≡ₚ b' → frozenset_eqb a b = frozenset_eqb a' b'.
Proof.
  intros Ha Hb. unfold frozenset_eqb. apply bool_decide_ext.
  split; intros [H1 H2]; split; intros x Hx.
  - rewrite <- Hb. apply H1. by rewrite Ha.
  - rewrite <- Ha. apply H2. by rewrite Hb.
  - rewrite Hb. apply H1. by rewrite <- Ha.
  - rewrite Ha. apply H2. by rewrite <- Hb.
Qed.

Lemma later_duplicates_from_ext {X S S'} (eqb : S → S → bool) (eqb' : S' → S' → bool)
    (sig : X → S) (sig' : X → S') (ident : X → rowid) (seen R : list X) :
  (∀ x y, eqb (sig x) (sig y) = eqb' (sig' x) (sig' y)) →
  later_duplicates_from eqb sig ident (sig <$> seen) R
  = later_duplicates_from eqb' sig' ident (sig' <$> seen) R.
Proof.
  intros Hext. revert seen. induction R as [|x R IH]; intros seen; [done|].
  rewrite !later_duplicates_from_cons.
  assert (existsb (eqb (sig x)) (sig <$> seen) = existsb (eqb' (sig' x)) (sig' <$> seen))
    as ->.
  { induction seen as [|y seen IHs]; [done|]. rewrite !fmap_cons. cbn [existsb].
    by rewrite Hext, IHs. }
  pose proof (IH (seen ++ [x])) as IH'. rewrite !fmap_app in IH'. simpl in IH'.
  by rewrite IH'.
Qed.

Lemma later_duplicates_ext {X S S'} (eqb : S → S → bool) (eqb' : S' → S' → bool)
    (sig : X → S) (sig' : X → S') (ident : X → rowid) (R : list X) :
  (∀ x y, eqb (sig x) (sig y) = eqb' (sig' x) (sig' y)) →
  later_duplicates eqb sig ident R = later_duplicates eqb' sig' ident R.
Proof. intros Hext. by apply (later_duplicates_from_ext eqb eqb' sig sig' ident []). Qed.

Lemma subseteq_Permutation {A} (l l' k : list A) : l ≡ₚ l' → (l ⊆ k ↔ l' ⊆ k).
Proof. intros H. split; intros Hs x Hx; apply Hs; [by rewrite H | by rewrite <- H]. Qed.

Module PermOrder.
Import Perm.

Section order.
Context (params params' : list string) (data : DataFrame value).
Hypothesis Hperm : params ≡ₚ params'.

Lemma stage1_Permutation : stage1 params data = stage1 params' data.
Proof.
  unfold stage1. f_equal. apply list_filter_iff. intros r. unfold label_duplicate.
  by rewrite (nunique_Permutation _ _ (cells_Permutation _ _ r.2 Hperm)),
             (Permutation_length Hperm).
Qed.

Lemma labelled_Permutation : labelled params data = labelled params' data.
Proof. unfold labelled. by rewrite stage1_Permutation. Qed.

Lemma others_Permutation : others params data = others params' data.
Proof.
  unfold others. apply list_filter_iff. intros c. by rewrite Hperm.
Qed.

Lemma passed_Permutation : passed params data = passed params' data.
Proof. unfold passed. by rewrite stage1_Permutation. Qed.

Lemma stage2_Permutation : stage2 params data = stage2 params' data.
Proof.
  unfold stage2. rewrite passed_Permutation. apply later_duplicates_ext.
  intros x y. unfold PermutationInvarianceConstraint.signature_eqb, sig. simpl.
  rewrite others_Permutation. f_equal.
  apply frozenset_eqb_proper; by apply cells_Permutation.
Qed.
End order.
End PermOrder.

Lemma inds_invalid_cases self (data : DataFrame value) :
  let params := PermutationInvarianceConstraint.parameters self in
  PermutationInvarianceConstraint.inds_invalid self data =
  if decide (NoDup params) then
    if decide (params ⊆ columns data)
    then Ok (Index_union (Perm.labelled params data) (Perm.stage2 params data))
    else Raise KeyError
  else Raise StrictValidationError.
Proof.
  intros params. destruct (decide (NoDup params)) as [Hnd|Hnd].
  - destruct (decide (params ⊆ columns data)) as [Hsub|Hsub].
    + by apply PermFacts.inds_invalid_Ok.
    + unfold PermutationInvarianceConstraint.inds_invalid, NoLabelDuplicatesConstraint.init.
      fold params.
      destruct (validate_params_cases params) as [[_ ->]|[Hn _]]; [|done].
      simpl. unfold NoLabelDuplicatesConstraint.get_invalid. simpl.
      by rewrite getitems_KeyError.
  - unfold PermutationInvarianceConstraint.inds_invalid, NoLabelDuplicatesConstraint.init.
    fold params.
    by destruct (validate_params_cases params) as [[? _]|[_ ->]].
Qed.

(** X19: the order of the parameters does not matter to the
    label-duplicate, linking and permutation invariance constraints: a
    permuted parameter list gives the same result, exceptions and flag
    assignment included. *)
Theorem parameter_order_is_irrelevant (params params' : list string)
    (data : DataFrame value) :
  params ≡ₚ params' →
  (NoLabelDuplicatesConstraint.get_invalid (NoLabelDuplicatesConstraint.mk params) data
   = NoLabelDuplicatesConstraint.get_invalid (NoLabelDuplicatesConstraint.mk params') data) ∧
  (LinkedParametersConstraint.get_invalid (LinkedParametersConstraint.mk params) data
   = LinkedParametersConstraint.get_invalid (LinkedParametersConstraint.mk params') data) ∧
  (∀ (deps : option DependenciesConstraint.t) (h : heap),
     PermutationInvarianceConstraint.get_invalid
       (PermutationInvarianceConstraint.mk params deps) data h
     = PermutationInvarianceConstraint.get_invalid
         (PermutationInvarianceConstraint.mk params' deps) data h).
Proof.
  intros Hperm.
  pose proof (subseteq_Permutation params params' (columns data) Hperm) as Hsub.
  split; [|split].
  - destruct (decide (params ⊆ columns data)) as [H|H].
    + rewrite !NoLabelDuplicates_get_invalid_rows by tauto.
      f_equal. exact (PermOrder.stage1_Permutation params params' data Hperm).
    + unfold NoLabelDuplicatesConstraint.get_invalid. simpl.
      rewrite !getitems_KeyError by tauto. done.
  - destruct (decide (params ⊆ columns data)) as [H|H].
    + rewrite !LinkedParameters_get_invalid_rows by tauto.
      do 2 f_equal. apply list_filter_iff. intros r.
      by rewrite (nunique_Permutation _ _ (cells_Permutation _ _ r.2 Hperm)).
    + unfold LinkedParametersConstraint.get_invalid. simpl.
      rewrite !getitems_KeyError by tauto. done.
  - intros deps h. unfold PermutationInvarianceConstraint.get_invalid.
    rewrite !inds_invalid_cases. simpl.
    rewrite <- (PermOrder.labelled_Permutation params params' data Hperm).
    rewrite <- (PermOrder.stage2_Permutation params params' data Hperm).
    destruct (decide (NoDup params)) as [Hnd|Hnd].
    + rewrite (decide_True (P := NoDup params')) by by rewrite <- Hperm.
      destruct (decide (params ⊆ columns data)) as [H|H].
      * by rewrite (decide_True (P := params' ⊆ columns data)) by tauto.
      * by rewrite (decide_False (P := params' ⊆ columns data)) by tauto.
    + by rewrite (decide_False (P := NoDup params')) by by rewrite <- Hperm.
Qed.

(** * Representatives *)

Section representatives.
Context {X S : Type} (eqb : S → S → bool) (sig : X → S) (ident : X → rowid).
Hypothesis eqb_trans : ∀ a b c, eqb a b = true → eqb b c = true → eqb a c = true.

Lemma NoDup_fmap_split (R1 R2 R1' R2' : list X) x x' :
  NoDup (ident <$> (R1 ++ x :: R2)) →
  R1 ++ x :: R2 = R1' ++ x' :: R2' → ident x = ident x' →
  R1 = R1' ∧ x = x' ∧ R2 = R2'.
Proof.
  revert R1'. induction R1 as [|a R1 IH]; intros R1' Hnd Heq Hid.
  - destruct R1' as [|a' R1']; simpl in Heq.
    + by injection Heq as -> ->.
    + injection Heq as -> ->. exfalso.
      change (NoDup (ident a' :: (ident <$> R1' ++ x' :: R2'))) in Hnd.
      apply NoDup_cons in Hnd as [Hn _]. apply Hn.
      rewrite Hid. apply list_elem_of_fmap. exists x'. split; [done|].
      apply elem_of_app. right. left.
  - change (NoDup (ident a :: (ident <$> R1 ++ x :: R2))) in Hnd.
    apply NoDup_cons in Hnd as [Hn Hnd].
    destruct R1' as [|a' R1']; simpl in Heq.
    + injection Heq as -> <-. exfalso. apply Hn.
      rewrite <- Hid. apply list_elem_of_fmap. exists x. split; [done|].
      apply elem_of_app. right. left.
    + injection Heq as -> Heq.
      destruct (IH R1' Hnd Heq Hid) as (-> & -> & ->). done.
Qed.

(** Every row that repeats an earlier one has an earlier row of the same
    signature that is kept. *)
Lemma later_duplicates_representative (R : list X) :
  NoDup (ident <$> R) →
  ∀ R1 x R2, R = R1 ++ x :: R2 →
    (∃ y, y ∈ R1 ∧ eqb (sig x) (sig y) = true) →
    ∃ y, y ∈ R1 ∧ eqb (sig x) (sig y) = true ∧
         ident y ∉ later_duplicates eqb sig ident R.
Proof.
  intros Hnd.
  assert (∀ n R1 x R2, (length R1 < n)%nat → R = R1 ++ x :: R2 →
            (∃ y, y ∈ R1 ∧ eqb (sig x) (sig y) = true) →
            ∃ y, y ∈ R1 ∧ eqb (sig x) (sig y) = true ∧
                 ident y ∉ later_duplicates eqb sig ident R) as Hall.
  { induction n as [|n IH]; intros R1 x R2 Hlen HR (y & Hy & He); [lia|].
    destruct (decide (ident y ∈ later_duplicates eqb sig ident R)) as [Hflag|Hok].
    2:{ by exists y. }
    apply elem_of_later_duplicates in Hflag as (A & y' & B & HR' & Hid & z & Hz & Hez).
    apply list_elem_of_split in Hy as (A0 & B0 & ->).
    rewrite <- (assoc_L (++)) in HR. simpl in HR.
    rewrite HR in Hnd.
    destruct (NoDup_fmap_split A0 (B0 ++ x :: R2) A B y y' Hnd) as (-> & -> & _);
      [congruence | done |].
    destruct (IH A y' (B0 ++ x :: R2)) as (w & Hw & Hew & Hwok).
    { rewrite length_app in Hlen. simpl in Hlen. lia. }
    { done. }
    { by exists z. }
    exists w. split; [apply elem_of_app; by left|]. split; [|done].
    by apply (eqb_trans _ (sig y')). }
  intros R1 x R2. apply (Hall (Datatypes.S (length R1))). lia.
Qed.
End representatives.

Lemma NoDup_fst_eq {A} (l : list (rowid * A)) x y :
  NoDup l.*1 → x ∈ l → y ∈ l → x.1 = y.1 → x = y.
Proof.
  intros Hnd Hx Hy Heq.
  apply list_elem_of_split in Hx as (l1 & l2 & ->).
  apply elem_of_app in Hy as [Hy|Hy].
  - exfalso. rewrite fmap_app, fmap_cons in Hnd.
    apply NoDup_app in Hnd as (_ & Hn & _). apply (Hn y.1).
    + apply list_elem_of_fmap. eauto.
    + rewrite <- Heq. left.
  - apply elem_of_cons in Hy as [->|Hy]; [done|]. exfalso.
    rewrite fmap_app, fmap_cons in Hnd.
    apply NoDup_app in Hnd as (_ & _ & Hn). apply NoDup_cons in Hn as [Hn _].
    apply Hn. rewrite Heq. apply list_elem_of_fmap. eauto.
Qed.

Lemma frozenset_eqb_trans {A} `{EqDecision A} (a b c : list A) :
  frozenset_eqb a b = true → frozenset_eqb b c = true → frozenset_eqb a c = true.
Proof.
  unfold frozenset_eqb. rewrite !bool_decide_eq_true.
  intros [H1 H2] [H3 H4]. split; intros x Hx; auto.
Qed.

(** X20: the permutation invariance constraint without dependencies leaves
    a set of representatives of a uniquely indexed table.  Every remaining row
    has pairwise distinct parameter values, none missing; no two remaining
    rows agree on the other columns and hold the same parameter values up to
    order; and every dropped row without label duplicates has a remaining row
    that agrees with it in this way. *)
Theorem permutation_invariance_keeps_representatives (params : list string)
    (data : DataFrame value) (h h' : heap) (ids : list rowid) :
  PermutationInvarianceConstraint.get_invalid
    (PermutationInvarianceConstraint.mk params None) data h = (Ok ids, h') →
  NoDup (index data) →
  let others := Perm.others params data in
  (∀ x, x ∈ rows data → x.1 ∉ ids →
        NoDup (cells params x.2) ∧ (Missing ∉ cells params x.2)) ∧
  (∀ x y, x ∈ rows data → y ∈ rows data → x.1 ∉ ids → y.1 ∉ ids → x.1 ≠ y.1 →
          ¬ (cells others y.2 = cells others x.2 ∧ cells params y.2 ≡ₚ cells params x.2)) ∧
  (∀ x, x ∈ rows data → x.1 ∈ ids →
        NoDup (cells params x.2) → Missing ∉ cells params x.2 →
        ∃ y, y ∈ rows data ∧ (y.1 ∉ ids) ∧
             cells others y.2 = cells others x.2 ∧ cells params y.2 ≡ₚ cells params x.2).
Proof.
  intros Hrun Hnd others.
  unfold PermutationInvarianceConstraint.get_invalid in Hrun.
  rewrite inds_invalid_cases in Hrun. simpl in Hrun.
  destruct (decide (NoDup params)) as [Hp|]; [|done].
  destruct (decide (params ⊆ columns data)) as [Hsub|]; [|done].
  injection Hrun as <- <-.
  assert (∀ i, i ∈ Index_union (Perm.labelled params data) (Perm.stage2 params data) ↔
               i ∈ Perm.stage1 params data ∨ i ∈ Perm.stage2 params data) as Hids
    by (intros i; by rewrite elem_of_Index_union, PermFacts.elem_of_labelled).
  assert (∀ x, x ∈ rows data → x.1 ∉ Perm.stage1 params data →
               nunique (cells params x.2) = length (cells params x.2)) as Hfull.
  { intros x Hx Hn. unfold cells at 2. rewrite length_fmap.
    destruct (decide (nunique (cells params x.2) = length params)) as [|Hne]; [done|].
    exfalso. apply Hn. apply list_elem_of_fmap. exists x. split; [done|].
    by apply list_elem_of_filter. }
  assert (∀ x, x ∈ rows data → x.1 ∉ Perm.stage1 params data → x ∈ Perm.passed params data)
    as Hpassed by (intros x Hx Hn; by apply list_elem_of_filter).
  split; [|split].
  - intros x Hx Hn. rewrite Hids in Hn.
    destruct (proj1 (nunique_eq_length (cells params x.2))) as [? ?]; [|done].
    apply Hfull; tauto.
  - intros x y Hx Hy Hnx Hny Hne Heq. rewrite Hids in Hnx, Hny.
    assert (x ∈ Perm.passed params data) as Hxp by (apply Hpassed; tauto).
    assert (y ∈ Perm.passed params data) as Hyp by (apply Hpassed; tauto).
    pose proof Hxp as (R1 & R2 & HR)%list_elem_of_split.
    rewrite HR in Hyp. apply elem_of_app in Hyp as [Hy1|Hy2].
    + apply Hnx. right. apply PermFacts.elem_of_stage2.
      exists R1, x, R2. split; [done|]. split; [done|]. by exists y.
    + apply elem_of_cons in Hy2 as [->|Hy2]; [done|].
      apply list_elem_of_split in Hy2 as (A & B & ->).
      apply Hny. right. apply PermFacts.elem_of_stage2.
      exists (R1 ++ x :: A), y, B. split; [by rewrite HR, <- (assoc_L (++))|].
      split; [done|]. exists x. split; [apply elem_of_app; right; left|].
      destruct Heq as [He1 He2]. split; [by symmetry | by symmetry].
  - intros x Hx Hin Hndx Hmx. apply Hids in Hin as [Hin|Hin].
    + exfalso. apply list_elem_of_fmap in Hin as (r & Hr & [Hdup Hrin]%list_elem_of_filter).
      assert (x = r) as <- by (by apply (NoDup_fst_eq (rows data))).
      apply Hdup. transitivity (length (cells params x.2));
        [by apply nunique_eq_length | unfold cells; by rewrite length_fmap].
    + unfold Perm.stage2 in Hin.
      pose proof Hin as (R1 & x' & R2 & HR & Hid & Hearlier)%elem_of_later_duplicates.
      assert (NoDup (Perm.passed params data).*1) as Hndp.
      { eapply sublist_NoDup; [exact Hnd|]. apply fmap_sublist, sublist_filter. }
      assert (x' ∈ rows data) as Hx'.
      { assert (x' ∈ Perm.passed params data) as [_ ?]%list_elem_of_filter; [|done].
        rewrite HR. apply elem_of_app. right. left. }
      assert (x' = x) as -> by (by apply (NoDup_fst_eq (rows data))).
      destruct (later_duplicates_representative
                  PermutationInvarianceConstraint.signature_eqb
                  (Perm.sig params data) fst) with
        (R := Perm.passed params data) (R1 := R1) (x := x) (R2 := R2)
        as (y & Hy & He & Hok); try done.
      { intros a b c. unfold PermutationInvarianceConstraint.signature_eqb.
        rewrite !andb_true_iff, !bool_decide_eq_true.
        intros [-> H1] [-> H2]. split; [done|]. by eapply frozenset_eqb_trans. }
      assert (y ∈ Perm.passed params data) as Hyp
        by (rewrite HR; apply elem_of_app; by left).
      assert (x ∈ Perm.passed params data) as Hxp
        by (rewrite HR; apply elem_of_app; right; left).
      apply PermFacts.signature_eqb_multiset in He as [He1 He2]; [|done..].
      pose proof Hyp as [Hy1 Hyr]%list_elem_of_filter.
      exists y. split; [done|]. split; [|done].
      rewrite Hids. tauto.
Qed.

(** * Exclusion by several conditions and by one *)

Lemma Exclude_get_invalid_rows self (data : DataFrame value) ids :
  ExcludeConstraint.get_invalid self data = Ok ids →
  ids = (filter (λ r, exclude_row self r.2 = true) (rows data)).*1.
Proof.
  intros H. pose proof (Exclude_get_invalid_sub self data data ids H eq_refl (reflexivity _))
    as H'. rewrite H in H'. by injection H'.
Qed.

Lemma Exclude_single params conds comb comb' (data : DataFrame value) ids k p c :
  ExcludeConstraint.get_invalid (ExcludeConstraint.mk params conds comb) data = Ok ids →
  params !! k = Some p → conds !! k = Some c →
  is_Some (_valid_logic_combiners !! comb') →
  ExcludeConstraint.get_invalid (ExcludeConstraint.mk [p] [c] comb') data
  = Ok (filter (λ r, Condition_holds c (r.2 !!! p) = true) (rows data)).*1.
Proof.
  rewrite !exclude_get_invalid_unfold. simpl. intros H Hp Hc [f Hf].
  apply bind_Ok in H as (satisfied & Hsat & _). apply mapM_Ok in Hsat.
  destruct (Forall2_elem_l _ _ _ (k, c) Hsat) as [m Hm]; [by apply elem_of_enumerate|].
  pose proof (exclude_eval_sub params data data (k, c) m Hm eq_refl (reflexivity _)) as Hm'.
  simpl in Hm'. rewrite (list_lookup_total_correct _ _ _ Hp) in Hm'.
  assert (exclude_eval [p] data (0%nat, c) = exclude_eval params data (k, c)) as ->.
  { unfold exclude_eval. simpl. by rewrite Hp. }
  rewrite Hm'. simpl. rewrite Hf. simpl. f_equal.
  apply (index_mask_rows data (λ r, Condition_holds c (r.2 !!! p))).
Qed.

Lemma exclude_results_elem params conds (r : gmap string value) b :
  b ∈ exclude_results params conds r ↔
  ∃ k c, conds !! k = Some c ∧ b = Condition_holds c (r !!! (params !!! k)).
Proof.
  unfold exclude_results. rewrite list_elem_of_fmap. split.
  - intros ([k c] & -> & Hkc%elem_of_enumerate). eauto.
  - intros (k & c & Hc & ->). exists (k, c). split; [done|]. by apply elem_of_enumerate.
Qed.

Lemma exclude_row_or params conds (r : gmap string value) :
  exclude_row (ExcludeConstraint.mk params conds "OR") r = true ↔
  ∃ k c, conds !! k = Some c ∧ Condition_holds c (r !!! (params !!! k)) = true.
Proof.
  unfold exclude_row. simpl.
  destruct logic_combiners_lookup as (_ & -> & _).
  assert (match exclude_results params conds r with
          | [] => false | b :: bs => foldl orb b bs end
          = existsb id (exclude_results params conds r)) as ->.
  { destruct (exclude_results params conds r); [done|]. apply foldl_orb. }
  rewrite existsb_exists. split.
  - intros (b & Hb%list_elem_of_In%exclude_results_elem & Hid).
    destruct Hb as (k & c & Hc & ->). eauto.
  - intros (k & c & Hc & Hh). exists true. split; [|done].
    apply list_elem_of_In, exclude_results_elem. eauto.
Qed.

Lemma exclude_row_and params conds (r : gmap string value) :
  conds ≠ [] →
  exclude_row (ExcludeConstraint.mk params conds "AND") r = true ↔
  ∀ k c, conds !! k = Some c → Condition_holds c (r !!! (params !!! k)) = true.
Proof.
  intros Hne. unfold exclude_row. simpl.
  destruct logic_combiners_lookup as (-> & _ & _).
  assert (match exclude_results params conds r with
          | [] => false | b :: bs => foldl andb b bs end
          = forallb id (exclude_results params conds r)) as ->.
  { destruct (exclude_results params conds r) eqn:He; [|apply foldl_andb].
    exfalso. apply Hne. apply fmap_nil_inv in He. unfold enumerate in He.
    destruct conds; done. }
  rewrite forallb_forall. split.
  - intros H k c Hc. apply (H (Condition_holds c (r !!! (params !!! k)))).
    apply list_elem_of_In, exclude_results_elem. eauto.
  - intros H b Hb%list_elem_of_In%exclude_results_elem.
    destruct Hb as (k & c & Hc & ->). unfold id. eauto.
Qed.

(** X21: exclusion by several conditions and by one.  With [OR] the
    constraint flags exactly the labels flagged by one of its conditions
    alone, on the parameter at the same position; with [AND], on a uniquely
    indexed table, exactly the labels of the table flagged by each of its
    conditions alone. *)
Theorem exclude_or_is_union_and_is_intersection (params : list string)
    (conds : list Condition) (data : DataFrame value) (ids : list rowid) :
  (ExcludeConstraint.get_invalid (ExcludeConstraint.mk params conds "OR") data = Ok ids →
   ∀ i, i ∈ ids ↔
        ∃ k p c ids_k,
          params !! k = Some p ∧ conds !! k = Some c ∧
          ExcludeConstraint.get_invalid (ExcludeConstraint.mk [p] [c] "OR") data = Ok ids_k ∧
          i ∈ ids_k) ∧
  (ExcludeConstraint.get_invalid (ExcludeConstraint.mk params conds "AND") data = Ok ids →
   NoDup (index data) →
   ∀ i, i ∈ ids ↔
        i ∈ index data ∧
        ∀ k p c, params !! k = Some p → conds !! k = Some c →
          ∃ ids_k,
            ExcludeConstraint.get_invalid (ExcludeConstraint.mk [p] [c] "AND") data
              = Ok ids_k ∧
            i ∈ ids_k).
Proof.
  assert (∀ comb ids, ExcludeConstraint.get_invalid (ExcludeConstraint.mk params conds comb)
                        data = Ok ids →
            ∀ k c, conds !! k = Some c → ∃ p, params !! k = Some p) as Hlook.
  { intros comb ids' H k c Hc. rewrite exclude_get_invalid_unfold in H. simpl in H.
    apply bind_Ok in H as (satisfied & Hsat & _). apply mapM_Ok in Hsat.
    destruct (Forall2_elem_l _ _ _ (k, c) Hsat) as [m Hm]; [by apply elem_of_enumerate|].
    unfold exclude_eval in Hm. simpl in Hm.
    destruct (params !! k) as [p|]; [by eexists | done]. }
  assert (∀ comb ids, ExcludeConstraint.get_invalid (ExcludeConstraint.mk params conds comb)
                        data = Ok ids → conds ≠ []) as Hne.
  { intros comb ids' H ->. rewrite exclude_get_invalid_unfold in H. simpl in H.
    by destruct (_valid_logic_combiners !! comb). }
  split.
  - intros Hrun i. pose proof (Exclude_get_invalid_rows _ _ _ Hrun) as ->.
    rewrite list_elem_of_fmap. split.
    + intros (r & -> & [(k & c & Hc & Hh)%exclude_row_or Hr]%list_elem_of_filter).
      destruct (Hlook _ _ Hrun k c Hc) as [p Hp].
      rewrite (list_lookup_total_correct _ _ _ Hp) in Hh.
      exists k, p, c. eexists. split; [done|]. split; [done|].
      split; [by eapply (Exclude_single params conds "OR" "OR")|].
      apply list_elem_of_fmap. exists r. split; [done|]. by apply list_elem_of_filter.
    + intros (k & p & c & ids_k & Hp & Hc & Hk & Hi).
      rewrite (Exclude_single params conds "OR" "OR" data _ k p c Hrun Hp Hc) in Hk
        by done.
      injection Hk as <-.
      apply list_elem_of_fmap in Hi as (r & -> & [Hh Hr]%list_elem_of_filter).
      exists r. split; [done|]. apply list_elem_of_filter. split; [|done].
      apply exclude_row_or. exists k, c. split; [done|].
      by rewrite (list_lookup_total_correct _ _ _ Hp).
  - intros Hrun Hnd i. pose proof (Exclude_get_invalid_rows _ _ _ Hrun) as ->.
    pose proof (Hne _ _ Hrun) as Hconds.
    rewrite list_elem_of_fmap. split.
    + intros (r & -> & [Hall Hr]%list_elem_of_filter).
      rewrite exclude_row_and in Hall by done.
      split; [apply list_elem_of_fmap; eauto|].
      intros k p c Hp Hc. eexists.
      split; [by eapply (Exclude_single params conds "AND" "AND")|].
      apply list_elem_of_fmap. exists r. split; [done|].
      apply list_elem_of_filter. split; [|done].
      rewrite <- (list_lookup_total_correct _ _ _ Hp). by apply Hall.
    + intros [(r & -> & Hr)%list_elem_of_fmap Hall]. exists r. split; [done|].
      apply list_elem_of_filter. split; [|done].
      apply exclude_row_and; [done|]. intros k c Hc.
      destruct (Hlook _ _ Hrun k c Hc) as [p Hp].
      destruct (Hall k p c Hp Hc) as (ids_k & Hk & Hi).
      rewrite (Exclude_single params conds "AND" "AND" data _ k p c Hrun Hp Hc) in Hk
        by done.
      injection Hk as <-.
      apply list_elem_of_fmap in Hi as (r' & Heq & [Hh Hr']%list_elem_of_filter).
      assert (r = r') as <- by (by apply (NoDup_fst_eq (rows data))).
      by rewrite (list_lookup_total_correct _ _ _ Hp).
Qed.


(** * The flag of the dependencies constraint *)




(** * Representatives under the dependencies constraint *)




(** * Row-wise constraints one after the other *)

Lemma filter_ext_in {A} (P Q : A → Prop) `{!∀ x, Decision (P x)} `{!∀ x, Decision (Q x)}
    (l : list A) :
  (∀ x, x ∈ l → (P x ↔ Q x)) → filter P l = filter Q l.
Proof.
  induction l as [|x l IH]; intros Hext; [done|].
  rewrite !filter_cons.
  destruct (decide (P x)) as [HP|HP], (decide (Q x)) as [HQ|HQ].
  - f_equal. apply IH. intros y Hy. apply Hext. by right.
  - exfalso. apply HQ, (Hext x); [left | done].
  - exfalso. apply HP, (Hext x); [left | done].
  - apply IH. intros y Hy. apply Hext. by right.
Qed.

Lemma row_wise_after_dropping (c : Constraint) (data : DataFrame value) (h : heap)
    (ids dropped : list rowid) :
  Constraint_type c ∉ ["PERMUTATION_INVARIANCE"; "DEPENDENCIES"] →
  NoDup (index data) →
  (get_invalid c data h).1 = Ok ids →
  ∃ ids', (get_invalid c (Perm.remaining data dropped) h).1 = Ok ids' ∧
          Perm.remaining (Perm.remaining data dropped) ids'
          = Perm.remaining data (dropped ++ ids).
Proof.
  intros Hty Hnd Hrun.
  pose proof (row_wise_sub c data data h ids Hty Hrun eq_refl (reflexivity _)) as H.
  rewrite Hrun in H. injection H as Hids.
  eexists. split.
  - apply (row_wise_sub c data (Perm.remaining data dropped) h ids Hty Hrun eq_refl).
    intros r [_ Hr]%list_elem_of_filter. done.
  - unfold Perm.remaining. simpl. f_equal. rewrite list_filter_filter.
    apply filter_ext_in. intros r Hr. rewrite elem_of_app, Hids. split.
    + intros [Hkeep Hd] [Hin|Hin]; [done|]. apply Hkeep.
      apply list_elem_of_fmap in Hin as (r' & Heq & [Hbad Hr']%list_elem_of_filter).
      assert (r = r') as <- by (by apply (NoDup_fst_eq (rows data))).
      apply list_elem_of_fmap. exists r. split; [done|].
      apply list_elem_of_filter. split; [done|]. by apply list_elem_of_filter.
    + intros Hn. split; [|tauto]. intros Hin. apply Hn. right.
      apply list_elem_of_fmap in Hin
        as (r' & Heq & [Hbad [_ Hr']%list_elem_of_filter]%list_elem_of_filter).
      apply list_elem_of_fmap. exists r'. split; [done|]. by apply list_elem_of_filter.
Qed.

(** X24: row-wise constraints commute.  On a uniquely indexed table,
    dropping the rows flagged by one constraint and then the rows flagged by
    the other on what remains gives, in either order, the table without the
    rows flagged by either constraint on the original table. *)
Theorem row_wise_constraints_commute (c1 c2 : Constraint) (data : DataFrame value)
    (h : heap) (ids1 ids2 : list rowid) :
  Constraint_type c1 ∉ ["PERMUTATION_INVARIANCE"; "DEPENDENCIES"] →
  Constraint_type c2 ∉ ["PERMUTATION_INVARIANCE"; "DEPENDENCIES"] →
  NoDup (index data) →
  (get_invalid c1 data h).1 = Ok ids1 →
  (get_invalid c2 data h).1 = Ok ids2 →
  rows (Perm.remaining data (ids1 ++ ids2)) ≠ [] →
  ∃ ids12 ids21,
    (get_invalid c2 (Perm.remaining data ids1) h).1 = Ok ids12 ∧
    (get_invalid c1 (Perm.remaining data ids2) h).1 = Ok ids21 ∧
    Perm.remaining (Perm.remaining data ids1) ids12 = Perm.remaining data (ids1 ++ ids2) ∧
    Perm.remaining (Perm.remaining data ids2) ids21 = Perm.remaining data (ids1 ++ ids2).
Proof.
  intros Hty1 Hty2 Hnd Hrun1 Hrun2 _.
  destruct (row_wise_after_dropping c2 data h ids2 ids1 Hty2 Hnd Hrun2) as (ids12 & H12 & E12).
  destruct (row_wise_after_dropping c1 data h ids1 ids2 Hty1 Hnd Hrun1) as (ids21 & H21 & E21).
  exists ids12, ids21. split; [done|]. split; [done|]. split; [done|].
  rewrite E21. apply PermFacts.remaining_ext. intros i. rewrite !elem_of_app. tauto.
Qed.

(** * Further instances on the sample tables *)



Lemma missing_value_satisfies_only_inequality_witness :
  Condition_evaluate (Threshold (at_most 4)) [q 3; Missing; q 5] = Ok [true; false; false] ∧
  [q 3; Missing; q 5] !! 1%nat = Some Missing ∧
  [true; false; false] !! 1%nat = Some false.
Proof.
  assert (Condition_evaluate (Threshold (at_most 4)) [q 3; Missing; q 5]
          = Ok [true; false; false]) as Hm by (vm_compute; reflexivity).
  assert ([q 3; Missing; q 5] !! 1%nat = Some Missing) as Hj by reflexivity.
  split; [exact Hm|]. split; [exact Hj|].
  exact (missing_value_satisfies_only_inequality (Threshold (at_most 4)) _ _ 1 Hm Hj).
Defined.




Lemma linked_parameters_rows_witness :
  ["a"; "b"] ⊆ columns sample_labels ∧
  LinkedParametersConstraint.get_invalid (LinkedParametersConstraint.mk ["a"; "b"])
    sample_labels = Ok [0%Z; 1%Z; 3%Z] ∧
  ∃ ids,
    LinkedParametersConstraint.get_invalid (LinkedParametersConstraint.mk ["a"; "b"])
      sample_labels = Ok ids ∧
    (∀ r, r ∈ rows sample_labels → (∀ c, c ∈ cells ["a"; "b"] r.2 → c = Missing) →
          r.1 ∈ ids).
Proof.
  assert (["a"; "b"] ⊆ columns sample_labels) as Hsub by by_compute.
  split; [exact Hsub|]. split; [vm_compute; reflexivity|].
  destruct (linked_parameters_rows ["a"; "b"] sample_labels Hsub) as (ids & Hrun & _ & Hall).
  by exists ids.
Defined.

Lemma label_duplicates_versus_linking_witness :
  NoLabelDuplicatesConstraint.get_invalid (NoLabelDuplicatesConstraint.mk ["a"; "b"])
    sample_labels = Ok [2%Z; 4%Z] ∧
  LinkedParametersConstraint.get_invalid (LinkedParametersConstraint.mk ["a"; "b"])
    sample_labels = Ok [0%Z; 1%Z; 3%Z] ∧
  (2 ≤ length ["a"; "b"])%nat ∧
  ∀ i, i ∈ index sample_labels → i ∈ [2%Z; 4%Z] ∨ i ∈ [0%Z; 1%Z; 3%Z].
Proof.
  assert (NoLabelDuplicatesConstraint.get_invalid (NoLabelDuplicatesConstraint.mk ["a"; "b"])
            sample_labels = Ok [2%Z; 4%Z]) as Ha by (vm_compute; reflexivity).
  assert (LinkedParametersConstraint.get_invalid (LinkedParametersConstraint.mk ["a"; "b"])
            sample_labels = Ok [0%Z; 1%Z; 3%Z]) as Hb by (vm_compute; reflexivity).
  assert (2 ≤ length ["a"; "b"])%nat as Hlen by (simpl; lia).
  split; [exact Ha|]. split; [exact Hb|]. split; [exact Hlen|].
  exact (proj2 (label_duplicates_versus_linking ["a"; "b"] sample_labels _ _ Ha Hb) Hlen).
Defined.


Lemma labels_come_in_table_order_witness :
  Constraint_type (Dependencies sample_deps) ≠ "PERMUTATION_INVARIANCE" ∧
  (get_invalid (Dependencies sample_deps) sample_switch ∅).1 = Ok [3%Z] ∧
  [3%Z] `sublist_of` index sample_switch.
Proof.
  assert (Constraint_type (Dependencies sample_deps) ≠ "PERMUTATION_INVARIANCE") as Hty
    by done.
  assert ((get_invalid (Dependencies sample_deps) sample_switch ∅).1 = Ok [3%Z]) as Hrun
    by (vm_compute; reflexivity).
  split; [exact Hty|]. split; [exact Hrun|].
  exact (proj1 (labels_come_in_table_order (Dependencies sample_deps) sample_switch ∅ _
                  Hty Hrun)).
Defined.

Lemma other_classes_idempotent_witness :
  Constraint_type (Sum sample_sum) ≠ "PERMUTATION_INVARIANCE" ∧
  get_invalid (Sum sample_sum) sample_numbers ∅ = (Ok [2%Z], ∅) ∧
  rows (Perm.remaining sample_numbers [2%Z]) ≠ [] ∧
  drop_index sample_numbers [2%Z] = Ok (Perm.remaining sample_numbers [2%Z]) ∧
  get_invalid (Sum sample_sum) (Perm.remaining sample_numbers [2%Z]) ∅ = (Ok [], ∅).
Proof.
  assert (Constraint_type (Sum sample_sum) ≠ "PERMUTATION_INVARIANCE") as Hty by done.
  assert (get_invalid (Sum sample_sum) sample_numbers ∅ = (Ok [2%Z], ∅)) as Hrun
    by (vm_compute; reflexivity).
  assert (rows (Perm.remaining sample_numbers [2%Z]) ≠ []) as Hne by done.
  split; [exact Hty|]. split; [exact Hrun|]. split; [exact Hne|].
  exact (other_classes_idempotent (Sum sample_sum) sample_numbers ∅ ∅ _ Hty Hrun Hne).
Defined.

Lemma missing_column_raises_KeyError_witness :
  let c := PermutationInvariance (PermutationInvarianceConstraint.mk ["x"; "w"] None) in
  (Constraint_type c ∉ ["EXCLUDE"; "DEPENDENCIES"]) ∧
  NoDup (Constraint_parameters c) ∧
  ¬ Constraint_parameters c ⊆ columns sample_switch ∧
  get_invalid c sample_switch ∅ = (Raise KeyError, ∅).
Proof.
  cbv zeta.
  set (c := PermutationInvariance (PermutationInvarianceConstraint.mk ["x"; "w"] None)).
  assert (Constraint_type c ∉ ["EXCLUDE"; "DEPENDENCIES"]) as Hty by by_compute.
  assert (NoDup (Constraint_parameters c)) as Hnd by by_compute.
  assert (¬ Constraint_parameters c ⊆ columns sample_switch) as Hsub by by_compute.
  split; [exact Hty|]. split; [exact Hnd|]. split; [exact Hsub|].
  exact (missing_column_raises_KeyError c sample_switch ∅ Hty Hnd Hsub).
Defined.

Lemma sample_labels_same_on :
  same_on ["a"; "b"] sample_labels sample_labels_other.
Proof.
  split; [reflexivity|]. split.
  - intros p Hp. split; intros _;
      repeat (apply elem_of_cons in Hp as [->|Hp]; [by_compute|]);
      by apply elem_of_nil in Hp.
  - repeat constructor; intros p Hp;
      repeat (apply elem_of_cons in Hp as [->|Hp]; [reflexivity|]);
      by apply elem_of_nil in Hp.
Qed.

Lemma row_wise_constraints_read_their_parameters_witness :
  (Constraint_type (Exclude sample_exclude) ∉ ["PERMUTATION_INVARIANCE"; "DEPENDENCIES"]) ∧
  same_on (Constraint_parameters (Exclude sample_exclude)) sample_labels sample_labels_other ∧
  get_invalid (Exclude sample_exclude) sample_labels ∅
  = get_invalid (Exclude sample_exclude) sample_labels_other ∅.
Proof.
  assert (Constraint_type (Exclude sample_exclude)
          ∉ ["PERMUTATION_INVARIANCE"; "DEPENDENCIES"]) as Hty by by_compute.
  split; [exact Hty|]. split; [exact sample_labels_same_on|].
  exact (row_wise_constraints_read_their_parameters (Exclude sample_exclude)
           sample_labels sample_labels_other ∅ Hty sample_labels_same_on).
Defined.

Lemma dependencies_length_mismatch_witness :
  (length [is_on] < length ["switch"; "x"])%nat ∧
  DependenciesConstraint.init 0 ["switch"; "x"] [is_on] [["y"]]
  = Ok (DependenciesConstraint.mk 0 ["switch"; "x"] [is_on] [["y"]]) ∧
  ∃ e, DependenciesConstraint.get_invalid
         (DependenciesConstraint.mk 0 ["switch"; "x"] [is_on] [["y"]]) sample_switch ∅
       = Raise e.
Proof.
  assert (length [is_on] < length ["switch"; "x"])%nat as Hlen by (simpl; lia).
  split; [exact Hlen|]. split; [reflexivity|].
  exact (proj1 (proj2 (dependencies_length_mismatch 0 ["switch"; "x"] [is_on] [["y"]]))
           Hlen sample_switch ∅).
Defined.

Lemma dependencies_keep_the_first_row_witness :
  let r := rows sample_switch !!! 0%nat in
  let rest := drop 1 (rows sample_switch) in
  DependenciesConstraint.get_invalid sample_deps sample_switch ∅ = Ok [3%Z] ∧
  rows sample_switch = r :: rest ∧
  NoDup (index sample_switch) ∧
  (r.1 ∉ [3%Z]) ∧ r ∈ rows (Perm.remaining sample_switch [3%Z]).
Proof.
  cbv zeta.
  assert (DependenciesConstraint.get_invalid sample_deps sample_switch ∅ = Ok [3%Z]) as Hrun
    by (vm_compute; reflexivity).
  assert (rows sample_switch = rows sample_switch !!! 0%nat :: drop 1 (rows sample_switch))
    as Hrows by reflexivity.
  assert (NoDup (index sample_switch)) as Hnd by by_compute.
  split; [exact Hrun|]. split; [exact Hrows|]. split; [exact Hnd|].
  exact (dependencies_keep_the_first_row sample_deps sample_switch ∅ _ _ _ Hrun Hrows Hnd).
Defined.

Lemma parameter_order_is_irrelevant_witness :
  ["x"; "y"] ≡ₚ ["y"; "x"] ∧
  ∀ (deps : option DependenciesConstraint.t) (h : heap),
    PermutationInvarianceConstraint.get_invalid
      (PermutationInvarianceConstraint.mk ["x"; "y"] deps) sample_switch h
    = PermutationInvarianceConstraint.get_invalid
        (PermutationInvarianceConstraint.mk ["y"; "x"] deps) sample_switch h.
Proof.
  assert (["x"; "y"] ≡ₚ ["y"; "x"]) as Hperm by apply perm_swap.
  split; [exact Hperm|].
  exact (proj2 (proj2 (parameter_order_is_irrelevant ["x"; "y"] ["y"; "x"] sample_switch
                         Hperm))).
Defined.

Lemma permutation_invariance_keeps_representatives_witness :
  PermutationInvarianceConstraint.get_invalid
    (PermutationInvarianceConstraint.mk ["x"; "y"] None) sample_switch ∅ = (Ok [1%Z], ∅) ∧
  NoDup (index sample_switch) ∧
  ∀ x, x ∈ rows sample_switch → x.1 ∈ [1%Z] →
       NoDup (cells ["x"; "y"] x.2) → Missing ∉ cells ["x"; "y"] x.2 →
       ∃ y, y ∈ rows sample_switch ∧ (y.1 ∉ [1%Z]) ∧
            cells (Perm.others ["x"; "y"] sample_switch) y.2
            = cells (Perm.others ["x"; "y"] sample_switch) x.2 ∧
            cells ["x"; "y"] y.2 ≡ₚ cells ["x"; "y"] x.2.
Proof.
  assert (PermutationInvarianceConstraint.get_invalid
            (PermutationInvarianceConstraint.mk ["x"; "y"] None) sample_switch ∅
          = (Ok [1%Z], ∅)) as Hrun by (vm_compute; reflexivity).
  assert (NoDup (index sample_switch)) as Hnd by by_compute.
  split; [exact Hrun|]. split; [exact Hnd|].
  exact (proj2 (proj2 (permutation_invariance_keeps_representatives ["x"; "y"] sample_switch
                         ∅ ∅ [1%Z] Hrun Hnd))).
Defined.

Lemma exclude_or_is_union_and_is_intersection_witness :
  let conds := ExcludeConstraint.conditions sample_exclude in
  ExcludeConstraint.get_invalid (ExcludeConstraint.mk ["a"; "b"] conds "OR") sample_labels
    = Ok [0%Z; 1%Z; 2%Z; 3%Z; 4%Z] ∧
  ExcludeConstraint.get_invalid (ExcludeConstraint.mk ["a"; "b"] conds "AND") sample_labels
    = Ok [2%Z] ∧
  NoDup (index sample_labels) ∧
  (∀ i, i ∈ [0%Z; 1%Z; 2%Z; 3%Z; 4%Z] ↔
        ∃ k p c ids_k,
          ["a"; "b"] !! k = Some p ∧ conds !! k = Some c ∧
          ExcludeConstraint.get_invalid (ExcludeConstraint.mk [p] [c] "OR") sample_labels
            = Ok ids_k ∧
          i ∈ ids_k) ∧
  (∀ i, i ∈ [2%Z] ↔
        i ∈ index sample_labels ∧
        ∀ k p c, ["a"; "b"] !! k = Some p → conds !! k = Some c →
          ∃ ids_k,
            ExcludeConstraint.get_invalid (ExcludeConstraint.mk [p] [c] "AND") sample_labels
              = Ok ids_k ∧
            i ∈ ids_k).
Proof.
  cbv zeta.
  assert (ExcludeConstraint.get_invalid
            (ExcludeConstraint.mk ["a"; "b"] (ExcludeConstraint.conditions sample_exclude) "OR")
            sample_labels = Ok [0%Z; 1%Z; 2%Z; 3%Z; 4%Z]) as Hor by (vm_compute; reflexivity).
  assert (ExcludeConstraint.get_invalid
            (ExcludeConstraint.mk ["a"; "b"] (ExcludeConstraint.conditions sample_exclude) "AND")
            sample_labels = Ok [2%Z]) as Hand by (vm_compute; reflexivity).
  assert (NoDup (index sample_labels)) as Hnd by by_compute.
  split; [exact Hor|]. split; [exact Hand|]. split; [exact Hnd|]. split.
  - exact (proj1 (exclude_or_is_union_and_is_intersection ["a"; "b"]
                    (ExcludeConstraint.conditions sample_exclude) sample_labels _) Hor).
  - exact (proj2 (exclude_or_is_union_and_is_intersection ["a"; "b"]
                    (ExcludeConstraint.conditions sample_exclude) sample_labels _) Hand Hnd).
Defined.



Lemma row_wise_constraints_commute_witness :
  let c1 := Sum sample_sum in
  let c2 := NoLabelDuplicates (NoLabelDuplicatesConstraint.mk ["x"; "y"]) in
  (Constraint_type c1 ∉ ["PERMUTATION_INVARIANCE"; "DEPENDENCIES"]) ∧
  (Constraint_type c2 ∉ ["PERMUTATION_INVARIANCE"; "DEPENDENCIES"]) ∧
  NoDup (index sample_numbers) ∧
  (get_invalid c1 sample_numbers ∅).1 = Ok [2%Z] ∧
  (get_invalid c2 sample_numbers ∅).1 = Ok [1%Z; 2%Z] ∧
  rows (Perm.remaining sample_numbers ([2%Z] ++ [1%Z; 2%Z])) ≠ [] ∧
  ∃ ids12 ids21,
    (get_invalid c2 (Perm.remaining sample_numbers [2%Z]) ∅).1 = Ok ids12 ∧
    (get_invalid c1 (Perm.remaining sample_numbers [1%Z; 2%Z]) ∅).1 = Ok ids21 ∧
    Perm.remaining (Perm.remaining sample_numbers [2%Z]) ids12
    = Perm.remaining sample_numbers ([2%Z] ++ [1%Z; 2%Z]) ∧
    Perm.remaining (Perm.remaining sample_numbers [1%Z; 2%Z]) ids21
    = Perm.remaining sample_numbers ([2%Z] ++ [1%Z; 2%Z]).
Proof.
  cbv zeta.
  set (c1 := Sum sample_sum).
  set (c2 := NoLabelDuplicates (NoLabelDuplicatesConstraint.mk ["x"; "y"])).
  assert (Constraint_type c1 ∉ ["PERMUTATION_INVARIANCE"; "DEPENDENCIES"]) as Hty1
    by by_compute.
  assert (Constraint_type c2 ∉ ["PERMUTATION_INVARIANCE"; "DEPENDENCIES"]) as Hty2
    by by_compute.
  assert (NoDup (index sample_numbers)) as Hnd by by_compute.
  assert ((get_invalid c1 sample_numbers ∅).1 = Ok [2%Z]) as Hrun1
    by (vm_compute; reflexivity).
  assert ((get_invalid c2 sample_numbers ∅).1 = Ok [1%Z; 2%Z]) as Hrun2
    by (vm_compute; reflexivity).
  assert (rows (Perm.remaining sample_numbers ([2%Z] ++ [1%Z; 2%Z])) ≠ []) as Hne by done.
  split; [exact Hty1|]. split; [exact Hty2|]. split; [exact Hnd|].
  split; [exact Hrun1|]. split; [exact Hrun2|]. split; [exact Hne|].
  exact (row_wise_constraints_commute c1 c2 sample_numbers ∅ _ _
           Hty1 Hty2 Hnd Hrun1 Hrun2 Hne).
Defined.

